(** * R1CS constraint systems and their assignment solver

    A shallow embedding of [internal/generators/backend/template/representations/r1cs.go]
    (the [R1CS] template: data model, [Solve], [solveR1C], [instantiateR1C],
    [AddTerm], [mulWireByCoeff], [logValue], [printLogs]) and the properties
    of it that the specification states. *)

From Stdlib Require Import ZArith Lia Zpow_facts Ascii.
From stdpp Require Import base option list strings gmap pretty.

Local Open Scope Z_scope.

(** ** What the template imports

    The template is instantiated once per curve: [fr.Element] is an array of
    [Limbs] 64-bit words holding a residue modulo [modulus].  [backend.OneWire]
    is the reserved name of the constant wire and [fmt.Sprintf] the standard
    formatter; both are declared outside the template. *)

Class Imports := {
  modulus : Z;
  Limbs : nat;
  OneWire : string;
  Sprintf : string → list string → string;
}.

(** ** Panics

    A Go function either returns or panics; [outcome] keeps the two apart.
    Errors that are returned are ordinary values inside [Ret]. *)

Inductive outcome (A : Type) : Type :=
| Ret (x : A)
| Panic (msg : string).
Arguments Ret {A} x.
Arguments Panic {A} msg.

#[global] Instance outcome_ret : MRet outcome := λ A x, Ret x.
#[global] Instance outcome_bind : MBind outcome := λ A B f m,
  match m with
  | Ret x => f x
  | Panic msg => Panic msg
  end.

Definition index_out_of_range : string := "runtime error: index out of range".

(** [l[i]] for a slice [l] and an index that cannot be negative. *)
Definition at_index {A} (l : list A) (i : nat) : outcome A :=
  match l !! i with
  | Some x => Ret x
  | None => Panic index_out_of_range
  end.

(** [l[i]] for an index of type [int]. *)
Definition at_int {A} (l : list A) (i : Z) : outcome A :=
  if i <? 0 then Panic index_out_of_range else at_index l (Z.to_nat i).

(** [l[i] = x]. *)
Definition set_index {A} (l : list A) (i : nat) (x : A) : outcome (list A) :=
  if bool_decide (i < length l)%nat then Ret (<[i:=x]> l)
  else Panic index_out_of_range.

Definition set_int {A} (l : list A) (i : Z) (x : A) : outcome (list A) :=
  if i <? 0 then Panic index_out_of_range else set_index l (Z.to_nat i) x.

(** ** Machine integers *)

(** [uint64] subtraction wraps around. *)
Definition sub64 (x y : Z) : Z := (x - y) mod 2 ^ 64.

(** The conversion [int(u)] of a [uint64] on a 64-bit platform. *)
Definition int_of_uint64 (u : Z) : Z :=
  if u <? 2 ^ 63 then u else u - 2 ^ 64.

(** ** Field elements

    An [fr.Element] is modelled by the residue it stands for, whatever its
    internal (Montgomery) form; the operations are those of the field. *)

Definition Element : Type := Z.

Section Fr.
Context `{Imports}.

Definition fr_zero : Element := 0.
Definition SetOne : Element := 1.
Definition SetUint64 (v : Z) : Element := v mod modulus.
(** [SetInterface]: the assignment carries integers. *)
Definition SetInterface (v : Z) : Element := v mod modulus.
Definition Add (x y : Element) : Element := (x + y) mod modulus.
Definition Sub (x y : Element) : Element := (x - y) mod modulus.
Definition Mul (x y : Element) : Element := (x * y) mod modulus.
Definition Neg (x : Element) : Element := (- x) mod modulus.
Definition Double (x : Element) : Element := (2 * x) mod modulus.
(** [Inverse] of a nonzero residue modulo the prime [modulus]; 0 for 0. *)
Definition Inverse (x : Element) : Element := Zpow_mod x (modulus - 2) modulus.
Definition Div (x y : Element) : Element := Mul x (Inverse y).
Definition IsZero (x : Element) : bool := x =? 0.
Definition Equal (x y : Element) : bool := x =? y.
(** [String] prints the regular form in base 10. *)
Definition String (x : Element) : string := pretty x.
(** [ToBigIntRegular]: the regular form as a [big.Int], never negative. *)
Definition ToBigIntRegular (x : Element) : N := Z.to_N x.

(** [n[i]] on the regular form of an element: the [i]-th 64-bit word,
    least significant first.  The array has [Limbs] words. *)
Definition limb (n : Element) (i : nat) : outcome Z :=
  if bool_decide (i < Limbs)%nat
  then Ret (Z.land (Z.shiftr n (64 * Z.of_nat i)) (Z.ones 64))
  else Panic index_out_of_range.
End Fr.

(** ** Data model *)

(** [r1c.Term] packs a wire, a coefficient index and the mark of a
    well-known coefficient; the solver reads it through three accessors,
    the first two of which return indices that are never negative. *)
Record Term := {
  ConstraintID : nat;
  CoeffID : nat;
  CoeffValue : Z;
}.

Inductive SolvingMethod := SingleOutput | BinaryDec | OtherMethod.

Record R1C := {
  L : list Term;
  R : list Term;
  O : list Term;
  Solver : SolvingMethod;
}.

Record LogEntry := {
  Format : string;
  ToResolve : list Z;
}.

Record R1CS := {
  NbWires : Z;
  NbPublicWires : Z;
  NbSecretWires : Z;
  SecretWires : list string;
  PublicWires : list string;
  Logs : list LogEntry;
  DebugInfo : list LogEntry;
  NbConstraints : Z;
  NbCOConstraints : Z;
  Constraints : list R1C;
  Coefficients : list Element;
}.

Inductive error :=
| ErrInvalidInputSize
| ErrInputNotSet (name : string)
| ErrUnsatisfiedConstraint (debugInfoStr : string).

Section Solver.
Context `{Imports}.

(** ** Term evaluation helpers *)

(** [AddTerm] returns [res + value * term.Coefficient]. *)
Definition AddTerm (r1cs : R1CS) (res : Element) (t : Term) (value : Element)
  : outcome Element :=
  let coeffValue := CoeffValue t in
  if coeffValue =? 1 then Ret (Add res value)
  else if coeffValue =? -1 then Ret (Sub res value)
  else if coeffValue =? 0 then Ret res
  else if coeffValue =? 2 then Ret (Add res (Double value))
  else
    coeff ← at_index (Coefficients r1cs) (CoeffID t);
    Ret (Add res (Mul coeff value)).

(** [mulWireByCoeff] returns [res * term.Coefficient]. *)
Definition mulWireByCoeff (r1cs : R1CS) (res : Element) (t : Term)
  : outcome Element :=
  let coeffValue := CoeffValue t in
  if coeffValue =? 1 then Ret res
  else if coeffValue =? -1 then Ret (Neg res)
  else if coeffValue =? 0 then Ret fr_zero
  else if coeffValue =? 2 then Ret (Double res)
  else
    coeff ← at_index (Coefficients r1cs) (CoeffID t);
    Ret (Mul res coeff).

(** [for _, t := range ts { r1cs.AddTerm(&acc, t, wireValues[t.ConstraintID()]) }] *)
Fixpoint sumTerms (r1cs : R1CS) (wireValues : list Element)
    (ts : list Term) (acc : Element) : outcome Element :=
  match ts with
  | [] => Ret acc
  | t :: ts' =>
      value ← at_index wireValues (ConstraintID t);
      acc' ← AddTerm r1cs acc t value;
      sumTerms r1cs wireValues ts' acc'
  end.

(** [instantiateR1C] evaluates the three sides of a constraint. *)
Definition instantiateR1C (r : R1C) (r1cs : R1CS) (wireValues : list Element)
  : outcome (Element * Element * Element) :=
  a ← sumTerms r1cs wireValues (L r) fr_zero;
  b ← sumTerms r1cs wireValues (R r) fr_zero;
  c ← sumTerms r1cs wireValues (O r) fr_zero;
  Ret (a, b, c).

(** ** Logs *)

Fixpoint resolveWires (ids : list Z) (wireValues : list Element)
    (wireInstantiated : list bool) (toResolve : list string)
  : outcome (list string) :=
  match ids with
  | [] => Ret toResolve
  | wireID :: ids' =>
      inst ← at_int wireInstantiated wireID;
      if negb inst then Panic "wire values was not instantiated"
      else
        v ← at_int wireValues wireID;
        resolveWires ids' wireValues wireInstantiated (toResolve ++ [String v])
  end.

Definition logValue (entry : LogEntry) (wireValues : list Element)
    (wireInstantiated : list bool) : outcome string :=
  toResolve ← resolveWires (ToResolve entry) wireValues wireInstantiated [];
  Ret (Sprintf (Format entry) toResolve).

(** [printLogs] writes to standard output; the model returns what is
    written, in order. *)
Fixpoint printLogsFrom (logs : list LogEntry) (wireValues : list Element)
    (wireInstantiated : list bool) (printed : list string)
  : outcome (list string) :=
  match logs with
  | [] => Ret printed
  | entry :: logs' =>
      s ← logValue entry wireValues wireInstantiated;
      printLogsFrom logs' wireValues wireInstantiated (printed ++ [s])
  end.

Definition printLogs (r1cs : R1CS) (wireValues : list Element)
    (wireInstantiated : list bool) : outcome (list string) :=
  printLogsFrom (Logs r1cs) wireValues wireInstantiated [].

(** ** solveR1C, single output *)

(** The variables the closure [processTerm] captures, and the
    accumulator it is handed. *)
Record found := {
  loc : Z;
  termToCompute : Term;
}.

Definition zeroTerm : Term :=
  {| ConstraintID := 0; CoeffID := 0; CoeffValue := 0 |}.

Definition processTerm (r1cs : R1CS) (wireInstantiated : list bool)
    (wireValues : list Element) (f : found) (t : Term) (val : Element)
    (locValue : Z) : outcome (found * Element) :=
  let cID := ConstraintID t in
  inst ← at_index wireInstantiated cID;
  if inst : bool then
    value ← at_index wireValues cID;
    val' ← AddTerm r1cs val t value;
    Ret (f, val')
  else
    if negb (loc f =? 0) then Panic "found more than one wire to instantiate"
    else Ret ({| loc := locValue; termToCompute := t |}, val).

(** [for _, t := range ts { processTerm(t, &val, locValue) }] *)
Fixpoint processTerms (r1cs : R1CS) (wireInstantiated : list bool)
    (wireValues : list Element) (ts : list Term) (locValue : Z)
    (f : found) (val : Element) : outcome (found * Element) :=
  match ts with
  | [] => Ret (f, val)
  | t :: ts' =>
      '(f', val') ← processTerm r1cs wireInstantiated wireValues f t val locValue;
      processTerms r1cs wireInstantiated wireValues ts' locValue f' val'
  end.

Definition solveSingleOutput (r1cs : R1CS) (r : R1C)
    (wireInstantiated : list bool) (wireValues : list Element)
  : outcome (list bool * list Element) :=
  let f0 := {| loc := 0; termToCompute := zeroTerm |} in
  '(f1, a) ← processTerms r1cs wireInstantiated wireValues (L r) 1 f0 fr_zero;
  '(f2, b) ← processTerms r1cs wireInstantiated wireValues (R r) 2 f1 fr_zero;
  '(f3, c) ← processTerms r1cs wireInstantiated wireValues (O r) 3 f2 fr_zero;
  if loc f3 =? 0 then Ret (wireInstantiated, wireValues)
  else
    let cID := ConstraintID (termToCompute f3) in
    wireValues' ←
      (if loc f3 =? 1 then
         if negb (IsZero b) then
           w1 ← set_index wireValues cID (Div c b);
           x1 ← at_index w1 cID;
           w2 ← set_index w1 cID (Sub x1 a);
           x2 ← at_index w2 cID;
           x3 ← mulWireByCoeff r1cs x2 (termToCompute f3);
           set_index w2 cID x3
         else Ret wireValues
       else if loc f3 =? 2 then
         if negb (IsZero a) then
           w1 ← set_index wireValues cID (Div c a);
           x1 ← at_index w1 cID;
           w2 ← set_index w1 cID (Sub x1 b);
           x2 ← at_index w2 cID;
           x3 ← mulWireByCoeff r1cs x2 (termToCompute f3);
           set_index w2 cID x3
         else Ret wireValues
       else if loc f3 =? 3 then
         w1 ← set_index wireValues cID (Mul a b);
         x1 ← at_index w1 cID;
         w2 ← set_index w1 cID (Sub x1 c);
         x2 ← at_index w2 cID;
         x3 ← mulWireByCoeff r1cs x2 (termToCompute f3);
         set_index w2 cID x3
       else Ret wireValues);
    wireInstantiated' ← set_index wireInstantiated cID true;
    Ret (wireInstantiated', wireValues').

(** ** solveR1C, binary decomposition *)

(** The inner loop [for j < 64 && i*64+j < len(r.L)]; [j] never passes 64,
    so 64 rounds of fuel are never used up before the condition fails. *)
Fixpoint bitsInner (fuel : nat) (n : Element) (lenL : nat) (i j : nat)
    (bitSlice : list Z) : outcome (list Z) :=
  match fuel with
  | 0%nat => Ret bitSlice
  | S fuel' =>
      if bool_decide (j < 64)%nat && bool_decide (i * 64 + j < lenL)%nat then
        ni ← limb n i;
        bitSlice' ← set_index bitSlice (i * 64 + j)%nat
                      (Z.land (Z.shiftr ni (Z.of_nat j)) 1);
        bitsInner fuel' n lenL i (S j) bitSlice'
      else Ret bitSlice
  end.

(** The outer loop [for i*64 < nbBits]. *)
Fixpoint bitsOuter (fuel : nat) (n : Element) (nbBits lenL : nat) (i : nat)
    (bitSlice : list Z) : outcome (list Z) :=
  match fuel with
  | 0%nat => Ret bitSlice
  | S fuel' =>
      if bool_decide (i * 64 < nbBits)%nat then
        bitSlice' ← bitsInner 64 n lenL i 0 bitSlice;
        bitsOuter fuel' n nbBits lenL (S i) bitSlice'
      else Ret bitSlice
  end.

(** The bit slice of [n]: [nbBits] rounds are enough for the outer loop,
    which runs once per started group of 64 bits. *)
Definition binaryDecomposition (n : Element) (lenL : nat) : outcome (list Z) :=
  let nbBits := lenL in
  bitsOuter nbBits n nbBits lenL 0 (replicate nbBits 0).

(** [quickLog]: shift right until zero, count the shifts, subtract one. *)
Fixpoint countShifts (bCopy : positive) (res : Z) : Z :=
  match bCopy with
  | xH => res + 1
  | xO p | xI p => countShifts p (res + 1)
  end.

Definition quickLog (bi : N) : Z :=
  match bi with
  | N0 => 0 - 1
  | Npos p => countShifts p 0 - 1
  end.

(** [for _, t := range r.L] of the binary decomposition. *)
Fixpoint assignBits (r1cs : R1CS) (bitSlice : list Z) (ts : list Term)
    (wireInstantiated : list bool) (wireValues : list Element)
  : outcome (list bool * list Element) :=
  match ts with
  | [] => Ret (wireInstantiated, wireValues)
  | t :: ts' =>
      let cID := ConstraintID t in
      let coefID := CoeffID t in
      coef ← at_index (Coefficients r1cs) coefID;
      let bcoef := ToBigIntRegular coef in
      let ithBit := quickLog bcoef in
      bit ← at_int bitSlice ithBit;
      wireValues' ← set_index wireValues cID (SetUint64 bit);
      wireInstantiated' ← set_index wireInstantiated cID true;
      assignBits r1cs bitSlice ts' wireInstantiated' wireValues'
  end.

Definition solveBinaryDec (r1cs : R1CS) (r : R1C)
    (wireInstantiated : list bool) (wireValues : list Element)
  : outcome (list bool * list Element) :=
  n ← sumTerms r1cs wireValues (O r) fr_zero;
  bitSlice ← binaryDecomposition n (length (L r));
  assignBits r1cs bitSlice (L r) wireInstantiated wireValues.

Definition solveR1C (r1cs : R1CS) (r : R1C)
    (wireInstantiated : list bool) (wireValues : list Element)
  : outcome (list bool * list Element) :=
  match Solver r with
  | SingleOutput => solveSingleOutput r1cs r wireInstantiated wireValues
  | BinaryDec => solveBinaryDec r1cs r wireInstantiated wireValues
  | OtherMethod => Panic "unimplemented solving method"
  end.

(** ** Solve *)

(** The caller's buffers and the instantiation bitmap. *)
Record buffers := {
  buf_a : list Element;
  buf_b : list Element;
  buf_c : list Element;
  buf_wireValues : list Element;
  buf_wireInstantiated : list bool;
}.

(** The closure [instantiateInputs]; [i] is the loop counter. *)
Fixpoint instantiateInputsFrom (assignment : gmap string Z) (offset : Z)
    (i : nat) (inputNames : list string)
    (wireValues : list Element) (wireInstantiated : list bool)
  : outcome (option error * (list Element * list bool)) :=
  match inputNames with
  | [] => Ret (None, (wireValues, wireInstantiated))
  | name :: rest =>
      if bool_decide (name = OneWire) then
        wireValues' ← set_int wireValues (Z.of_nat i + offset) SetOne;
        wireInstantiated' ← set_int wireInstantiated (Z.of_nat i + offset) true;
        instantiateInputsFrom assignment offset (S i) rest wireValues' wireInstantiated'
      else
        match assignment !! name with
        | Some val =>
            wireValues' ← set_int wireValues (Z.of_nat i + offset) (SetInterface val);
            wireInstantiated' ← set_int wireInstantiated (Z.of_nat i + offset) true;
            instantiateInputsFrom assignment offset (S i) rest wireValues' wireInstantiated'
        | None => Ret (Some (ErrInputNotSet name), (wireValues, wireInstantiated))
        end
  end.

Definition instantiateInputs (assignment : gmap string Z) (offset : Z)
    (inputNames : list string)
    (wireValues : list Element) (wireInstantiated : list bool) :=
  instantiateInputsFrom assignment offset 0 inputNames wireValues wireInstantiated.

(** The secret inputs, then the public ones. *)
Definition inputPhase (r1cs : R1CS) (assignment : gmap string Z)
    (wireValues : list Element) (wireInstantiated : list bool)
  : outcome (option error * (list Element * list bool)) :=
  '(err, (wireValues1, wireInstantiated1)) ←
    (if negb (NbSecretWires r1cs =? 0) then
       let offset := int_of_uint64
         (sub64 (sub64 (NbWires r1cs) (NbPublicWires r1cs)) (NbSecretWires r1cs)) in
       instantiateInputs assignment offset (SecretWires r1cs) wireValues wireInstantiated
     else Ret (None, (wireValues, wireInstantiated)));
  match err with
  | Some e => Ret (Some e, (wireValues1, wireInstantiated1))
  | None =>
      let offset := int_of_uint64 (sub64 (NbWires r1cs) (NbPublicWires r1cs)) in
      instantiateInputs assignment offset (PublicWires r1cs) wireValues1 wireInstantiated1
  end.

(** One round of the loop over the computational constraints. *)
Definition solveStep (r1cs : R1CS) (i : nat) (st : buffers) : outcome buffers :=
  r ← at_index (Constraints r1cs) i;
  '(wireInstantiated', wireValues') ←
    solveR1C r1cs r (buf_wireInstantiated st) (buf_wireValues st);
  '(ai, bi, ci) ← instantiateR1C r r1cs wireValues';
  a' ← set_index (buf_a st) i ai;
  b' ← set_index (buf_b st) i bi;
  c' ← set_index (buf_c st) i ci;
  if negb (Equal (Mul ai bi) ci) then
    Panic ("error solving r1c: " +:+ String ai +:+ "*" +:+ String bi +:+ "=" +:+ String ci)
  else
    Ret {| buf_a := a'; buf_b := b'; buf_c := c';
           buf_wireValues := wireValues';
           buf_wireInstantiated := wireInstantiated' |}.

(** [for i := 0; i < int(r1cs.NbCOConstraints); i++], [count] rounds to go. *)
Fixpoint solveLoop (r1cs : R1CS) (count : nat) (i : nat) (st : buffers)
  : outcome buffers :=
  match count with
  | 0%nat => Ret st
  | S count' =>
      st' ← solveStep r1cs i st;
      solveLoop r1cs count' (S i) st'
  end.

(** One round of the loop over the assertions: the error returned, if any. *)
Definition checkStep (r1cs : R1CS) (i : nat) (st : buffers)
  : outcome (option error * buffers) :=
  r ← at_index (Constraints r1cs) i;
  '(ai, bi, ci) ← instantiateR1C r r1cs (buf_wireValues st);
  a' ← set_index (buf_a st) i ai;
  b' ← set_index (buf_b st) i bi;
  c' ← set_index (buf_c st) i ci;
  let st' := {| buf_a := a'; buf_b := b'; buf_c := c';
                buf_wireValues := buf_wireValues st;
                buf_wireInstantiated := buf_wireInstantiated st |} in
  if negb (Equal (Mul ai bi) ci) then
    debugInfo ← at_int (DebugInfo r1cs)
                  (Z.of_nat i - int_of_uint64 (NbCOConstraints r1cs));
    debugInfoStr ← logValue debugInfo (buf_wireValues st) (buf_wireInstantiated st);
    Ret (Some (ErrUnsatisfiedConstraint debugInfoStr), st')
  else Ret (None, st').

Fixpoint checkLoop (r1cs : R1CS) (count : nat) (i : nat) (st : buffers)
  : outcome (option error * buffers) :=
  match count with
  | 0%nat => Ret (None, st)
  | S count' =>
      '(err, st') ← checkStep r1cs i st;
      match err with
      | Some e => Ret (Some e, st')
      | None => checkLoop r1cs count' (S i) st'
      end
  end.

(** What [Solve] leaves behind when it returns: the error (or [None] for
    [nil]), the caller's buffers, and the log lines printed. *)
Record SolveResult := {
  res_err : option error;
  res_buffers : buffers;
  res_printed : list string;
}.

(** The two loops, between the input phase and the deferred [printLogs]. *)
Definition solveBody (r1cs : R1CS) (st : buffers) : outcome (option error * buffers) :=
  st1 ← solveLoop r1cs (Z.to_nat (int_of_uint64 (NbCOConstraints r1cs))) 0 st;
  let start := int_of_uint64 (NbCOConstraints r1cs) in
  if start <? 0 then
    (* [i < len(r1cs.Constraints)] holds and [r1cs.Constraints[i]] is out of range *)
    Panic index_out_of_range
  else
    checkLoop r1cs (length (Constraints r1cs) - Z.to_nat start)%nat (Z.to_nat start) st1.

(** [Solve].  A panic of the loops stays a panic whatever the deferred
    [printLogs] then does: the code still runs it, so lines may be printed
    and a panic of [printLogs] replaces the value of the first panic; the
    model keeps the first panic's value and records no output on that
    path.  Whether [Solve] returns or panics is the same. *)
Definition Solve (r1cs : R1CS) (assignment : gmap string Z)
    (a b c wireValues : list Element) : outcome SolveResult :=
  let nbConstraints := int_of_uint64 (NbConstraints r1cs) in
  if negb (Z.of_nat (length a) =? nbConstraints)
     || negb (Z.of_nat (length b) =? nbConstraints)
     || negb (Z.of_nat (length c) =? nbConstraints)
     || negb (Z.of_nat (length wireValues) =? int_of_uint64 (NbWires r1cs))
  then
    Ret {| res_err := Some ErrInvalidInputSize;
           res_buffers := {| buf_a := a; buf_b := b; buf_c := c;
                             buf_wireValues := wireValues;
                             buf_wireInstantiated := [] |};
           res_printed := [] |}
  else
    let wireInstantiated := replicate (Z.to_nat (NbWires r1cs)) false in
    '(err, (wireValues1, wireInstantiated1)) ←
      inputPhase r1cs assignment wireValues wireInstantiated;
    match err with
    | Some e =>
        Ret {| res_err := Some e;
               res_buffers := {| buf_a := a; buf_b := b; buf_c := c;
                                 buf_wireValues := wireValues1;
                                 buf_wireInstantiated := wireInstantiated1 |};
               res_printed := [] |}
    | None =>
        '(err', st) ← solveBody r1cs
           {| buf_a := a; buf_b := b; buf_c := c;
              buf_wireValues := wireValues1;
              buf_wireInstantiated := wireInstantiated1 |};
        printed ← printLogs r1cs (buf_wireValues st) (buf_wireInstantiated st);
        Ret {| res_err := err'; res_buffers := st; res_printed := printed |}
    end.

(** ** IsSolved *)

(** [make([]T, n)] for a [uint64] length [n] and elements of [elemSize]
    bytes.  The runtime panics, with the same message, when the length does
    not fit an [int], and when the size in bytes overflows a word or exceeds
    [maxAlloc], the largest allocation the runtime serves (a constant of the
    platform).  An allocation within these limits for which the machine has
    no memory left ends the process: such runs are outside the model. *)
Definition allocatable (elemSize maxAlloc n : Z) : bool :=
  (0 <=? int_of_uint64 n) && (elemSize * n <? 2 ^ 64) && (elemSize * n <=? maxAlloc).

Definition makeSlice {A} (elemSize maxAlloc n : Z) (zero : A) : outcome (list A) :=
  if allocatable elemSize maxAlloc n then Ret (replicate (Z.to_nat n) zero)
  else Panic "runtime error: makeslice: len out of range".

(** An [fr.Element] is [Limbs] words of 8 bytes. *)
Definition elementSize : Z := 8 * Z.of_nat Limbs.

(** [IsSolved] allocates the vectors [Solve] fills and returns its error;
    the second component is what [Solve] printed. *)
Definition IsSolved (maxAlloc : Z) (r1cs : R1CS) (assignment : gmap string Z)
  : outcome (option error * list string) :=
  a ← makeSlice elementSize maxAlloc (NbConstraints r1cs) fr_zero;
  b ← makeSlice elementSize maxAlloc (NbConstraints r1cs) fr_zero;
  c ← makeSlice elementSize maxAlloc (NbConstraints r1cs) fr_zero;
  wireValues ← makeSlice elementSize maxAlloc (NbWires r1cs) fr_zero;
  res ← Solve r1cs assignment a b c wireValues;
  Ret (res_err res, res_printed res).
End Solver.

(** * Vocabulary of the properties *)

Section Vocabulary.
Context `{Imports}.

(** Entry [k] of the three vectors holds a product and its result. *)
Definition satisfied_at (st : buffers) (k : nat) : Prop :=
  ∃ x y z, buf_a st !! k = Some x ∧ buf_b st !! k = Some y
           ∧ buf_c st !! k = Some z ∧ Mul x y = z.

(** Entry [k] of the three vectors is the same in both states. *)
Definition same_at (st st' : buffers) (k : nat) : Prop :=
  buf_a st' !! k = buf_a st !! k ∧ buf_b st' !! k = buf_b st !! k
  ∧ buf_c st' !! k = buf_c st !! k.

(** Every constraint holds over the wire values [w]: the reading of the
    core contract that evaluates all constraints on one vector. *)
Definition holds_over (r1cs : R1CS) (w : list Element) : Prop :=
  ∀ i r, Constraints r1cs !! i = Some r →
    ∃ x y z, instantiateR1C r r1cs w = Ret (x, y, z) ∧ Mul x y = z.

(** Every wire the terms refer to is marked instantiated. *)
Definition all_instantiated (wireInstantiated : list bool) (ts : list Term) : Prop :=
  Forall (λ t, wireInstantiated !! ConstraintID t = Some true) ts.

(** The wire is left uninstantiated: its bitmap entry is [false]. *)
Definition left_uninstantiated (wireInstantiated : list bool) (cID : nat) : Prop :=
  wireInstantiated !! cID = Some false.

(** Bit [k] of [n], as the 0 or 1 the bit slice stores. *)
Definition bitOf (n : Z) (k : nat) : Z := Z.b2z (Z.testbit n (Z.of_nat k)).

(** The name is given a value by the assignment, or is the constant wire. *)
Definition provided (assignment : gmap string Z) (name : string) : Prop :=
  name = OneWire ∨ is_Some (assignment !! name).

(** The counts agree with the name lists and the inputs fit in the wires. *)
Definition well_formed_inputs (r1cs : R1CS) : Prop :=
  NbSecretWires r1cs = Z.of_nat (length (SecretWires r1cs))
  ∧ NbPublicWires r1cs = Z.of_nat (length (PublicWires r1cs))
  ∧ NbPublicWires r1cs + NbSecretWires r1cs ≤ NbWires r1cs < 2 ^ 63.

(** The caller's vectors have the sizes [Solve] asks for. *)
Definition sized (r1cs : R1CS) (a b c wireValues : list Element) : Prop :=
  NbConstraints r1cs < 2 ^ 63
  ∧ NbWires r1cs < 2 ^ 63
  ∧ Z.of_nat (length a) = NbConstraints r1cs
  ∧ Z.of_nat (length b) = NbConstraints r1cs
  ∧ Z.of_nat (length c) = NbConstraints r1cs
  ∧ Z.of_nat (length wireValues) = NbWires r1cs.

(** The state [checkStep] leaves after evaluating constraint [i] to [x], [y], [z]. *)
Definition recorded (st : buffers) (i : nat) (x y z : Element) : buffers :=
  {| buf_a := <[i:=x]> (buf_a st); buf_b := <[i:=y]> (buf_b st);
     buf_c := <[i:=z]> (buf_c st);
     buf_wireValues := buf_wireValues st;
     buf_wireInstantiated := buf_wireInstantiated st |}.

(** Constraint [k] evaluates over [w] to sides that do, or do not, multiply out. *)
Definition holds_at (r1cs : R1CS) (w : list Element) (k : nat) : Prop :=
  ∃ r x y z, Constraints r1cs !! k = Some r
    ∧ instantiateR1C r r1cs w = Ret (x, y, z) ∧ Mul x y = z.

Definition violated_at (r1cs : R1CS) (w : list Element) (k : nat) : Prop :=
  ∃ r x y z, Constraints r1cs !! k = Some r
    ∧ instantiateR1C r r1cs w = Ret (x, y, z) ∧ Mul x y ≠ z.

(** The diagnostic of constraint [k]: its debug-info entry, resolved. *)
Definition diagnostic (r1cs : R1CS) (w : list Element) (inst : list bool)
    (k : nat) (s : string) : Prop :=
  ∃ entry,
    at_int (DebugInfo r1cs) (Z.of_nat k - int_of_uint64 (NbCOConstraints r1cs))
      = Ret entry
    ∧ logValue entry w inst = Ret s.

(** The terms whose wire is not instantiated. *)
Definition unknownTerms (wireInstantiated : list bool) (ts : list Term) : list Term :=
  filter (λ t, wireInstantiated !! ConstraintID t = Some false) ts.
(** Constraint [j] is settled: its wires are instantiated and the vectors
    hold its three sides as evaluated over the present wire values. *)
Definition settled (r1cs : R1CS) (st : buffers) (j : nat) : Prop :=
  ∃ r x y z, Constraints r1cs !! j = Some r
    ∧ Forall (λ t, buf_wireInstantiated st !! ConstraintID t = Some true)
        (L r ++ R r ++ O r)
    ∧ instantiateR1C r r1cs (buf_wireValues st) = Ret (x, y, z)
    ∧ buf_a st !! j = Some x ∧ buf_b st !! j = Some y ∧ buf_c st !! j = Some z.

(** The four sizes [Solve] compares first. *)
Definition sizes_match (r1cs : R1CS) (a b c wireValues : list Element) : Prop :=
  Z.of_nat (length a) = int_of_uint64 (NbConstraints r1cs)
  ∧ Z.of_nat (length b) = int_of_uint64 (NbConstraints r1cs)
  ∧ Z.of_nat (length c) = int_of_uint64 (NbConstraints r1cs)
  ∧ Z.of_nat (length wireValues) = int_of_uint64 (NbWires r1cs).

(** The coefficient a term stands for, as an integer: one of the four
    well-known constants by its mark, or its entry of the table. *)
Definition coeffZ (r1cs : R1CS) (t : Term) : outcome Z :=
  if CoeffValue t =? 1 then Ret 1
  else if CoeffValue t =? -1 then Ret (-1)
  else if CoeffValue t =? 0 then Ret 0
  else if CoeffValue t =? 2 then Ret 2
  else at_index (Coefficients r1cs) (CoeffID t).

(** The integer product of a term's coefficient and its wire's value. *)
Definition termValue (r1cs : R1CS) (w : list Element) (t : Term) : outcome Z :=
  v ← at_index w (ConstraintID t);
  k ← coeffZ r1cs t;
  Ret (k * v).

(** The linear combination as an integer sum, before any reduction. *)
Fixpoint linearSum (r1cs : R1CS) (w : list Element) (ts : list Term) : outcome Z :=
  match ts with
  | [] => Ret 0
  | t :: ts' =>
      x ← termValue r1cs w t;
      s ← linearSum r1cs w ts';
      Ret (x + s)
  end.

(** A residue in the form the field operations return it. *)
Definition reduced (x : Element) : Prop := x mod modulus = x.


(** The term can be evaluated over [w]: its wire is one of [w], and its
    coefficient is one of the four well-known ones or an entry of the
    table. *)
Definition term_in_range (r1cs : R1CS) (w : list Element) (t : Term) : Prop :=
  (ConstraintID t < length w)%nat
  ∧ (CoeffValue t = 1 ∨ CoeffValue t = -1 ∨ CoeffValue t = 0 ∨ CoeffValue t = 2
     ∨ (CoeffID t < length (Coefficients r1cs))%nat).
(** A binary decomposition that computes: the wires it reads, those of [R]
    and [O], are instantiated, and the wires it writes, those of [L], are
    not yet. *)
Definition decomposes_fresh (wireInstantiated : list bool) (r : R1C) : Prop :=
  all_instantiated wireInstantiated (R r ++ O r)
  ∧ Forall (λ t, wireInstantiated !! ConstraintID t = Some false) (L r).
End Vocabulary.

(** ** An instance: the scalar field of BN256 *)

(** [fmt.Sprintf] on the formats the sample systems use: string operands
    under plain [%s] (or [%v]) verbs, as many operands as verbs.  Every verb
    takes the next operand; [%%], flags, widths, other verbs and surplus
    operands are not rendered as [fmt] renders them.  The properties are
    stated over the abstract [Sprintf]; this instance only serves the
    sample systems. *)
Fixpoint sprintf (format : string) (args : list string) : string :=
  match format with
  | EmptyString => EmptyString
  | String.String c rest =>
      if Ascii.eqb c "%"%char then
        match rest with
        | EmptyString => "%!(NOVERB)"
        | String.String _ rest' =>
            match args with
            | [] => "%!s(MISSING)" +:+ sprintf rest' []
            | x :: args' => x +:+ sprintf rest' args'
            end
        end
      else String.String c (sprintf rest args)
  end.

#[local] Instance bn256 : Imports := {|
  modulus := 21888242871839275222246405745257275088548364400416034343698204186575808495617;
  Limbs := 4;
  OneWire := "ONE_WIRE";
  Sprintf := sprintf;
|}.

(** ** Sample constraint systems *)

Definition term (wire coeffID : nat) (coeffValue : Z) : Term :=
  {| ConstraintID := wire; CoeffID := coeffID; CoeffValue := coeffValue |}.

(** Wire 0 is internal, wire 1 is the constant one.  The first constraint
    computes wire 0 from [w0 * 1 = 1]; the second decomposes the empty sum
    over one bit and writes that bit to wire 0 again. *)
Definition overwriting_r1cs : R1CS := {|
  NbWires := 2; NbPublicWires := 1; NbSecretWires := 0;
  SecretWires := []; PublicWires := ["ONE_WIRE"];
  Logs := []; DebugInfo := [];
  NbConstraints := 2; NbCOConstraints := 2;
  Constraints :=
    [ {| L := [term 0 0 1]; R := [term 1 0 1]; O := [term 1 0 1];
         Solver := SingleOutput |};
      {| L := [term 0 0 1]; R := [term 1 0 1]; O := [];
         Solver := BinaryDec |} ];
  Coefficients := [1];
|}.

Definition overwriting_result : SolveResult := {|
  res_err := None;
  res_buffers := {| buf_a := [1; 0]; buf_b := [1; 1]; buf_c := [1; 0];
                    buf_wireValues := [0; 1];
                    buf_wireInstantiated := [true; true] |};
  res_printed := [];
|}.

(** The single-output constraint [wireA * wireB = wireC] with wire 0 ([wireA])
    to compute, wire 1 ([wireB]) and wire 2 ([wireC]) known. *)
Definition product_r1c : R1C :=
  {| L := [term 0 0 1]; R := [term 1 0 1]; O := [term 2 0 1];
     Solver := SingleOutput |}.

Definition product_r1cs : R1CS := {|
  NbWires := 3; NbPublicWires := 0; NbSecretWires := 2;
  SecretWires := ["B"; "C"]; PublicWires := [];
  Logs := []; DebugInfo := [];
  NbConstraints := 1; NbCOConstraints := 1;
  Constraints := [product_r1c];
  Coefficients := [];
|}.

(** Wire 0 is internal, wires 1 and 2 are the secret inputs [B] and [C],
    wire 3 is the constant one.  The only constraint, [(2 * w0) * 1 = C],
    has wire 0 to compute, under coefficient 2. *)
Definition doubled_r1c : R1C :=
  {| L := [term 0 0 2]; R := [term 3 0 1]; O := [term 2 0 1];
     Solver := SingleOutput |}.

Definition doubled_r1cs : R1CS := {|
  NbWires := 4; NbPublicWires := 1; NbSecretWires := 2;
  SecretWires := ["B"; "C"]; PublicWires := ["ONE_WIRE"];
  Logs := []; DebugInfo := [];
  NbConstraints := 1; NbCOConstraints := 1;
  Constraints := [doubled_r1c];
  Coefficients := [];
|}.

Definition doubled_assignment : gmap string Z := <["B" := 1]> (<["C" := 6]> ∅).

(** The mark [CoeffValue] returns for a coefficient that is none of the
    four well-known ones. *)
Definition notSpecial : Z := 2 ^ 63 - 1.

(** Wires 0 to 3 receive the bits of wire 4, the secret input [X]; wire 5
    is the constant one.  The coefficient table holds 1, 2, 4, 8. *)
Definition bits_r1c : R1C :=
  {| L := [term 0 0 1; term 1 1 2; term 2 2 notSpecial; term 3 3 notSpecial];
     R := [term 5 0 1]; O := [term 4 0 1];
     Solver := BinaryDec |}.

Definition bits_r1cs : R1CS := {|
  NbWires := 6; NbPublicWires := 1; NbSecretWires := 1;
  SecretWires := ["X"]; PublicWires := ["ONE_WIRE"];
  Logs := []; DebugInfo := [];
  NbConstraints := 1; NbCOConstraints := 1;
  Constraints := [bits_r1c];
  Coefficients := [1; 2; 4; 8];
|}.

(** A binary decomposition over 257 terms, one more than the 256 bits of
    an element of four words. *)
Definition wide_r1c : R1C :=
  {| L := replicate 257 (term 0 0 1); R := []; O := []; Solver := BinaryDec |}.

(** The circuit [noComputationCircuit]: public [A], secret [B], and the one
    assertion [A * 1 = B].  Wire 0 is [B], wire 1 the constant one, wire 2
    is [A]. *)
Definition assert_equal_r1c : R1C :=
  {| L := [term 2 0 1]; R := [term 1 0 1]; O := [term 0 0 1];
     Solver := SingleOutput |}.

Definition assert_equal_r1cs : R1CS := {|
  NbWires := 3; NbPublicWires := 2; NbSecretWires := 1;
  SecretWires := ["B"]; PublicWires := ["ONE_WIRE"; "A"];
  Logs := [];
  DebugInfo := [ {| Format := "%s == %s"; ToResolve := [2; 0] |} ];
  NbConstraints := 1; NbCOConstraints := 0;
  Constraints := [assert_equal_r1c];
  Coefficients := [];
|}.

Definition good_assignment : gmap string Z := <["A" := 42]> (<["B" := 42]> ∅).
Definition bad_assignment : gmap string Z := <["A" := 42]> (<["B" := 43]> ∅).

(** The buffers [Solve] works on after the input phase of
    [assert_equal_r1cs] under [bad_assignment]. *)
Definition bad_buffers : buffers :=
  {| buf_a := [0]; buf_b := [0]; buf_c := [0];
     buf_wireValues := [43; 1; 42];
     buf_wireInstantiated := [true; true; true] |}.

(** The buffers after the input phase of [doubled_r1cs]. *)
Definition doubled_buffers : buffers :=
  {| buf_a := [0]; buf_b := [0]; buf_c := [0];
     buf_wireValues := [0; 1; 6; 1];
     buf_wireInstantiated := [false; true; true; true] |}.

Definition product_assignment : gmap string Z := <["B" := 2]> (<["C" := 6]> ∅).

Definition product_result : SolveResult := {|
  res_err := None;
  res_buffers := {| buf_a := [3]; buf_b := [2]; buf_c := [6];
                    buf_wireValues := [3; 2; 6];
                    buf_wireInstantiated := [true; true; true] |};
  res_printed := [];
|}.

(** The single-output constraint [w1 * w2 = w0] with the product, wire 0,
    to compute. *)
Definition output_r1c : R1C :=
  {| L := [term 1 0 1]; R := [term 2 0 1]; O := [term 0 0 1];
     Solver := SingleOutput |}.

(** [bits_r1c] with the first two terms of [L] in the other order. *)
Definition swapped_bits_r1c : R1C :=
  {| L := [term 1 1 2; term 0 0 1; term 2 2 notSpecial; term 3 3 notSpecial];
     R := [term 5 0 1]; O := [term 4 0 1];
     Solver := BinaryDec |}.

(** [product_r1cs] with one log entry, which prints the computed wire. *)
Definition logged_r1cs : R1CS := {|
  NbWires := 3; NbPublicWires := 0; NbSecretWires := 2;
  SecretWires := ["B"; "C"]; PublicWires := [];
  Logs := [ {| Format := "a = %s"; ToResolve := [0] |} ]; DebugInfo := [];
  NbConstraints := 1; NbCOConstraints := 1;
  Constraints := [product_r1c];
  Coefficients := [];
|}.

Definition logged_result : SolveResult := {|
  res_err := None;
  res_buffers := {| buf_a := [3]; buf_b := [2]; buf_c := [6];
                    buf_wireValues := [3; 2; 6];
                    buf_wireInstantiated := [true; true; true] |};
  res_printed := ["a = 3"];
|}.

(** What [Solve] returns on [assert_equal_r1cs] under [good_assignment]. *)
Definition good_result : SolveResult := {|
  res_err := None;
  res_buffers := {| buf_a := [42]; buf_b := [1]; buf_c := [42];
                    buf_wireValues := [42; 1; 42];
                    buf_wireInstantiated := [true; true; true] |};
  res_printed := [];
|}.

Definition bits_assignment : gmap string Z := <["X" := 13]> ∅.

Definition bits_result : SolveResult := {|
  res_err := None;
  res_buffers := {| buf_a := [13]; buf_b := [1]; buf_c := [13];
                    buf_wireValues := [1; 0; 1; 1; 13; 1];
                    buf_wireInstantiated := [true; true; true; true; true; true] |};
  res_printed := [];
|}.

(** Wires 0 and 1 are internal, wire 2 is the constant one.  The first
    constraint decomposes wire 1 over one bit, wire 0, before wire 1 has a
    value; the second computes wire 1 from [w1 * 1 = 1]. *)
Definition early_read_r1cs : R1CS := {|
  NbWires := 3; NbPublicWires := 1; NbSecretWires := 0;
  SecretWires := []; PublicWires := ["ONE_WIRE"];
  Logs := []; DebugInfo := [];
  NbConstraints := 2; NbCOConstraints := 2;
  Constraints :=
    [ {| L := [term 0 0 1]; R := [term 2 0 1]; O := [term 1 0 1];
         Solver := BinaryDec |};
      {| L := [term 1 0 1]; R := [term 2 0 1]; O := [term 2 0 1];
         Solver := SingleOutput |} ];
  Coefficients := [1];
|}.

Definition early_read_result : SolveResult := {|
  res_err := None;
  res_buffers := {| buf_a := [0; 1]; buf_b := [1; 1]; buf_c := [0; 1];
                    buf_wireValues := [0; 1; 1];
                    buf_wireInstantiated := [true; true; true] |};
  res_printed := [];
|}.

(** * Properties *)

(** ** Reasoning about [outcome] *)

Lemma bind_Ret {A B} (m : outcome A) (f : A → outcome B) (y : B) :
  m ≫= f = Ret y → ∃ x, m = Ret x ∧ f x = Ret y.
Proof. destruct m as [x|msg]; simpl; [eauto | discriminate]. Qed.

Lemma bind_Panic_l {A B} (f : A → outcome B) (msg : string) :
  Panic msg ≫= f = Panic msg.
Proof. reflexivity. Qed.

Lemma bind_Ret_l {A B} (f : A → outcome B) (x : A) : Ret x ≫= f = f x.
Proof. reflexivity. Qed.

(** Splits a hypothesis [x ← m; k = Ret y] into [m = Ret x] and [k = Ret y]. *)
Ltac bind_inv H :=
  let x := fresh "x" in
  let E := fresh "E" in
  apply bind_Ret in H; destruct H as (x & E & H); simpl in H.

Lemma at_index_Ret {A} (l : list A) (i : nat) (x : A) :
  at_index l i = Ret x ↔ l !! i = Some x.
Proof. unfold at_index. destruct (l !! i); split; congruence. Qed.

Lemma set_index_Ret {A} (l l' : list A) (i : nat) (x : A) :
  set_index l i x = Ret l' ↔ (i < length l)%nat ∧ l' = <[i:=x]> l.
Proof.
  unfold set_index. case_bool_decide; split.
  - intros [= <-]. auto.
  - intros [_ ->]. reflexivity.
  - discriminate.
  - intros [? _]. lia.
Qed.

Lemma set_index_lt {A} (l : list A) (i : nat) (x : A) :
  (i < length l)%nat → set_index l i x = Ret (<[i:=x]> l).
Proof. intros. by apply set_index_Ret. Qed.

Lemma at_index_insert {A} (l : list A) (i : nat) (x : A) :
  (i < length l)%nat → at_index (<[i:=x]> l) i = Ret x.
Proof. intros. apply at_index_Ret. by apply list_lookup_insert_eq. Qed.

Section Properties.
Context `{Imports}.

(** ** The vectors [a], [b], [c] *)

Lemma same_at_satisfied st st' k :
  same_at st st' k → satisfied_at st k → satisfied_at st' k.
Proof.
  intros (Ha & Hb & Hc) (x & y & z & ? & ? & ? & ?).
  exists x, y, z. rewrite Ha, Hb, Hc. auto.
Qed.

Lemma solveStep_spec r1cs i st st' :
  solveStep r1cs i st = Ret st' →
  satisfied_at st' i ∧ ∀ k, k ≠ i → same_at st st' k.
Proof.
  unfold solveStep. intros Hs.
  bind_inv Hs. bind_inv Hs. destruct x0 as [inst' w'].
  bind_inv Hs. destruct x0 as [[ai bi] ci].
  bind_inv Hs. bind_inv Hs. bind_inv Hs.
  apply set_index_Ret in E2 as [? ->], E3 as [? ->], E4 as [? ->].
  destruct (Equal (Mul ai bi) ci) eqn:Heq; simpl in Hs; [|discriminate].
  injection Hs as <-. apply Z.eqb_eq in Heq. split.
  - exists ai, bi, ci. simpl. rewrite !list_lookup_insert_eq by done. auto.
  - intros k Hk. unfold same_at. simpl.
    rewrite !list_lookup_insert_ne by done. auto.
Qed.

Lemma solveLoop_spec r1cs count : ∀ i st st',
  solveLoop r1cs count i st = Ret st' →
  (∀ k, (i ≤ k < i + count)%nat → satisfied_at st' k)
  ∧ (∀ k, (k < i ∨ i + count ≤ k)%nat → same_at st st' k).
Proof.
  induction count as [|count IH]; intros i st st' Hl; simpl in Hl.
  - injection Hl as <-. split; [lia | by intros]. 
  - bind_inv Hl. apply solveStep_spec in E as [Hi Hne].
    apply IH in Hl as [Hin Hout]. split.
    + intros k Hk. destruct (decide (k = i)) as [->|].
      * apply (same_at_satisfied x); [apply Hout; lia | done].
      * apply Hin. lia.
    + intros k Hk. destruct (Hout k) as (? & ? & ?); [lia|].
      destruct (Hne k) as (? & ? & ?); [lia|].
      unfold same_at. split_and!; congruence.
Qed.

Lemma checkStep_spec r1cs i st err st' :
  checkStep r1cs i st = Ret (err, st') →
  buf_wireValues st' = buf_wireValues st
  ∧ buf_wireInstantiated st' = buf_wireInstantiated st
  ∧ (∀ k, k ≠ i → same_at st st' k)
  ∧ ∃ r x y z, Constraints r1cs !! i = Some r
      ∧ instantiateR1C r r1cs (buf_wireValues st) = Ret (x, y, z)
      ∧ buf_a st' !! i = Some x ∧ buf_b st' !! i = Some y
      ∧ buf_c st' !! i = Some z
      ∧ (err = None → Mul x y = z).
Proof.
  unfold checkStep. intros Hs.
  bind_inv Hs. bind_inv Hs. destruct x0 as [[ai bi] ci].
  bind_inv Hs. bind_inv Hs. bind_inv Hs.
  apply at_index_Ret in E.
  apply set_index_Ret in E1 as [? ->], E2 as [? ->], E3 as [? ->].
  assert (Hst : st' = {| buf_a := <[i:=ai]> (buf_a st);
                         buf_b := <[i:=bi]> (buf_b st);
                         buf_c := <[i:=ci]> (buf_c st);
                         buf_wireValues := buf_wireValues st;
                         buf_wireInstantiated := buf_wireInstantiated st |}).
  { destruct (Equal (Mul ai bi) ci); simpl in Hs.
    - by injection Hs as _ <-.
    - bind_inv Hs. bind_inv Hs. by injection Hs as _ <-. }
  subst st'. simpl. split_and!; try done.
  - intros k Hk. unfold same_at. simpl.
    rewrite !list_lookup_insert_ne by done. auto.
  - exists x, ai, bi, ci. rewrite !list_lookup_insert_eq by done.
    split_and!; try done. intros ->.
    destruct (Equal (Mul ai bi) ci) eqn:Heq; simpl in Hs.
    + by apply Z.eqb_eq in Heq.
    + bind_inv Hs. bind_inv Hs. discriminate.
Qed.

Lemma checkLoop_spec r1cs count : ∀ i st st',
  checkLoop r1cs count i st = Ret (None, st') →
  buf_wireValues st' = buf_wireValues st
  ∧ (∀ k, (k < i ∨ i + count ≤ k)%nat → same_at st st' k)
  ∧ (∀ k, (i ≤ k < i + count)%nat →
       ∃ r x y z, Constraints r1cs !! k = Some r
         ∧ instantiateR1C r r1cs (buf_wireValues st') = Ret (x, y, z)
         ∧ buf_a st' !! k = Some x ∧ buf_b st' !! k = Some y
         ∧ buf_c st' !! k = Some z ∧ Mul x y = z).
Proof.
  induction count as [|count IH]; intros i st st' Hl; simpl in Hl.
  - injection Hl as <-. split_and!; [done | by intros | lia].
  - bind_inv Hl. destruct x as [err st1]. destruct err; [discriminate|].
    apply checkStep_spec in E as (Hw & _ & Hne & r & x & y & z & Hr & Hi & Ha & Hb & Hc & Hm).
    apply IH in Hl as (Hw' & Hout & Hin). split_and!.
    + congruence.
    + intros k Hk. destruct (Hout k) as (? & ? & ?); [lia|].
      destruct (Hne k) as (? & ? & ?); [lia|].
      unfold same_at. split_and!; congruence.
    + intros k Hk. destruct (decide (k = i)) as [->|]; [|apply Hin; lia].
      destruct (Hout i) as (Ha' & Hb' & Hc'); [lia|].
      exists r, x, y, z. rewrite Ha', Hb', Hc', Hw', Hw.
      split_and!; auto.
Qed.

(** What a [Solve] that returns [nil] went through. *)
Lemma Solve_nil_inv r1cs assignment a b c wireValues res :
  Solve r1cs assignment a b c wireValues = Ret res →
  res_err res = None →
  let nbCO := int_of_uint64 (NbCOConstraints r1cs) in
  ∃ w1 inst1 st1,
    0 ≤ nbCO
    ∧ solveLoop r1cs (Z.to_nat nbCO) 0
        {| buf_a := a; buf_b := b; buf_c := c;
           buf_wireValues := w1; buf_wireInstantiated := inst1 |} = Ret st1
    ∧ checkLoop r1cs (length (Constraints r1cs) - Z.to_nat nbCO) (Z.to_nat nbCO) st1
      = Ret (None, res_buffers res).
Proof.
  intros HS Herr nbCO. unfold Solve in HS.
  destruct (_ || _); [injection HS as <-; discriminate|].
  bind_inv HS. destruct x as [err [w1 inst1]].
  destruct err as [e|]; [injection HS as <-; discriminate|].
  bind_inv HS. destruct x as [err' st]. bind_inv HS.
  injection HS as <-. simpl in *. subst err'.
  unfold solveBody in E0. bind_inv E0. fold nbCO in E0, E2.
  destruct (Z.ltb_spec nbCO 0); [discriminate|].
  exists w1, inst1, x0. done.
Qed.

(** The returned vectors hold products, and past the computational prefix
    they are the sides evaluated over the final wire values. *)
Lemma Solve_nil_returned r1cs assignment a b c wireValues res :
  Solve r1cs assignment a b c wireValues = Ret res →
  res_err res = None →
  ∀ i r, Constraints r1cs !! i = Some r →
    ∃ x y z,
      buf_a (res_buffers res) !! i = Some x
      ∧ buf_b (res_buffers res) !! i = Some y
      ∧ buf_c (res_buffers res) !! i = Some z
      ∧ Mul x y = z
      ∧ ((Z.to_nat (int_of_uint64 (NbCOConstraints r1cs)) ≤ i)%nat →
         instantiateR1C r r1cs (buf_wireValues (res_buffers res)) = Ret (x, y, z)).
Proof.
  intros HS Herr i r Hr.
  destruct (Solve_nil_inv _ _ _ _ _ _ _ HS Herr) as (w1 & inst1 & st1 & Hpos & Hloop & Hcheck).
  apply solveLoop_spec in Hloop as [Hin _].
  apply checkLoop_spec in Hcheck as (Hw & Hout & Hin').
  apply lookup_lt_Some in Hr as Hlt.
  destruct (decide (i < Z.to_nat (int_of_uint64 (NbCOConstraints r1cs)))%nat) as [Hi|Hi].
  - destruct (same_at_satisfied st1 (res_buffers res) i) as (va & vb & vc & ? & ? & ? & ?).
    { apply Hout. lia. }
    { apply Hin. lia. }
    exists va, vb, vc. split_and!; auto. lia.
  - destruct (Hin' i) as (r' & va & vb & vc & Hr' & ? & ? & ? & ? & ?); [lia|].
    assert (r' = r) as -> by congruence.
    exists va, vb, vc. split_and!; auto.
Qed.

(** ** The single-output strategy *)

Lemma sumTerms_app r1cs w ts1 ts2 acc :
  sumTerms r1cs w (ts1 ++ ts2) acc
  = sumTerms r1cs w ts1 acc ≫= sumTerms r1cs w ts2.
Proof.
  revert acc. induction ts1 as [|t ts1 IH]; intros acc; simpl; [done|].
  destruct (at_index w (ConstraintID t)); simpl; [|done].
  destruct (AddTerm r1cs acc t x); simpl; [apply IH | done].
Qed.

Lemma processTerms_app r1cs inst w ts1 ts2 locValue f val :
  processTerms r1cs inst w (ts1 ++ ts2) locValue f val
  = processTerms r1cs inst w ts1 locValue f val
      ≫= λ '(f', val'), processTerms r1cs inst w ts2 locValue f' val'.
Proof.
  revert f val. induction ts1 as [|t ts1 IH]; intros f val; simpl; [done|].
  destruct (processTerm r1cs inst w f t val locValue) as [[f' val']|]; simpl;
    [apply IH | done].
Qed.

Lemma processTerm_instantiated r1cs inst w f t val locValue :
  inst !! ConstraintID t = Some true →
  processTerm r1cs inst w f t val locValue
  = value ← at_index w (ConstraintID t);
    val' ← AddTerm r1cs val t value;
    Ret (f, val').
Proof. intros Ht%at_index_Ret. unfold processTerm. cbv zeta. by rewrite Ht. Qed.

Lemma processTerm_unknown r1cs inst w f t val locValue :
  inst !! ConstraintID t = Some false → loc f = 0 →
  processTerm r1cs inst w f t val locValue
  = Ret ({| loc := locValue; termToCompute := t |}, val).
Proof.
  intros Ht%at_index_Ret Hloc. unfold processTerm. cbv zeta.
  by rewrite Ht, Hloc.
Qed.

(** On instantiated wires [processTerm] only accumulates. *)
Lemma processTerms_instantiated r1cs inst w ts locValue f : ∀ val v,
  all_instantiated inst ts →
  sumTerms r1cs w ts val = Ret v →
  processTerms r1cs inst w ts locValue f val = Ret (f, v).
Proof.
  induction ts as [|t ts IH]; intros val v Hall Hsum; simpl in *.
  - congruence.
  - apply Forall_cons in Hall as [Ht Hall].
    bind_inv Hsum. bind_inv Hsum.
    rewrite processTerm_instantiated, E by done. simpl.
    rewrite E0. simpl. by apply IH.
Qed.

(** One uninstantiated wire among the terms of a side, none found before:
    it becomes the term to compute and the other terms are summed. *)
Lemma processTerms_one_unknown r1cs inst w ts1 t ts2 locValue f val v :
  loc f = 0 →
  all_instantiated inst ts1 → all_instantiated inst ts2 →
  inst !! ConstraintID t = Some false →
  sumTerms r1cs w (ts1 ++ ts2) val = Ret v →
  processTerms r1cs inst w (ts1 ++ t :: ts2) locValue f val
  = Ret ({| loc := locValue; termToCompute := t |}, v).
Proof.
  intros Hloc H1 H2 Ht Hsum.
  rewrite sumTerms_app in Hsum. bind_inv Hsum.
  rewrite processTerms_app, (processTerms_instantiated _ _ _ _ _ _ _ x) by done.
  simpl. rewrite processTerm_unknown by done. simpl.
  by apply processTerms_instantiated.
Qed.

(** What [solveR1C] does on a single-output constraint whose one
    uninstantiated wire is in [L]. *)
Lemma solveR1C_unknown_in_L r1cs r inst w ts1 t ts2 a b c :
  Solver r = SingleOutput →
  L r = ts1 ++ t :: ts2 →
  all_instantiated inst ts1 → all_instantiated inst ts2 →
  all_instantiated inst (R r) → all_instantiated inst (O r) →
  inst !! ConstraintID t = Some false →
  sumTerms r1cs w (ts1 ++ ts2) fr_zero = Ret a →
  sumTerms r1cs w (R r) fr_zero = Ret b →
  sumTerms r1cs w (O r) fr_zero = Ret c →
  (ConstraintID t < length w)%nat →
  solveR1C r1cs r inst w
  = if IsZero b then Ret (<[ConstraintID t := true]> inst, w)
    else
      x ← mulWireByCoeff r1cs (Sub (Div c b) a) t;
      Ret (<[ConstraintID t := true]> inst, <[ConstraintID t := x]> w).
Proof.
  intros HS HL H1 H2 HR HO Ht Ha Hb Hc Hlen.
  unfold solveR1C, solveSingleOutput. rewrite HS, HL.
  rewrite (processTerms_one_unknown _ _ _ _ _ _ _ _ _ a) by done. simpl.
  rewrite (processTerms_instantiated _ _ _ _ _ _ _ b) by done. simpl.
  rewrite (processTerms_instantiated _ _ _ _ _ _ _ c) by done. simpl.
  apply lookup_lt_Some in Ht as Hlt.
  rewrite (set_index_lt inst) by done.
  destruct (IsZero b); cbn [negb]; [done|].
  rewrite (set_index_lt w) by done. simpl.
  rewrite at_index_insert by done. simpl.
  rewrite set_index_lt by (by rewrite length_insert). simpl.
  rewrite at_index_insert by (by rewrite length_insert). simpl.
  destruct (mulWireByCoeff r1cs (Sub (Div c b) a) t); simpl; [|done].
  rewrite set_index_lt by (by rewrite !length_insert). simpl.
  by rewrite !list_insert_insert_eq.
Qed.

(** C2, as the code has it: for a single-output constraint whose one
    uninstantiated wire is in [L], if the [R] side evaluates to zero then
    [solveR1C] returns with the wire values unchanged (the wire is not
    computed by this constraint) and with the wire's entry of the
    instantiation bitmap set to [true]. *)
Theorem solveR1C_zero_R_marks_wire r1cs r inst w ts1 t ts2 a c :
  Solver r = SingleOutput →
  L r = ts1 ++ t :: ts2 →
  all_instantiated inst ts1 → all_instantiated inst ts2 →
  all_instantiated inst (R r) → all_instantiated inst (O r) →
  inst !! ConstraintID t = Some false →
  sumTerms r1cs w (ts1 ++ ts2) fr_zero = Ret a →
  sumTerms r1cs w (R r) fr_zero = Ret 0 →
  sumTerms r1cs w (O r) fr_zero = Ret c →
  ∃ inst',
    solveR1C r1cs r inst w = Ret (inst', w)
    ∧ inst' !! ConstraintID t = Some true
    ∧ ∀ k, k ≠ ConstraintID t → inst' !! k = inst !! k.
Proof.
  intros HS HL H1 H2 HR HO Ht Ha Hb Hc.
  exists (<[ConstraintID t := true]> inst).
  apply lookup_lt_Some in Ht as Hlt. split_and!.
  - unfold solveR1C, solveSingleOutput. rewrite HS, HL.
    rewrite (processTerms_one_unknown _ _ _ _ _ _ _ _ _ a) by done. simpl.
    rewrite (processTerms_instantiated _ _ _ _ _ _ _ 0) by done. simpl.
    rewrite (processTerms_instantiated _ _ _ _ _ _ _ c) by done. simpl.
    by rewrite set_index_lt.
  - by apply list_lookup_insert_eq.
  - intros k Hk. by apply list_lookup_insert_ne.
Qed.

(** ** The binary decomposition *)

Lemma limb_bit n i j :
  (j < 64)%nat →
  Z.land (Z.shiftr (Z.land (Z.shiftr n (64 * Z.of_nat i)) (Z.ones 64)) (Z.of_nat j)) 1
  = bitOf n (i * 64 + j).
Proof.
  intros Hj. unfold bitOf.
  change 1 with (Z.ones 1). rewrite Z.land_ones, Z.pow_1_r by lia.
  rewrite <- Z.bit0_mod. f_equal.
  rewrite Z.shiftr_spec, Z.land_spec, Z.shiftr_spec by lia.
  rewrite Z.ones_spec_low, andb_true_r by lia.
  f_equal. lia.
Qed.

Lemma bitsInner_spec n lenL i :
  (i < Limbs)%nat →
  ∀ fuel j bs, (j + fuel = 64)%nat → length bs = lenL →
    ∃ bs', bitsInner fuel n lenL i j bs = Ret bs'
      ∧ length bs' = lenL
      ∧ ∀ k, bs' !! k
             = if bool_decide (i * 64 + j ≤ k < i * 64 + 64 ∧ k < lenL)%nat
               then Some (bitOf n k) else bs !! k.
Proof.
  intros Hi. induction fuel as [|fuel IH]; intros j bs Hj Hlen; simpl.
  - exists bs. split_and!; [done..|]. intros k.
    rewrite bool_decide_eq_false_2; [done | lia].
  - rewrite (bool_decide_eq_true_2 (j < 64)%nat) by lia. simpl.
    case_bool_decide as Hlt.
    + unfold limb. rewrite bool_decide_eq_true_2 by done. simpl.
      rewrite set_index_lt by lia. simpl. rewrite limb_bit by lia.
      destruct (IH (S j) (<[(i * 64 + j)%nat := bitOf n (i * 64 + j)]> bs))
        as (bs' & -> & Hlen' & Hk); [lia | by rewrite length_insert |].
      exists bs'. split_and!; [done..|]. intros k. rewrite Hk.
      destruct (decide (k = i * 64 + j)%nat) as [->|Hne].
      * rewrite bool_decide_eq_false_2 by lia.
        rewrite bool_decide_eq_true_2 by lia.
        apply list_lookup_insert_eq. lia.
      * rewrite list_lookup_insert_ne by done.
        repeat case_bool_decide; try done; lia.
    + exists bs. split_and!; [done..|]. intros k.
      rewrite bool_decide_eq_false_2; [done | lia].
Qed.

Lemma bitsOuter_spec n lenL :
  (lenL ≤ 64 * Limbs)%nat →
  ∀ fuel i bs, (lenL ≤ (i + fuel) * 64)%nat → length bs = lenL →
    ∃ bs', bitsOuter fuel n lenL lenL i bs = Ret bs'
      ∧ length bs' = lenL
      ∧ ∀ k, bs' !! k
             = if bool_decide (i * 64 ≤ k < lenL)%nat
               then Some (bitOf n k) else bs !! k.
Proof.
  intros Hfit. induction fuel as [|fuel IH]; intros i bs Hfuel Hlen; cbn [bitsOuter].
  - exists bs. split_and!; [done..|]. intros k.
    rewrite bool_decide_eq_false_2; [done | lia].
  - case_bool_decide as Hlt.
    + destruct (bitsInner_spec n lenL i ltac:(lia) 64%nat 0%nat bs)
        as (bs1 & -> & Hlen1 & Hk1); [lia | done |]. simpl.
      destruct (IH (S i) bs1) as (bs' & -> & Hlen' & Hk); [lia | done |].
      exists bs'. split_and!; [done..|]. intros k. rewrite Hk, Hk1.
      repeat case_bool_decide; try done; lia.
    + exists bs. split_and!; [done..|]. intros k.
      rewrite bool_decide_eq_false_2; [done | lia].
Qed.

Lemma bitsOuter_panic n lenL :
  (64 * Limbs < lenL)%nat →
  ∀ fuel i bs, (i ≤ Limbs)%nat → (lenL ≤ (i + fuel) * 64)%nat →
    length bs = lenL →
    bitsOuter fuel n lenL lenL i bs = Panic index_out_of_range.
Proof.
  intros Hbig. induction fuel as [|fuel IH]; intros i bs Hi Hfuel Hlen; cbn [bitsOuter].
  - lia.
  - rewrite bool_decide_eq_true_2 by lia.
    destruct (decide (i < Limbs)%nat) as [Hlt|Hge].
    + destruct (bitsInner_spec n lenL i Hlt 64%nat 0%nat bs)
        as (bs1 & -> & Hlen1 & _); [lia | done |]. simpl.
      apply IH; [lia | lia | done].
    + cbn [bitsInner].
      assert (Hin : (i * 64 + 0 < lenL)%nat) by lia.
      rewrite (bool_decide_eq_true_2 (0 < 64)%nat) by lia.
      rewrite (bool_decide_eq_true_2 _ Hin).
      unfold limb. by rewrite (bool_decide_eq_false_2 _ Hge).
Qed.

(** The fuel of the two loops is never what stops them: more fuel gives
    the same result. *)
Lemma bitsInner_fuel n lenL i extra : ∀ fuel j bs,
  (64 ≤ j + fuel)%nat →
  bitsInner (fuel + extra) n lenL i j bs = bitsInner fuel n lenL i j bs.
Proof.
  induction fuel as [|fuel IH]; intros j bs Hfuel.
  - destruct extra as [|extra]; [done|]. cbn [Nat.add bitsInner].
    by rewrite (bool_decide_eq_false_2 (j < 64)%nat) by lia.
  - cbn [Nat.add bitsInner].
    destruct (bool_decide (j < 64)%nat && bool_decide (i * 64 + j < lenL)%nat); [|done].
    destruct (limb n i); simpl; [|done].
    destruct (set_index bs _ _); simpl; [|done]. apply IH. lia.
Qed.

Lemma bitsOuter_fuel n lenL extra : ∀ fuel i bs,
  (lenL ≤ (i + fuel) * 64)%nat →
  bitsOuter (fuel + extra) n lenL lenL i bs = bitsOuter fuel n lenL lenL i bs.
Proof.
  induction fuel as [|fuel IH]; intros i bs Hfuel.
  - destruct extra as [|extra]; [done|]. cbn [Nat.add bitsOuter].
    by rewrite bool_decide_eq_false_2 by lia.
  - cbn [Nat.add bitsOuter]. case_bool_decide; [|done].
    destruct (bitsInner 64 n lenL i 0 bs); simpl; [|done]. apply IH. lia.
Qed.

(** The bit slice holds the low bits of [n] when the element has enough
    words, and the extraction panics otherwise. *)
Lemma binaryDecomposition_spec n lenL :
  ((lenL ≤ 64 * Limbs)%nat →
     ∃ bits, binaryDecomposition n lenL = Ret bits
       ∧ length bits = lenL
       ∧ ∀ k, (k < lenL)%nat → bits !! k = Some (bitOf n k))
  ∧ ((64 * Limbs < lenL)%nat →
     binaryDecomposition n lenL = Panic index_out_of_range).
Proof.
  unfold binaryDecomposition. split; intros Hl.
  - destruct (bitsOuter_spec n lenL Hl lenL 0%nat (replicate lenL 0))
      as (bits & -> & Hlen & Hk); [lia | by rewrite length_replicate |].
    exists bits. split_and!; [done..|]. intros k Hlt.
    rewrite Hk, bool_decide_eq_true_2; [done | lia].
  - apply bitsOuter_panic; [done | lia | lia | by rewrite length_replicate].
Qed.

(** [quickLog] is the bit length minus one. *)
Lemma countShifts_size p : ∀ res, countShifts p res = res + Z.of_nat (Pos.size_nat p).
Proof. induction p; intros res; simpl; rewrite ?IHp; lia. Qed.

Lemma quickLog_bit_length bi : quickLog bi = Z.of_nat (N.size_nat bi) - 1.
Proof. destruct bi as [|p]; simpl; [done|]. rewrite countShifts_size. lia. Qed.

(** [quickLog] is the base-2 logarithm: on a power of two, the exponent. *)
Lemma quickLog_log2 bi : bi ≠ 0%N → quickLog bi = Z.of_N (N.log2 bi).
Proof.
  destruct bi as [|p]; [done|]. intros _. simpl. rewrite countShifts_size.
  induction p as [p IH|p IH|]; simpl in *; [| |done].
  - destruct p; simpl in *; lia.
  - destruct p; simpl in *; lia.
Qed.

Lemma quickLog_pow2 (k : N) : quickLog (2 ^ k) = Z.of_N k.
Proof.
  rewrite quickLog_log2 by (apply N.pow_nonzero; lia).
  by rewrite N.log2_pow2 by lia.
Qed.

Lemma at_int_Ret {A} (l : list A) (i : Z) (x : A) :
  at_int l i = Ret x ↔ 0 ≤ i ∧ l !! Z.to_nat i = Some x.
Proof.
  unfold at_int. destruct (Z.ltb_spec i 0).
  - split; [discriminate | lia].
  - rewrite at_index_Ret. split; [auto | by intros [_ ?]].
Qed.

(** What the loop over [L] leaves in the wire values and the bitmap. *)
Lemma assignBits_spec r1cs bits : ∀ ts inst w inst' w',
  assignBits r1cs bits ts inst w = Ret (inst', w') →
  NoDup (ConstraintID <$> ts) →
  (∀ t, t ∈ ts →
     ∃ coef bit, Coefficients r1cs !! CoeffID t = Some coef
       ∧ at_int bits (quickLog (ToBigIntRegular coef)) = Ret bit
       ∧ w' !! ConstraintID t = Some (SetUint64 bit)
       ∧ inst' !! ConstraintID t = Some true)
  ∧ (∀ k, k ∉ ConstraintID <$> ts → w' !! k = w !! k ∧ inst' !! k = inst !! k).
Proof.
  induction ts as [|t ts IH]; intros inst w inst' w' Hrun Hnd; simpl in Hrun.
  - injection Hrun as <- <-. split; [|done]. intros t Ht. by apply elem_of_nil in Ht.
  - bind_inv Hrun. bind_inv Hrun. bind_inv Hrun. bind_inv Hrun.
    apply at_index_Ret in E.
    apply set_index_Ret in E1 as [Hw ->], E2 as [Hi ->].
    rewrite fmap_cons in Hnd. apply NoDup_cons in Hnd as [Hnotin Hnd].
    destruct (IH _ _ _ _ Hrun Hnd) as [Hin Hout]. split.
    + intros t' [->|Ht']%elem_of_cons; [|by apply Hin].
      destruct (Hout _ Hnotin) as [-> ->].
      exists x, x0. by rewrite !list_lookup_insert_eq.
    + intros k Hk. rewrite fmap_cons in Hk.
      apply not_elem_of_cons in Hk as [Hne Hk].
      destruct (Hout _ Hk) as [-> ->].
      by rewrite !list_lookup_insert_ne.
Qed.

(** The loop over [L] returns when every term finds its coefficient, its
    bit and its wire. *)
Lemma assignBits_returns r1cs bits : ∀ ts inst w,
  Forall (λ t, ∃ coef, Coefficients r1cs !! CoeffID t = Some coef
                 ∧ 0 ≤ quickLog (ToBigIntRegular coef) < Z.of_nat (length bits)
                 ∧ (ConstraintID t < length w)%nat
                 ∧ (ConstraintID t < length inst)%nat) ts →
  ∃ inst' w', assignBits r1cs bits ts inst w = Ret (inst', w').
Proof.
  induction ts as [|t ts IH]; intros inst w Hall; simpl; [eauto|].
  apply Forall_cons in Hall as [(coef & Hc & Hpos & Hw & Hi) Hall].
  apply at_index_Ret in Hc. rewrite Hc. simpl.
  destruct (lookup_lt_is_Some_2 bits (Z.to_nat (quickLog (ToBigIntRegular coef))))
    as [bit Hbit]; [lia|].
  rewrite (proj2 (at_int_Ret bits _ bit)) by (split; [lia | done]). simpl.
  rewrite !set_index_lt by done. simpl.
  apply IH. eapply Forall_impl; [exact Hall|]. simpl.
  intros t' (coef' & ? & ? & ? & ?). exists coef'.
  by rewrite !length_insert.
Qed.

Lemma assignBits_lengths r1cs bits : ∀ ts inst w inst' w',
  assignBits r1cs bits ts inst w = Ret (inst', w') →
  length w' = length w ∧ length inst' = length inst.
Proof.
  induction ts as [|t ts IH]; intros inst w inst' w' Hrun; simpl in Hrun.
  - by injection Hrun as <- <-.
  - bind_inv Hrun. bind_inv Hrun. bind_inv Hrun. bind_inv Hrun.
    apply set_index_Ret in E1 as [_ ->], E2 as [_ ->].
    destruct (IH _ _ _ _ Hrun) as [-> ->]. by rewrite !length_insert.
Qed.

(** What [solveR1C] leaves when it returns on a binary decomposition whose
    terms refer to distinct wires. *)
Lemma solveBinaryDec_Ret r1cs r inst w inst' w' :
  NoDup (ConstraintID <$> L r) →
  solveBinaryDec r1cs r inst w = Ret (inst', w') →
  ∃ n, sumTerms r1cs w (O r) fr_zero = Ret n
    ∧ (∀ t, t ∈ L r →
         ∃ coef, Coefficients r1cs !! CoeffID t = Some coef
           ∧ (1 ≤ N.size_nat (ToBigIntRegular coef))%nat
           ∧ w' !! ConstraintID t
             = Some (SetUint64 (bitOf n (N.size_nat (ToBigIntRegular coef) - 1)))
           ∧ inst' !! ConstraintID t = Some true)
    ∧ (∀ k, k ∉ ConstraintID <$> L r → w' !! k = w !! k ∧ inst' !! k = inst !! k)
    ∧ length w' = length w ∧ length inst' = length inst.
Proof.
  intros Hnd Hrun. unfold solveBinaryDec in Hrun.
  bind_inv Hrun. bind_inv Hrun. exists x. split; [done|].
  destruct (binaryDecomposition_spec x (length (L r))) as [Hok Hpanic].
  destruct (decide (length (L r) ≤ 64 * Limbs)%nat) as [Hfit|Hbig];
    [|rewrite Hpanic in E0 by lia; discriminate].
  destruct (Hok Hfit) as (bits & Hbits & Hlen & Hk).
  assert (x0 = bits) as -> by congruence.
  destruct (assignBits_spec _ _ _ _ _ _ _ Hrun Hnd) as [Hin Hout].
  destruct (assignBits_lengths _ _ _ _ _ _ _ Hrun) as [Hlw Hli].
  split_and!; [|done..].
  intros t Ht. destruct (Hin t Ht) as (coef & bit & Hc & Hbit & Hw & Hi).
  apply at_int_Ret in Hbit as [Hpos Hbit].
  rewrite quickLog_bit_length in Hpos, Hbit.
  apply lookup_lt_Some in Hbit as Hlt. rewrite Hk in Hbit by lia.
  injection Hbit as <-. exists coef. split_and!; [done | lia | | done].
  rewrite Hw. do 3 f_equal. lia.
Qed.

(** C4: in a binary-decomposition constraint every term of [L] takes the
    bit whose position is the bit length of its own coefficient minus one,
    whatever the term's place in [L]: its wire is set to that bit of the
    value of [O] and marked instantiated, and reordering [L] changes
    nothing.  In particular, when [O] evaluates to 13 and [L] has four terms
    with coefficients 1, 2, 4, 8 on four distinct wires, solving sets those
    wires to 1, 0, 1, 1 and marks them instantiated. *)
Theorem binaryDec_bit_from_coefficient :
  (∀ r1cs r inst w inst' w',
     Solver r = BinaryDec →
     NoDup (ConstraintID <$> L r) →
     solveR1C r1cs r inst w = Ret (inst', w') →
     ∃ n, sumTerms r1cs w (O r) fr_zero = Ret n
       ∧ ∀ t, t ∈ L r →
           ∃ coef, Coefficients r1cs !! CoeffID t = Some coef
             ∧ (1 ≤ N.size_nat (ToBigIntRegular coef))%nat
             ∧ w' !! ConstraintID t
               = Some (SetUint64 (bitOf n (N.size_nat (ToBigIntRegular coef) - 1)))
             ∧ inst' !! ConstraintID t = Some true)
  ∧ (∀ r1cs r r' inst w inst1 w1 inst2 w2,
       Solver r = BinaryDec → Solver r' = BinaryDec →
       L r' ≡ₚ L r → O r' = O r →
       NoDup (ConstraintID <$> L r) →
       solveR1C r1cs r inst w = Ret (inst1, w1) →
       solveR1C r1cs r' inst w = Ret (inst2, w2) →
       inst2 = inst1 ∧ w2 = w1)
  ∧ (∀ r1cs r inst w t0 t1 t2 t3,
       1 < modulus → (1 ≤ Limbs)%nat →
       Solver r = BinaryDec →
       L r = [t0; t1; t2; t3] →
       NoDup (ConstraintID <$> L r) →
       Forall (λ t, (ConstraintID t < length w)%nat
                    ∧ (ConstraintID t < length inst)%nat) (L r) →
       Coefficients r1cs !! CoeffID t0 = Some 1 →
       Coefficients r1cs !! CoeffID t1 = Some 2 →
       Coefficients r1cs !! CoeffID t2 = Some 4 →
       Coefficients r1cs !! CoeffID t3 = Some 8 →
       sumTerms r1cs w (O r) fr_zero = Ret 13 →
       ∃ inst' w',
         solveR1C r1cs r inst w = Ret (inst', w')
         ∧ w' !! ConstraintID t0 = Some 1 ∧ w' !! ConstraintID t1 = Some 0
         ∧ w' !! ConstraintID t2 = Some 1 ∧ w' !! ConstraintID t3 = Some 1
         ∧ Forall (λ t, inst' !! ConstraintID t = Some true) (L r)).
Proof.
  split_and!.
  - intros r1cs r inst w inst' w' HS Hnd Hrun.
    unfold solveR1C in Hrun. rewrite HS in Hrun.
    destruct (solveBinaryDec_Ret _ _ _ _ _ _ Hnd Hrun) as (n & Hn & Hterms & _).
    eauto.
  - intros r1cs r r' inst w inst1 w1 inst2 w2 HS HS' Hperm HO Hnd Hrun Hrun'.
    unfold solveR1C in Hrun, Hrun'. rewrite HS in Hrun. rewrite HS' in Hrun'.
    assert (Hnd' : NoDup (ConstraintID <$> L r')) by by rewrite Hperm.
    destruct (solveBinaryDec_Ret _ _ _ _ _ _ Hnd Hrun)
      as (n & Hn & Hin & Hout & Hlw & Hli).
    destruct (solveBinaryDec_Ret _ _ _ _ _ _ Hnd' Hrun')
      as (n' & Hn' & Hin' & Hout' & Hlw' & Hli').
    rewrite HO, Hn in Hn'. injection Hn' as <-.
    assert (Hsame : ∀ k, inst2 !! k = inst1 !! k ∧ w2 !! k = w1 !! k).
    { intros k. destruct (decide (k ∈ ConstraintID <$> L r)) as [Hk|Hk].
      - apply list_elem_of_fmap in Hk as (t & -> & Ht).
        destruct (Hin t Ht) as (coef & Hc & _ & -> & ->).
        destruct (Hin' t) as (coef' & Hc' & _ & -> & ->); [by rewrite Hperm|].
        assert (coef' = coef) as -> by congruence. done.
      - destruct (Hout k Hk) as [-> ->].
        destruct (Hout' k) as [-> ->]; [by rewrite Hperm|]. done. }
    split; apply list_eq; intros k; apply Hsame.
  - intros r1cs r inst w t0 t1 t2 t3 Hq Hlimbs HS HL Hnd Hrange H0 H1 H2 H3 HO.
    destruct (binaryDecomposition_spec 13 (length (L r))) as [Hok _].
    rewrite HL in Hok. simpl in Hok.
    destruct Hok as (bits & Hbits & Hlen & Hk); [lia|].
    assert (∃ inst' w', solveR1C r1cs r inst w = Ret (inst', w'))
      as (inst' & w' & Hrun).
    { unfold solveR1C. rewrite HS. unfold solveBinaryDec.
      rewrite HO, bind_Ret_l. rewrite HL in Hrange |- *. cbn [length].
      rewrite Hbits, bind_Ret_l.
      apply assignBits_returns. rewrite Hlen.
      repeat match goal with
             | Hr : Forall _ (_ :: _) |- _ => apply Forall_cons in Hr as [[? ?] Hr]
             end.
      repeat apply Forall_cons_2; [| | | |apply Forall_nil_2];
        [exists 1 | exists 2 | exists 4 | exists 8]; split_and!; try done;
        vm_compute; congruence. }
    exists inst', w'. split; [done|].
    unfold solveR1C in Hrun. rewrite HS in Hrun.
    destruct (solveBinaryDec_Ret _ _ _ _ _ _ Hnd Hrun) as (n & Hn & Hterms & _).
    assert (n = 13) as -> by congruence.
    assert (Hset : ∀ t coef, t ∈ L r → Coefficients r1cs !! CoeffID t = Some coef →
              w' !! ConstraintID t
              = Some (SetUint64 (bitOf 13 (N.size_nat (ToBigIntRegular coef) - 1)))
              ∧ inst' !! ConstraintID t = Some true).
    { intros t coef Ht Hc. destruct (Hterms t Ht) as (coef' & Hc' & _ & ? & ?).
      assert (coef' = coef) as -> by congruence. done. }
    assert (Hone : SetUint64 1 = 1) by (apply Z.mod_small; lia).
    assert (Hzero : SetUint64 0 = 0) by apply Zmod_0_l.
    rewrite HL in Hset.
    assert (Hin : Forall (λ t, t ∈ [t0; t1; t2; t3]) [t0; t1; t2; t3])
      by (apply Forall_forall; auto).
    apply Forall_cons in Hin as [Hin0 Hin]. apply Forall_cons in Hin as [Hin1 Hin].
    apply Forall_cons in Hin as [Hin2 Hin]. apply Forall_cons in Hin as [Hin3 _].
    destruct (Hset t0 1 Hin0 H0) as [Hw0 Hi0].
    destruct (Hset t1 2 Hin1 H1) as [Hw1 Hi1].
    destruct (Hset t2 4 Hin2 H2) as [Hw2 Hi2].
    destruct (Hset t3 8 Hin3 H3) as [Hw3 Hi3].
    simpl in Hw0, Hw1, Hw2, Hw3.
    change (bitOf 13 0) with 1 in Hw0. change (bitOf 13 1) with 0 in Hw1.
    change (bitOf 13 2) with 1 in Hw2. change (bitOf 13 3) with 1 in Hw3.
    rewrite Hone in Hw0, Hw2, Hw3. rewrite Hzero in Hw1.
    rewrite HL. split_and!; [done..|].
    repeat apply Forall_cons_2; [done..|]. apply Forall_nil_2.
Qed.

(** C10: the bit extraction reads word [i] of the value of [O] for every
    started group of 64 terms of [L], so it returns exactly when [L] has at
    most [64 * Limbs] terms; with more terms it reads past the last word
    and [solveR1C] panics. *)
Theorem binaryDec_limb_precondition :
  (∀ n lenL,
     (∃ bits, binaryDecomposition n lenL = Ret bits) ↔ (lenL ≤ 64 * Limbs)%nat)
  ∧ (∀ r1cs r inst w,
       Solver r = BinaryDec →
       (64 * Limbs < length (L r))%nat →
       (∃ msg, solveR1C r1cs r inst w = Panic msg)
       ∧ ∀ n, sumTerms r1cs w (O r) fr_zero = Ret n →
              solveR1C r1cs r inst w = Panic index_out_of_range).
Proof.
  split.
  - intros n lenL. destruct (binaryDecomposition_spec n lenL) as [Hok Hpanic].
    split.
    + intros [bits Hbits].
      destruct (decide (lenL ≤ 64 * Limbs)%nat) as [|Hbig]; [done|].
      rewrite Hpanic in Hbits by lia. discriminate.
    + intros Hfit. destruct (Hok Hfit) as (bits & ? & _). eauto.
  - intros r1cs r inst w HS Hbig.
    assert (Hn : ∀ n, sumTerms r1cs w (O r) fr_zero = Ret n →
              solveR1C r1cs r inst w = Panic index_out_of_range).
    { intros n Hn. unfold solveR1C. rewrite HS. unfold solveBinaryDec.
      rewrite Hn, bind_Ret_l.
      destruct (binaryDecomposition_spec n (length (L r))) as [_ ->]; done. }
    split; [|done].
    destruct (sumTerms r1cs w (O r) fr_zero) as [n|msg] eqn:HO; [eauto|].
    exists msg. unfold solveR1C. rewrite HS. unfold solveBinaryDec.
    by rewrite HO.
Qed.

(** ** Input instantiation *)

Lemma set_int_Ret {A} (l l' : list A) (i : Z) (x : A) :
  set_int l i x = Ret l' ↔ 0 ≤ i < Z.of_nat (length l) ∧ l' = <[Z.to_nat i := x]> l.
Proof.
  unfold set_int. destruct (Z.ltb_spec i 0).
  - split; [discriminate | lia].
  - rewrite set_index_Ret. split; intros [? ?]; split; auto; lia.
Qed.

Lemma set_int_in_range {A} (l : list A) (i : Z) (x : A) :
  0 ≤ i < Z.of_nat (length l) → set_int l i x = Ret (<[Z.to_nat i := x]> l).
Proof. intros. by apply set_int_Ret. Qed.

(** The loop counter only matters through [i + offset]. *)
Lemma instantiateInputsFrom_shift assignment offset names : ∀ i w inst,
  instantiateInputsFrom assignment offset i names w inst
  = instantiateInputsFrom assignment (offset + Z.of_nat i) 0 names w inst.
Proof.
  assert (Gen : ∀ names i j off off' w inst,
            Z.of_nat i + off = Z.of_nat j + off' →
            instantiateInputsFrom assignment off i names w inst
            = instantiateInputsFrom assignment off' j names w inst).
  { clear names. induction names as [|name rest IH]; intros i j off off' w inst Heq;
      simpl; [done|].
    rewrite Heq.
    case_bool_decide.
    - destruct (set_int w _ _); simpl; [|done].
      destruct (set_int inst _ _); simpl; [|done]. apply IH. lia.
    - destruct (assignment !! name); [|done].
      destruct (set_int w _ _); simpl; [|done].
      destruct (set_int inst _ _); simpl; [|done]. apply IH. lia. }
  intros i w inst. apply Gen. lia.
Qed.

Lemma instantiateInputsFrom_app assignment offset l1 : ∀ l2 i w inst,
  instantiateInputsFrom assignment offset i (l1 ++ l2) w inst
  = '(err, (w1, inst1)) ← instantiateInputsFrom assignment offset i l1 w inst;
    match err with
    | Some e => Ret (Some e, (w1, inst1))
    | None => instantiateInputsFrom assignment offset (i + length l1) l2 w1 inst1
    end.
Proof.
  induction l1 as [|name rest IH]; intros l2 i w inst; simpl.
  - by rewrite Nat.add_0_r.
  - case_bool_decide.
    + destruct (set_int w _ _); simpl; [|done].
      destruct (set_int inst _ _); simpl; [|done].
      rewrite IH. by replace (S i + length rest)%nat with (i + S (length rest))%nat by lia.
    + destruct (assignment !! name); [|done].
      destruct (set_int w _ _); simpl; [|done].
      destruct (set_int inst _ _); simpl; [|done].
      rewrite IH. by replace (S i + length rest)%nat with (i + S (length rest))%nat by lia.
Qed.

(** With well-formed counts the public names are instantiated right
    after the secret ones: the input phase is one pass over both lists. *)
Lemma inputPhase_concat r1cs assignment w inst :
  well_formed_inputs r1cs →
  inputPhase r1cs assignment w inst
  = instantiateInputs assignment
      (NbWires r1cs - NbPublicWires r1cs - NbSecretWires r1cs)
      (SecretWires r1cs ++ PublicWires r1cs) w inst.
Proof.
  intros (HS & HP & Hfit). unfold inputPhase, instantiateInputs.
  assert (Hoff_p : int_of_uint64 (sub64 (NbWires r1cs) (NbPublicWires r1cs))
                   = NbWires r1cs - NbPublicWires r1cs).
  { unfold sub64, int_of_uint64. rewrite Z.mod_small by lia.
    destruct (Z.ltb_spec (NbWires r1cs - NbPublicWires r1cs) (2 ^ 63)); lia. }
  assert (Hoff_s : int_of_uint64 (sub64 (sub64 (NbWires r1cs) (NbPublicWires r1cs))
                                    (NbSecretWires r1cs))
                   = NbWires r1cs - NbPublicWires r1cs - NbSecretWires r1cs).
  { unfold sub64, int_of_uint64. rewrite (Z.mod_small (_ - NbPublicWires r1cs)) by lia.
    rewrite Z.mod_small by lia.
    destruct (Z.ltb_spec (NbWires r1cs - NbPublicWires r1cs - NbSecretWires r1cs)
                (2 ^ 63)); lia. }
  rewrite Hoff_p, Hoff_s, instantiateInputsFrom_app.
  destruct (Z.eqb_spec (NbSecretWires r1cs) 0) as [Hz|Hnz]; simpl.
  - destruct (SecretWires r1cs); simpl in *; [|lia].
    f_equal. lia.
  - destruct (instantiateInputsFrom _ _ _ (SecretWires r1cs) _ _)
      as [[[e|] [w1 inst1]]|]; simpl; [done | | done].
    rewrite (instantiateInputsFrom_shift _ _ _ (length _)). f_equal. lia.
Qed.

(** The first name that is not provided stops the loop with [InputNotSet]. *)
Lemma instantiateInputsFrom_missing assignment offset : ∀ pre name post i w inst,
  Forall (provided assignment) pre →
  name ≠ OneWire → assignment !! name = None →
  0 ≤ Z.of_nat i + offset →
  Z.of_nat i + offset + Z.of_nat (length pre) ≤ Z.of_nat (length w) →
  length inst = length w →
  ∃ w' inst',
    instantiateInputsFrom assignment offset i (pre ++ name :: post) w inst
    = Ret (Some (ErrInputNotSet name), (w', inst')).
Proof.
  induction pre as [|p pre IH]; intros name post i w inst Hpre Hne Hnone Hlo Hhi Hlen;
    simpl.
  - rewrite bool_decide_eq_false_2, Hnone by done. eauto.
  - apply Forall_cons in Hpre as [Hp Hpre]. simpl in Hhi.
    assert (Hstep : ∀ v,
      ∃ w' inst',
        (wireValues' ← set_int w (Z.of_nat i + offset) v;
         wireInstantiated' ← set_int inst (Z.of_nat i + offset) true;
         instantiateInputsFrom assignment offset (S i) (pre ++ name :: post)
           wireValues' wireInstantiated')
        = Ret (Some (ErrInputNotSet name), (w', inst'))).
    { intros v. rewrite !set_int_in_range by lia. simpl.
      apply IH; try done; rewrite ?length_insert; lia. }
    case_bool_decide as Hone; [apply Hstep|].
    destruct Hp as [?|[v ->]]; [done | apply Hstep].
Qed.

(** After a pass without error every name has its wire set and marked:
    the constant wire to one, the others to their assigned value. *)
Lemma instantiateInputsFrom_values assignment offset : ∀ names i w inst w' inst',
  instantiateInputsFrom assignment offset i names w inst = Ret (None, (w', inst')) →
  (∀ k name, names !! k = Some name →
     0 ≤ Z.of_nat (i + k) + offset
     ∧ inst' !! Z.to_nat (Z.of_nat (i + k) + offset) = Some true
     ∧ w' !! Z.to_nat (Z.of_nat (i + k) + offset)
       = Some (if bool_decide (name = OneWire) then SetOne
               else SetInterface (default 0 (assignment !! name))))
  ∧ (∀ idx, Z.of_nat idx < Z.of_nat i + offset →
       w' !! idx = w !! idx ∧ inst' !! idx = inst !! idx).
Proof.
  induction names as [|name rest IH]; intros i w inst w' inst' Hrun; simpl in Hrun.
  - injection Hrun as <- <-. split; [|done]. intros k name Hk. by destruct k.
  - assert (Hcore : ∀ v,
      (wireValues' ← set_int w (Z.of_nat i + offset) v;
       wireInstantiated' ← set_int inst (Z.of_nat i + offset) true;
       instantiateInputsFrom assignment offset (S i) rest wireValues' wireInstantiated')
      = Ret (None, (w', inst')) →
      (0 ≤ Z.of_nat i + offset
       ∧ inst' !! Z.to_nat (Z.of_nat i + offset) = Some true
       ∧ w' !! Z.to_nat (Z.of_nat i + offset) = Some v)
      ∧ (∀ k n, rest !! k = Some n →
           0 ≤ Z.of_nat (S i + k) + offset
           ∧ inst' !! Z.to_nat (Z.of_nat (S i + k) + offset) = Some true
           ∧ w' !! Z.to_nat (Z.of_nat (S i + k) + offset)
             = Some (if bool_decide (n = OneWire) then SetOne
                     else SetInterface (default 0 (assignment !! n))))
      ∧ (∀ idx, Z.of_nat idx < Z.of_nat i + offset →
           w' !! idx = w !! idx ∧ inst' !! idx = inst !! idx)).
    { intros v Hv. bind_inv Hv. bind_inv Hv.
      apply set_int_Ret in E as [Hr ->], E0 as [Hr' ->].
      destruct (IH _ _ _ _ _ Hv) as [Hin Hout]. split_and!; [lia | | |done|].
      - destruct (Hout (Z.to_nat (Z.of_nat i + offset))) as [_ ->]; [lia|].
        apply list_lookup_insert_eq. lia.
      - destruct (Hout (Z.to_nat (Z.of_nat i + offset))) as [-> _]; [lia|].
        apply list_lookup_insert_eq. lia.
      - intros idx Hidx. destruct (Hout idx) as [-> ->]; [lia|].
        rewrite !list_lookup_insert_ne by lia. done. }
    assert (Hv : ∃ v, v = (if bool_decide (name = OneWire) then SetOne
                           else SetInterface (default 0 (assignment !! name)))
              ∧ (wireValues' ← set_int w (Z.of_nat i + offset) v;
                 wireInstantiated' ← set_int inst (Z.of_nat i + offset) true;
                 instantiateInputsFrom assignment offset (S i) rest
                   wireValues' wireInstantiated')
                = Ret (None, (w', inst'))).
    { case_bool_decide; [eauto|].
      destruct (assignment !! name) as [val|]; [eauto | discriminate]. }
    destruct Hv as (v & -> & Hv).
    destruct (Hcore _ Hv) as ((? & ? & ?) & Hrest & Hout). split; [|done].
    intros [|k] n Hk; simpl in Hk.
    + injection Hk as <-. rewrite Nat.add_0_r. done.
    + replace (i + S k)%nat with (S i + k)%nat by lia. by apply Hrest.
Qed.

Lemma not_provided assignment name :
  ¬ provided assignment name ↔ name ≠ OneWire ∧ assignment !! name = None.
Proof.
  unfold provided. rewrite eq_None_not_Some. tauto.
Qed.

(** Among names of which one is not provided there is a first such name. *)
Lemma first_not_provided assignment names :
  (∃ name, name ∈ names ∧ ¬ provided assignment name) →
  ∃ pre name post,
    names = pre ++ name :: post
    ∧ Forall (provided assignment) pre ∧ ¬ provided assignment name.
Proof.
  induction names as [|x names IH]; intros (name & Hin & Hmiss).
  - by apply elem_of_nil in Hin.
  - destruct (decide (x = OneWire)) as [Hone|Hone];
      [|destruct (assignment !! x) as [v|] eqn:Hx].
    3: { exists [], x, names. split_and!; [done | done |].
         apply not_provided. done. }
    all: apply elem_of_cons in Hin as [->|Hin];
      [exfalso; apply Hmiss; unfold provided; eauto|];
      destruct IH as (pre & n & post & -> & Hpre & Hn); [eauto|];
      exists (x :: pre), n, post; split_and!; [done | | done];
      apply Forall_cons; split; [unfold provided; eauto | done].
Qed.

Lemma size_check_passes r1cs a b c w :
  sized r1cs a b c w →
  negb (Z.of_nat (length a) =? int_of_uint64 (NbConstraints r1cs))
  || negb (Z.of_nat (length b) =? int_of_uint64 (NbConstraints r1cs))
  || negb (Z.of_nat (length c) =? int_of_uint64 (NbConstraints r1cs))
  || negb (Z.of_nat (length w) =? int_of_uint64 (NbWires r1cs)) = false.
Proof.
  intros (Hn & Hfit & Ha & Hb & Hc & Hw).
  unfold int_of_uint64.
  destruct (Z.ltb_spec (NbConstraints r1cs) (2 ^ 63)); [|lia].
  destruct (Z.ltb_spec (NbWires r1cs) (2 ^ 63)); [|lia].
  rewrite Ha, Hb, Hc, Hw, !Z.eqb_refl. done.
Qed.

(** C7: on a constraint system with well-formed input counts and vectors
    of the right sizes, an assignment that leaves a declared input name
    without a value makes [Solve] return [InputNotSet] for the first such
    name, secret names first and public names after them, each list in
    order; the vectors [a], [b], [c] are returned as they were given and
    nothing is printed.  The name of the constant wire needs no value. *)
Theorem Solve_input_not_set r1cs assignment a b c wireValues :
  well_formed_inputs r1cs →
  sized r1cs a b c wireValues →
  (∃ name, name ∈ SecretWires r1cs ++ PublicWires r1cs
           ∧ ¬ provided assignment name) →
  ∃ pre name post res,
    SecretWires r1cs ++ PublicWires r1cs = pre ++ name :: post
    ∧ Forall (provided assignment) pre
    ∧ ¬ provided assignment name
    ∧ Solve r1cs assignment a b c wireValues = Ret res
    ∧ res_err res = Some (ErrInputNotSet name)
    ∧ buf_a (res_buffers res) = a
    ∧ buf_b (res_buffers res) = b
    ∧ buf_c (res_buffers res) = c
    ∧ res_printed res = [].
Proof.
  intros Hwf Hsized Hmiss.
  destruct (first_not_provided _ _ Hmiss) as (pre & name & post & Hsplit & Hpre & Hname).
  exists pre, name, post.
  apply not_provided in Hname as Hname'. destruct Hname' as [Hne Hnone].
  pose proof Hwf as (HS & HP & Hfit). pose proof Hsized as (_ & _ & _ & _ & _ & Hw).
  assert (Hlen : length (SecretWires r1cs ++ PublicWires r1cs)
                 = (length pre + S (length post))%nat).
  { rewrite Hsplit, length_app. done. }
  rewrite length_app in Hlen.
  destruct (instantiateInputsFrom_missing assignment
              (NbWires r1cs - NbPublicWires r1cs - NbSecretWires r1cs)
              pre name post 0%nat wireValues
              (replicate (Z.to_nat (NbWires r1cs)) false))
    as (w' & inst' & Hrun); try done; try lia.
  { rewrite length_replicate. lia. }
  exists {| res_err := Some (ErrInputNotSet name);
            res_buffers := {| buf_a := a; buf_b := b; buf_c := c;
                              buf_wireValues := w';
                              buf_wireInstantiated := inst' |};
            res_printed := [] |}.
  split_and!; try done.
  unfold Solve. rewrite size_check_passes by done.
  rewrite inputPhase_concat by done. unfold instantiateInputs.
  by rewrite Hsplit, Hrun.
Qed.

(** The assignment is only read at names other than the constant wire's. *)
Lemma instantiateInputsFrom_ext (m1 m2 : gmap string Z) offset :
  (∀ name, name ≠ OneWire → m1 !! name = m2 !! name) →
  ∀ names i w inst,
    instantiateInputsFrom m1 offset i names w inst
    = instantiateInputsFrom m2 offset i names w inst.
Proof.
  intros Hagree. induction names as [|name rest IH]; intros i w inst; simpl; [done|].
  case_bool_decide as Hone.
  - destruct (set_int w _ _); simpl; [|done].
    destruct (set_int inst _ _); simpl; [|done]. apply IH.
  - rewrite (Hagree name Hone). destruct (m2 !! name); [|done].
    destruct (set_int w _ _); simpl; [|done].
    destruct (set_int inst _ _); simpl; [|done]. apply IH.
Qed.

Lemma inputPhase_ext (m1 m2 : gmap string Z) r1cs w inst :
  (∀ name, name ≠ OneWire → m1 !! name = m2 !! name) →
  inputPhase r1cs m1 w inst = inputPhase r1cs m2 w inst.
Proof.
  intros Hagree. unfold inputPhase, instantiateInputs.
  destruct (negb (NbSecretWires r1cs =? 0)).
  - rewrite (instantiateInputsFrom_ext m1 m2 _ Hagree (SecretWires r1cs)).
    destruct (instantiateInputsFrom m2 _ _ (SecretWires r1cs) _ _)
      as [[[e|] [w1 inst1]]|]; simpl; [done | | done].
    apply instantiateInputsFrom_ext, Hagree.
  - simpl. apply instantiateInputsFrom_ext, Hagree.
Qed.

Lemma Solve_ext (m1 m2 : gmap string Z) r1cs a b c w :
  (∀ name, name ≠ OneWire → m1 !! name = m2 !! name) →
  Solve r1cs m1 a b c w = Solve r1cs m2 a b c w.
Proof.
  intros Hagree. unfold Solve.
  destruct (_ || _); [done|]. by rewrite (inputPhase_ext m1 m2).
Qed.

Lemma instantiateInputsFrom_error assignment offset : ∀ names i w inst e st,
  instantiateInputsFrom assignment offset i names w inst = Ret (Some e, st) →
  ∃ name, e = ErrInputNotSet name ∧ name ∈ names
          ∧ name ≠ OneWire ∧ assignment !! name = None.
Proof.
  induction names as [|name rest IH]; intros i w inst e st Hrun; simpl in Hrun;
    [discriminate|].
  case_bool_decide as Hone.
  - bind_inv Hrun. bind_inv Hrun.
    destruct (IH _ _ _ _ _ Hrun) as (n & ? & ? & ? & ?).
    exists n. split_and!; try done. apply elem_of_cons; by right.
  - destruct (assignment !! name) eqn:Hname.
    + bind_inv Hrun. bind_inv Hrun.
      destruct (IH _ _ _ _ _ Hrun) as (n & ? & ? & ? & ?).
      exists n. split_and!; try done. apply elem_of_cons; by right.
    + injection Hrun as <- _. exists name. split_and!; try done.
      apply elem_of_cons; by left.
Qed.

(** ** The assertion phase *)

Lemma solveLoop_lengths r1cs count : ∀ i st st',
  solveLoop r1cs count i st = Ret st' →
  length (buf_a st') = length (buf_a st)
  ∧ length (buf_b st') = length (buf_b st)
  ∧ length (buf_c st') = length (buf_c st).
Proof.
  induction count as [|count IH]; intros i st st' Hl; simpl in Hl.
  - by injection Hl as <-.
  - bind_inv Hl. destruct (IH _ _ _ Hl) as (-> & -> & ->).
    unfold solveStep in E. bind_inv E. bind_inv E. destruct x1 as [inst' w'].
    bind_inv E. destruct x1 as [[ai bi] ci].
    bind_inv E. bind_inv E. bind_inv E.
    apply set_index_Ret in E3 as [_ ->], E4 as [_ ->], E5 as [_ ->].
    destruct (Equal _ _); simpl in E; [|discriminate].
    injection E as <-. simpl. by rewrite !length_insert.
Qed.

Lemma checkStep_pass r1cs i st r x y z :
  Constraints r1cs !! i = Some r →
  instantiateR1C r r1cs (buf_wireValues st) = Ret (x, y, z) →
  Mul x y = z →
  (i < length (buf_a st))%nat → (i < length (buf_b st))%nat →
  (i < length (buf_c st))%nat →
  checkStep r1cs i st = Ret (None, recorded st i x y z).
Proof.
  intros Hr Hi Hm Ha Hb Hc. unfold checkStep.
  apply at_index_Ret in Hr. rewrite Hr. simpl. rewrite Hi. simpl.
  rewrite !set_index_lt by done. simpl.
  unfold Equal. by rewrite (proj2 (Z.eqb_eq _ _) Hm).
Qed.

Lemma checkStep_fail r1cs i st r x y z entry s :
  Constraints r1cs !! i = Some r →
  instantiateR1C r r1cs (buf_wireValues st) = Ret (x, y, z) →
  Mul x y ≠ z →
  (i < length (buf_a st))%nat → (i < length (buf_b st))%nat →
  (i < length (buf_c st))%nat →
  at_int (DebugInfo r1cs) (Z.of_nat i - int_of_uint64 (NbCOConstraints r1cs))
    = Ret entry →
  logValue entry (buf_wireValues st) (buf_wireInstantiated st) = Ret s →
  checkStep r1cs i st = Ret (Some (ErrUnsatisfiedConstraint s), recorded st i x y z).
Proof.
  intros Hr Hi Hm Ha Hb Hc He Hs. unfold checkStep.
  apply at_index_Ret in Hr. rewrite Hr. simpl. rewrite Hi. simpl.
  rewrite !set_index_lt by done. simpl.
  unfold Equal. rewrite (proj2 (Z.eqb_neq _ _) Hm). simpl.
  rewrite He. simpl. by rewrite Hs.
Qed.

(** The loop stops at the first violated assertion with its diagnostic. *)
Lemma checkLoop_first_violation r1cs k s : ∀ count i st,
  (i ≤ k < i + count)%nat →
  (k < length (buf_a st))%nat → (k < length (buf_b st))%nat →
  (k < length (buf_c st))%nat →
  (∀ j, (i ≤ j < k)%nat → holds_at r1cs (buf_wireValues st) j) →
  violated_at r1cs (buf_wireValues st) k →
  diagnostic r1cs (buf_wireValues st) (buf_wireInstantiated st) k s →
  ∃ st', checkLoop r1cs count i st = Ret (Some (ErrUnsatisfiedConstraint s), st')
    ∧ buf_wireValues st' = buf_wireValues st
    ∧ buf_wireInstantiated st' = buf_wireInstantiated st.
Proof.
  induction count as [|count IH]; intros i st Hk Ha Hb Hc Hprev Hviol Hdiag;
    [lia|]. simpl.
  destruct (decide (i = k)) as [->|Hne].
  - destruct Hviol as (r & x & y & z & Hr & He & Hm).
    destruct Hdiag as (entry & Hentry & Hs).
    rewrite (checkStep_fail _ _ _ r x y z entry s) by done. simpl. eauto.
  - destruct (Hprev i) as (r & x & y & z & Hr & He & Hm); [lia|].
    rewrite (checkStep_pass _ _ _ r x y z) by (done || lia). simpl.
    destruct (IH (S i) (recorded st i x y z)) as (st' & -> & ? & ?);
      simpl; rewrite ?length_insert; try done; try lia.
    + intros j Hj. apply Hprev. lia.
    + eauto.
Qed.

(** An error of the loop is the diagnostic of a violated assertion. *)
Lemma checkLoop_error r1cs : ∀ count i st e st',
  checkLoop r1cs count i st = Ret (Some e, st') →
  buf_wireValues st' = buf_wireValues st
  ∧ buf_wireInstantiated st' = buf_wireInstantiated st
  ∧ ∃ k s, (i ≤ k < i + count)%nat
      ∧ e = ErrUnsatisfiedConstraint s
      ∧ violated_at r1cs (buf_wireValues st) k
      ∧ diagnostic r1cs (buf_wireValues st) (buf_wireInstantiated st) k s
      ∧ ∀ j, (i ≤ j < k)%nat → holds_at r1cs (buf_wireValues st) j.
Proof.
  induction count as [|count IH]; intros i st e st' Hl; simpl in Hl; [discriminate|].
  bind_inv Hl. destruct x as [err st1]. destruct err as [e1|].
  - injection Hl as <- <-. pose proof E as Hstep.
    apply checkStep_spec in E as (Hw & Hinst & _ & r & x & y & z & Hr & Hi & _).
    split_and!; [done..|].
    unfold checkStep in Hstep. apply at_index_Ret in Hr. rewrite Hr in Hstep.
    simpl in Hstep. rewrite Hi in Hstep. simpl in Hstep.
    bind_inv Hstep. bind_inv Hstep. bind_inv Hstep.
    destruct (Equal (Mul x y) z) eqn:Heq; simpl in Hstep; [discriminate|].
    bind_inv Hstep. bind_inv Hstep.
    assert (e1 = ErrUnsatisfiedConstraint x4) as -> by congruence.
    exists i, x4. split_and!; [lia | lia | done | | | intros; lia].
    + exists r, x, y, z. apply at_index_Ret in Hr. apply Z.eqb_neq in Heq. done.
    + exists x3. done.
  - apply checkStep_spec in E as (Hw & Hinst & _ & r & x & y & z & Hr & Hi & _ & _ & _ & Hm).
    destruct (IH _ _ _ _ Hl) as (Hw' & Hinst' & k & s & Hk & -> & Hviol & Hdiag & Hprev).
    rewrite Hw, Hinst in *. split_and!; [done..|].
    exists k, s. split_and!; [lia | lia | done | done | done |].
    intros j Hj. destruct (decide (j = i)) as [->|]; [|apply Hprev; lia].
    exists r, x, y, z. auto.
Qed.

(** C6: once the sizes are right and the input phase has succeeded,
    (1) if the computational phase completes and an assertion-suffix
    constraint is the first one whose sides violate [L * R = O], then
    [Solve] returns [UnsatisfiedConstraint] carrying the string resolved
    from the debug-info entry at that constraint's index in the suffix
    (provided that entry and the logs resolve); and (2) whatever error
    [Solve] returns is of that form, for a violated assertion-suffix
    constraint and its debug-info entry. *)
Theorem Solve_unsatisfied_constraint r1cs assignment a b c wireValues w1 inst1 :
  sized r1cs a b c wireValues →
  NbConstraints r1cs = Z.of_nat (length (Constraints r1cs)) →
  inputPhase r1cs assignment wireValues
    (replicate (Z.to_nat (NbWires r1cs)) false) = Ret (None, (w1, inst1)) →
  let nbCO := int_of_uint64 (NbCOConstraints r1cs) in
  (∀ st1 k s printed,
     0 ≤ nbCO →
     solveLoop r1cs (Z.to_nat nbCO) 0
       {| buf_a := a; buf_b := b; buf_c := c;
          buf_wireValues := w1; buf_wireInstantiated := inst1 |} = Ret st1 →
     (Z.to_nat nbCO ≤ k)%nat →
     (∀ j, (Z.to_nat nbCO ≤ j < k)%nat → holds_at r1cs (buf_wireValues st1) j) →
     violated_at r1cs (buf_wireValues st1) k →
     diagnostic r1cs (buf_wireValues st1) (buf_wireInstantiated st1) k s →
     printLogs r1cs (buf_wireValues st1) (buf_wireInstantiated st1) = Ret printed →
     ∃ res, Solve r1cs assignment a b c wireValues = Ret res
       ∧ res_err res = Some (ErrUnsatisfiedConstraint s)
       ∧ res_printed res = printed)
  ∧ (∀ res e,
       Solve r1cs assignment a b c wireValues = Ret res →
       res_err res = Some e →
       ∃ k s, (Z.to_nat nbCO ≤ k)%nat
         ∧ e = ErrUnsatisfiedConstraint s
         ∧ violated_at r1cs (buf_wireValues (res_buffers res)) k
         ∧ diagnostic r1cs (buf_wireValues (res_buffers res))
             (buf_wireInstantiated (res_buffers res)) k s).
Proof.
  intros Hsized Hnb Hin nbCO. pose proof Hsized as (_ & _ & Ha & Hb & Hc & _).
  split.
  - intros st1 k s printed Hpos Hloop Hk Hprev Hviol Hdiag Hlogs.
    destruct (solveLoop_lengths _ _ _ _ _ Hloop) as (Hla & Hlb & Hlc).
    simpl in Hla, Hlb, Hlc.
    assert (Hlt : (k < length (Constraints r1cs))%nat).
    { destruct Hviol as (r & _ & _ & _ & Hr & _). by apply lookup_lt_Some in Hr. }
    destruct (checkLoop_first_violation r1cs k s
                (length (Constraints r1cs) - Z.to_nat nbCO) (Z.to_nat nbCO) st1)
      as (st' & Hcheck & Hw & Hinst); try done; try lia.
    exists {| res_err := Some (ErrUnsatisfiedConstraint s);
              res_buffers := st'; res_printed := printed |}.
    split; [|split; reflexivity].
    unfold Solve. rewrite size_check_passes by done. rewrite Hin. simpl.
    unfold solveBody. fold nbCO. rewrite Hloop. simpl.
    destruct (Z.ltb_spec nbCO 0); [lia|].
    rewrite Hcheck. simpl. rewrite Hw, Hinst, Hlogs. reflexivity.
  - intros res e HS He. unfold Solve in HS.
    rewrite size_check_passes in HS by done. rewrite Hin in HS. simpl in HS.
    bind_inv HS. destruct x as [err' st]. bind_inv HS. injection HS as <-.
    simpl in *. subst err'.
    unfold solveBody in E. fold nbCO in E. bind_inv E.
    destruct (nbCO <? 0); [discriminate|].
    apply checkLoop_error in E as (Hw & Hinst & k & s & Hk & -> & Hviol & Hdiag & _).
    exists k, s. rewrite Hw, Hinst. split_and!; [lia | done..].
Qed.

(** ** Invariant violations *)

Lemma processTerms_unknowns r1cs inst w locValue :
  locValue ≠ 0 →
  ∀ ts f val f' v,
    processTerms r1cs inst w ts locValue f val = Ret (f', v) →
    (loc f ≠ 0 → unknownTerms inst ts = [] ∧ loc f' ≠ 0)
    ∧ (loc f = 0 →
       (length (unknownTerms inst ts) ≤ 1)%nat
       ∧ (loc f' = 0 → unknownTerms inst ts = [])).
Proof.
  intros HlocV. induction ts as [|t ts IH]; intros f val f' v Hrun; simpl in Hrun.
  - injection Hrun as <- <-. split; [done|]. intros _. split; [simpl; lia | done].
  - bind_inv Hrun. destruct x as [f1 val1].
    unfold processTerm in E. cbv zeta in E. bind_inv E.
    apply at_index_Ret in E0. unfold unknownTerms. rewrite filter_cons.
    destruct x as [|].
    + bind_inv E. bind_inv E. injection E as <- <-.
      rewrite decide_False by congruence. by apply IH in Hrun.
    + rewrite decide_True by done.
      destruct (Z.eqb_spec (loc f) 0) as [Hz|Hnz]; simpl in E; [|discriminate].
      injection E as <- <-. apply IH in Hrun as [Hnz _].
      destruct Hnz as [Hnil Hloc]; [done|]. fold (unknownTerms inst ts).
      rewrite Hnil. split; [done|]. intros _. split; [simpl; lia | done].
Qed.

(** [solveR1C] returns on a single-output constraint only if at most one
    term, over the three sides, refers to an uninstantiated wire. *)
Lemma solveSingleOutput_Ret_unknowns r1cs r inst w res :
  solveSingleOutput r1cs r inst w = Ret res →
  (length (unknownTerms inst (L r ++ R r ++ O r)) ≤ 1)%nat.
Proof.
  unfold solveSingleOutput. intros Hrun.
  bind_inv Hrun. destruct x as [f1 a].
  bind_inv Hrun. destruct x as [f2 b].
  bind_inv Hrun. destruct x as [f3 c]. clear Hrun.
  apply processTerms_unknowns in E as [_ HL]; [|done].
  apply processTerms_unknowns in E0 as [HR1 HR0]; [|done].
  apply processTerms_unknowns in E1 as [HO1 HO0]; [|done].
  destruct HL as [HL HL0]; [done|].
  unfold unknownTerms in *. rewrite !filter_app, !length_app.
  destruct (decide (loc f1 = 0)) as [H1|H1].
  - rewrite (HL0 H1). destruct (HR0 H1) as [HR HR'].
    destruct (decide (loc f2 = 0)) as [H2|H2].
    + rewrite (HR' H2). destruct (HO0 H2) as [HO _]. simpl. lia.
    + destruct (HO1 H2) as [-> _]. simpl. lia.
  - destruct (HR1 H1) as [-> H2]. destruct (HO1 H2) as [-> _]. simpl. lia.
Qed.

Lemma not_Ret_Panic {A} (m : outcome A) :
  (∀ x, m ≠ Ret x) → ∃ msg, m = Panic msg.
Proof. destruct m as [x|msg]; [intros Hx; by destruct (Hx x) | eauto]. Qed.

Lemma solveLoop_app r1cs n1 : ∀ n2 i st,
  solveLoop r1cs (n1 + n2) i st
  = solveLoop r1cs n1 i st ≫= solveLoop r1cs n2 (i + n1).
Proof.
  induction n1 as [|n1 IH]; intros n2 i st; simpl.
  - by rewrite Nat.add_0_r.
  - destruct (solveStep r1cs i st); simpl; [|done].
    rewrite IH. by replace (S i + n1)%nat with (i + S n1)%nat by lia.
Qed.

(** A step of the computational loop that panics makes the loop panic. *)
Lemma solveLoop_panic r1cs count k st st_k msg :
  (k < count)%nat →
  solveLoop r1cs k 0 st = Ret st_k →
  solveStep r1cs k st_k = Panic msg →
  solveLoop r1cs count 0 st = Panic msg.
Proof.
  intros Hk Hpre Hstep.
  replace count with (k + S (count - S k))%nat by lia.
  rewrite solveLoop_app, Hpre. simpl. by rewrite Hstep.
Qed.

Lemma resolveWires_uninstantiated wireID w inst : ∀ ids acc,
  wireID ∈ ids → at_int inst wireID = Ret false →
  ∃ msg, resolveWires ids w inst acc = Panic msg.
Proof.
  induction ids as [|id ids IH]; intros acc Hin Hfalse.
  - by apply elem_of_nil in Hin.
  - simpl. destruct (at_int inst id) as [[|]|msg] eqn:Hid; simpl; [|eauto..].
    apply elem_of_cons in Hin as [->|Hin]; [congruence|].
    destruct (at_int w id); simpl; [by apply IH | eauto].
Qed.

Lemma printLogsFrom_uninstantiated entry wireID w inst : ∀ logs printed,
  entry ∈ logs → wireID ∈ ToResolve entry → at_int inst wireID = Ret false →
  ∃ msg, printLogsFrom logs w inst printed = Panic msg.
Proof.
  induction logs as [|e logs IH]; intros printed Hin Hid Hfalse.
  - by apply elem_of_nil in Hin.
  - simpl. apply elem_of_cons in Hin as [<-|Hin].
    + unfold logValue.
      destruct (resolveWires_uninstantiated wireID w inst (ToResolve entry) [])
        as [msg ->]; [done..|]. simpl. eauto.
    + destruct (logValue e w inst); simpl; [by apply IH | eauto].
Qed.

(** The loop panics when the debug-info entry of the first violated
    assertion does not resolve. *)
Lemma checkLoop_diagnostic_panic r1cs k entry msg : ∀ count i st,
  (i ≤ k < i + count)%nat →
  (k < length (buf_a st))%nat → (k < length (buf_b st))%nat →
  (k < length (buf_c st))%nat →
  (∀ j, (i ≤ j < k)%nat → holds_at r1cs (buf_wireValues st) j) →
  violated_at r1cs (buf_wireValues st) k →
  at_int (DebugInfo r1cs) (Z.of_nat k - int_of_uint64 (NbCOConstraints r1cs))
    = Ret entry →
  logValue entry (buf_wireValues st) (buf_wireInstantiated st) = Panic msg →
  checkLoop r1cs count i st = Panic msg.
Proof.
  induction count as [|count IH]; intros i st Hk Ha Hb Hc Hprev Hviol Hentry Hlog;
    [lia|]. simpl.
  destruct (decide (i = k)) as [->|Hne].
  - destruct Hviol as (r & x & y & z & Hr & He & Hm).
    unfold checkStep. apply at_index_Ret in Hr. rewrite Hr. simpl.
    rewrite He. simpl. rewrite !set_index_lt by done. simpl.
    unfold Equal. rewrite (proj2 (Z.eqb_neq _ _) Hm). simpl.
    rewrite Hentry. simpl. by rewrite Hlog.
  - destruct (Hprev i) as (r & x & y & z & Hr & He & Hm); [lia|].
    rewrite (checkStep_pass _ _ _ r x y z) by (done || lia). simpl.
    apply IH; simpl; rewrite ?length_insert; try done; try lia.
    intros j Hj. apply Hprev. lia.
Qed.

(** C8: the three internal invariant violations are panics.
    (1) A single-output constraint with more than one term on an
    uninstantiated wire makes [solveR1C] panic.  (2) A computational
    constraint whose sides, evaluated after [solveR1C], violate
    [L * R = O] makes the step of the loop panic.  (3) Resolving a log or
    debug entry that refers to an uninstantiated wire panics, in [logValue]
    and in [printLogs].  (4) None of these is turned into a returned error:
    [Solve] itself panics when a step of the computational loop panics,
    when the debug entry of the first violated assertion does not resolve,
    and when the deferred [printLogs] panics. *)
Theorem invariant_violations_panic :
  (∀ r1cs r inst w,
     Solver r = SingleOutput →
     (2 ≤ length (unknownTerms inst (L r ++ R r ++ O r)))%nat →
     ∃ msg, solveR1C r1cs r inst w = Panic msg)
  ∧ (∀ r1cs i st r inst' w' x y z,
       Constraints r1cs !! i = Some r →
       solveR1C r1cs r (buf_wireInstantiated st) (buf_wireValues st) = Ret (inst', w') →
       instantiateR1C r r1cs w' = Ret (x, y, z) →
       Mul x y ≠ z →
       ∃ msg, solveStep r1cs i st = Panic msg)
  ∧ (∀ r1cs entry w inst wireID,
       wireID ∈ ToResolve entry → at_int inst wireID = Ret false →
       (∃ msg, logValue entry w inst = Panic msg)
       ∧ (entry ∈ Logs r1cs → ∃ msg, printLogs r1cs w inst = Panic msg))
  ∧ (∀ r1cs assignment a b c wireValues w1 inst1,
       sized r1cs a b c wireValues →
       inputPhase r1cs assignment wireValues
         (replicate (Z.to_nat (NbWires r1cs)) false) = Ret (None, (w1, inst1)) →
       let st0 := {| buf_a := a; buf_b := b; buf_c := c;
                     buf_wireValues := w1; buf_wireInstantiated := inst1 |} in
       let nbCO := int_of_uint64 (NbCOConstraints r1cs) in
       (∀ k st_k msg,
          (k < Z.to_nat nbCO)%nat →
          solveLoop r1cs k 0 st0 = Ret st_k →
          solveStep r1cs k st_k = Panic msg →
          Solve r1cs assignment a b c wireValues = Panic msg)
       ∧ (∀ st1 k entry msg,
            0 ≤ nbCO →
            NbConstraints r1cs = Z.of_nat (length (Constraints r1cs)) →
            solveLoop r1cs (Z.to_nat nbCO) 0 st0 = Ret st1 →
            (Z.to_nat nbCO ≤ k)%nat →
            (∀ j, (Z.to_nat nbCO ≤ j < k)%nat → holds_at r1cs (buf_wireValues st1) j) →
            violated_at r1cs (buf_wireValues st1) k →
            at_int (DebugInfo r1cs) (Z.of_nat k - nbCO) = Ret entry →
            logValue entry (buf_wireValues st1) (buf_wireInstantiated st1) = Panic msg →
            Solve r1cs assignment a b c wireValues = Panic msg)
       ∧ (∀ err st msg,
            solveBody r1cs st0 = Ret (err, st) →
            printLogs r1cs (buf_wireValues st) (buf_wireInstantiated st) = Panic msg →
            Solve r1cs assignment a b c wireValues = Panic msg)).
Proof.
  split_and!.
  - intros r1cs r inst w HS Htwo. apply not_Ret_Panic. intros res Hres.
    unfold solveR1C in Hres. rewrite HS in Hres.
    apply solveSingleOutput_Ret_unknowns in Hres. lia.
  - intros r1cs i st r inst' w' x y z Hr Hsolve Hinst Hm.
    apply not_Ret_Panic. intros st' Hstep. unfold solveStep in Hstep.
    apply at_index_Ret in Hr. rewrite Hr in Hstep. simpl in Hstep.
    rewrite Hsolve in Hstep. simpl in Hstep. rewrite Hinst in Hstep. simpl in Hstep.
    bind_inv Hstep. bind_inv Hstep. bind_inv Hstep.
    unfold Equal in Hstep. by rewrite (proj2 (Z.eqb_neq _ _) Hm) in Hstep.
  - intros r1cs entry w inst wireID Hid Hfalse. split.
    + unfold logValue.
      destruct (resolveWires_uninstantiated wireID w inst (ToResolve entry) [])
        as [msg ->]; [done..|]. simpl. eauto.
    + intros Hin. by eapply printLogsFrom_uninstantiated.
  - intros r1cs assignment a b c wireValues w1 inst1 Hsized Hin st0 nbCO.
    pose proof Hsized as (_ & _ & Ha & Hb & Hc & _).
    assert (HSolve : Solve r1cs assignment a b c wireValues
              = '(err', st) ← solveBody r1cs st0;
                printed ← printLogs r1cs (buf_wireValues st) (buf_wireInstantiated st);
                Ret {| res_err := err'; res_buffers := st; res_printed := printed |}).
    { unfold Solve. rewrite size_check_passes by done. by rewrite Hin. }
    rewrite HSolve. split_and!.
    + intros k st_k msg Hk Hpre Hstep. unfold solveBody. fold nbCO.
      by rewrite (solveLoop_panic _ _ k st0 st_k msg).
    + intros st1 k entry msg Hpos Hnb Hloop Hk Hprev Hviol Hentry Hlog.
      destruct (solveLoop_lengths _ _ _ _ _ Hloop) as (Hla & Hlb & Hlc).
      simpl in Hla, Hlb, Hlc.
      assert (Hlt : (k < length (Constraints r1cs))%nat).
      { destruct Hviol as (r & _ & _ & _ & Hr & _). by apply lookup_lt_Some in Hr. }
      unfold solveBody. fold nbCO. rewrite Hloop. simpl.
      destruct (Z.ltb_spec nbCO 0); [lia|].
      rewrite (checkLoop_diagnostic_panic r1cs k entry msg); try done; lia.
    + intros err st msg Hbody Hlogs. rewrite Hbody. simpl. by rewrite Hlogs.
Qed.

(** ** Wires are written once by single-output constraints *)

Lemma sumTerms_agree r1cs (w w' : list Element) : ∀ ts acc,
  Forall (λ t, w' !! ConstraintID t = w !! ConstraintID t) ts →
  sumTerms r1cs w' ts acc = sumTerms r1cs w ts acc.
Proof.
  induction ts as [|t ts IH]; intros acc Hall; simpl; [done|].
  apply Forall_cons in Hall as [Ht Hall].
  unfold at_index. rewrite Ht. destruct (w !! ConstraintID t); simpl; [|done].
  destruct (AddTerm r1cs acc t e); simpl; [by apply IH | done].
Qed.

Lemma instantiateR1C_agree r r1cs (w w' : list Element) :
  Forall (λ t, w' !! ConstraintID t = w !! ConstraintID t) (L r ++ R r ++ O r) →
  instantiateR1C r r1cs w' = instantiateR1C r r1cs w.
Proof.
  intros Hall. apply Forall_app in Hall as [HL Hall].
  apply Forall_app in Hall as [HR HO]. unfold instantiateR1C.
  by rewrite (sumTerms_agree _ w w' (L r)), (sumTerms_agree _ w w' (R r)),
    (sumTerms_agree _ w w' (O r)).
Qed.

(** What [processTerms] has found when it returns. *)
Lemma processTerms_found r1cs inst w locValue :
  locValue ≠ 0 →
  ∀ ts f val f' v,
    processTerms r1cs inst w ts locValue f val = Ret (f', v) →
    (loc f ≠ 0 → f' = f ∧ all_instantiated inst ts)
    ∧ (loc f = 0 →
       (f' = f ∧ all_instantiated inst ts)
       ∨ (loc f' ≠ 0
          ∧ inst !! ConstraintID (termToCompute f') = Some false
          ∧ Forall (λ t, inst !! ConstraintID t = Some true
                         ∨ ConstraintID t = ConstraintID (termToCompute f')) ts)).
Proof.
  intros HlocV. induction ts as [|t ts IH]; intros f val f' v Hrun; simpl in Hrun.
  - injection Hrun as <- <-. split; [by split; [|apply Forall_nil_2]|].
    intros _. left. by split; [|apply Forall_nil_2].
  - bind_inv Hrun. destruct x as [f1 val1].
    unfold processTerm in E. cbv zeta in E. bind_inv E.
    apply at_index_Ret in E0. destruct x as [|].
    + bind_inv E. bind_inv E. injection E as <- <-.
      destruct (IH _ _ _ _ Hrun) as [Hnz Hz]. split.
      * intros Hf. destruct (Hnz Hf) as [-> ?]. split; [done|].
        by apply Forall_cons_2.
      * intros Hf. destruct (Hz Hf) as [[-> ?]|(? & ? & ?)].
        -- left. split; [done|]. by apply Forall_cons_2.
        -- right. split_and!; [done..|]. apply Forall_cons_2; [by left | done].
    + destruct (Z.eqb_spec (loc f) 0) as [Hf|Hf]; simpl in E; [|discriminate].
      injection E as <- <-. destruct (IH _ _ _ _ Hrun) as [Hnz _].
      destruct Hnz as [-> Hall]; [done|]. split; [done|]. intros _. right.
      simpl. split_and!; [done..|]. apply Forall_cons_2; [by right|].
      eapply Forall_impl; [exact Hall|]. simpl. auto.
Qed.

(** A single-output step leaves instantiated wires as they are, and
    afterwards every wire of the constraint is instantiated. *)
Lemma solveSingleOutput_preserves r1cs r inst w inst' w' :
  solveSingleOutput r1cs r inst w = Ret (inst', w') →
  (∀ k, inst !! k = Some true → inst' !! k = Some true ∧ w' !! k = w !! k)
  ∧ Forall (λ t, inst' !! ConstraintID t = Some true) (L r ++ R r ++ O r).
Proof.
  unfold solveSingleOutput. intros Hrun.
  bind_inv Hrun. destruct x as [f1 a].
  bind_inv Hrun. destruct x as [f2 b].
  bind_inv Hrun. destruct x as [f3 c].
  apply processTerms_found in E as [_ HL]; [|done].
  apply processTerms_found in E0 as [HR1 HR0]; [|done].
  apply processTerms_found in E1 as [HO1 HO0]; [|done].
  specialize (HL eq_refl). simpl in HL.
  (* every wire is instantiated, or is the wire of the term to compute *)
  assert (Hwires : (loc f3 = 0 ∧ all_instantiated inst (L r ++ R r ++ O r))
            ∨ (loc f3 ≠ 0
               ∧ inst !! ConstraintID (termToCompute f3) = Some false
               ∧ Forall (λ t, inst !! ConstraintID t = Some true
                              ∨ ConstraintID t = ConstraintID (termToCompute f3))
                   (L r ++ R r ++ O r))).
  { assert (Hleft : ∀ ts u, all_instantiated inst ts →
              Forall (λ t, inst !! ConstraintID t = Some true
                           ∨ ConstraintID t = u) ts).
    { intros ts u Hall. eapply Forall_impl; [exact Hall|]. simpl. auto. }
    destruct HL as [[-> HL]|(Hl1 & Hu1 & HL)].
    - destruct (HR0 eq_refl) as [[-> HR]|(Hl2 & Hu2 & HR)].
      + destruct (HO0 eq_refl) as [[-> HO]|(Hl3 & Hu3 & HO)].
        * left. split; [done|]. by repeat apply Forall_app_2.
        * right. split_and!; [done..|]. repeat apply Forall_app_2; auto.
      + destruct (HO1 Hl2) as [-> HO]. right. split_and!; [done..|].
        repeat apply Forall_app_2; auto.
    - destruct (HR1 Hl1) as [-> HR]. destruct (HO1 Hl1) as [-> HO].
      right. split_and!; [done..|]. repeat apply Forall_app_2; auto. }
  destruct Hwires as [[Hz Hall]|(Hnz & Hu & Hall)].
  - rewrite Hz in Hrun. simpl in Hrun. injection Hrun as <- <-. split; [done|].
    exact Hall.
  - destruct (Z.eqb_spec (loc f3) 0) as [|_]; [done|]. simpl in Hrun.
    bind_inv Hrun. bind_inv Hrun. injection Hrun as <- <-.
    apply set_index_Ret in E0 as [Hlt ->].
    set (u := ConstraintID (termToCompute f3)) in *.
    assert (Hw : ∀ k, k ≠ u → x !! k = w !! k).
    { intros k Hk.
      assert (Hcompute : ∀ v w3,
                (w1 ← set_index w u v;
                 x1 ← at_index w1 u;
                 w2 ← set_index w1 u (Sub x1 w3);
                 x2 ← at_index w2 u;
                 x3 ← mulWireByCoeff r1cs x2 (termToCompute f3);
                 set_index w2 u x3) = Ret x → x !! k = w !! k).
      { intros v w3 Hc. bind_inv Hc. bind_inv Hc. bind_inv Hc. bind_inv Hc. bind_inv Hc.
        apply set_index_Ret in E0 as [_ ->], E2 as [_ ->], Hc as [_ ->].
        by rewrite !list_lookup_insert_ne. }
      destruct (loc f3 =? 1); [destruct (negb (IsZero b)); [by eapply Hcompute|congruence]|].
      destruct (loc f3 =? 2); [destruct (negb (IsZero a)); [by eapply Hcompute|congruence]|].
      destruct (loc f3 =? 3); [by eapply Hcompute | congruence]. }
    split.
    + intros k Hk. assert (k ≠ u) by congruence.
      rewrite list_lookup_insert_ne by done. auto.
    + eapply Forall_impl; [exact Hall|]. simpl. intros t [Ht| ->].
      * destruct (decide (ConstraintID t = u)) as [Heq|];
          [rewrite Heq in Ht; congruence|].
        by rewrite list_lookup_insert_ne.
      * by apply list_lookup_insert_eq.
Qed.

Lemma solveStep_settled r1cs i st st' r :
  solveStep r1cs i st = Ret st' →
  Constraints r1cs !! i = Some r → Solver r = SingleOutput →
  settled r1cs st' i ∧ ∀ j, j ≠ i → settled r1cs st j → settled r1cs st' j.
Proof.
  intros Hstep Hr HS. unfold solveStep in Hstep.
  apply at_index_Ret in Hr as Hr'. rewrite Hr' in Hstep. simpl in Hstep.
  bind_inv Hstep. destruct x as [inst' w'].
  bind_inv Hstep. destruct x as [[ai bi] ci].
  bind_inv Hstep. bind_inv Hstep. bind_inv Hstep.
  apply set_index_Ret in E1 as [? ->], E2 as [? ->], E3 as [? ->].
  destruct (Equal (Mul ai bi) ci); simpl in Hstep; [|discriminate].
  injection Hstep as <-.
  unfold solveR1C in E. rewrite HS in E.
  apply solveSingleOutput_preserves in E as [Hkeep Hall]. split.
  - exists r, ai, bi, ci. simpl. rewrite !list_lookup_insert_eq by done. done.
  - intros j Hj (rj & x & y & z & Hrj & Hinst & Heval & Ha & Hb & Hc).
    exists rj, x, y, z. simpl. rewrite !list_lookup_insert_ne by done.
    split_and!; try done.
    + eapply Forall_impl; [exact Hinst|]. simpl. intros t Ht. by apply Hkeep.
    + rewrite <- Heval. apply instantiateR1C_agree.
      eapply Forall_impl; [exact Hinst|]. simpl. intros t Ht. by apply Hkeep.
Qed.

Lemma solveLoop_settled r1cs count : ∀ i st st',
  (∀ j r, (i ≤ j < i + count)%nat → Constraints r1cs !! j = Some r →
          Solver r = SingleOutput) →
  solveLoop r1cs count i st = Ret st' →
  (∀ j, (j < i)%nat → settled r1cs st j) →
  ∀ j, (j < i + count)%nat → settled r1cs st' j.
Proof.
  induction count as [|count IH]; intros i st st' Hsingle Hl Hbefore; simpl in Hl.
  - injection Hl as <-. intros j Hj. apply Hbefore. lia.
  - bind_inv Hl.
    assert (∃ r, Constraints r1cs !! i = Some r) as [r Hr].
    { unfold solveStep in E. bind_inv E. apply at_index_Ret in E0. eauto. }
    destruct (solveStep_settled _ _ _ _ _ E Hr) as [Hi Hkeep].
    { apply (Hsingle i); [lia | done]. }
    intros j Hj. apply (IH (S i) x); try done; try lia.
    + intros j' r' Hj'. apply Hsingle. lia.
    + intros j' Hj'. destruct (decide (j' = i)) as [->|]; [done|].
      apply Hkeep; [done|]. apply Hbefore. lia.
Qed.

(** * Further properties of the solver *)

(** ** The size check and the kinds of error *)

Lemma size_check_spec r1cs (a b c w : list Element) :
  negb (Z.of_nat (length a) =? int_of_uint64 (NbConstraints r1cs))
  || negb (Z.of_nat (length b) =? int_of_uint64 (NbConstraints r1cs))
  || negb (Z.of_nat (length c) =? int_of_uint64 (NbConstraints r1cs))
  || negb (Z.of_nat (length w) =? int_of_uint64 (NbWires r1cs)) = false
  ↔ sizes_match r1cs a b c w.
Proof.
  unfold sizes_match. rewrite !orb_false_iff, !negb_false_iff, !Z.eqb_eq. tauto.
Qed.

Lemma inputPhase_error r1cs assignment w inst e st :
  inputPhase r1cs assignment w inst = Ret (Some e, st) →
  ∃ name, e = ErrInputNotSet name
    ∧ name ∈ SecretWires r1cs ++ PublicWires r1cs
    ∧ name ≠ OneWire ∧ assignment !! name = None.
Proof.
  unfold inputPhase, instantiateInputs. intros Hrun. bind_inv Hrun.
  destruct x as [[e1|] [w1 inst1]].
  - injection Hrun as <- _. destruct (negb (NbSecretWires r1cs =? 0)); [|discriminate].
    apply instantiateInputsFrom_error in E as (name & ? & ? & ? & ?).
    exists name. split_and!; try done. apply elem_of_app. by left.
  - apply instantiateInputsFrom_error in Hrun as (name & ? & ? & ? & ?).
    exists name. split_and!; try done. apply elem_of_app. by right.
Qed.

(** Which error [Solve] returns tells how far it got. *)
Lemma Solve_error_kinds r1cs assignment a b c w res e :
  Solve r1cs assignment a b c w = Ret res →
  res_err res = Some e →
  (¬ sizes_match r1cs a b c w ∧ e = ErrInvalidInputSize)
  ∨ (sizes_match r1cs a b c w
     ∧ ((∃ name, e = ErrInputNotSet name
           ∧ name ∈ SecretWires r1cs ++ PublicWires r1cs
           ∧ name ≠ OneWire ∧ assignment !! name = None)
        ∨ ∃ s, e = ErrUnsatisfiedConstraint s)).
Proof.
  intros HS He. unfold Solve in HS.
  destruct (_ || _) eqn:Hsize.
  - left. injection HS as <-. simpl in He. injection He as <-.
    split; [|done]. rewrite <- size_check_spec. congruence.
  - right. apply size_check_spec in Hsize. split; [done|].
    bind_inv HS. destruct x as [[e1|] [w1 inst1]].
    + injection HS as <-. simpl in He. injection He as ->.
      left. by eapply inputPhase_error.
    + bind_inv HS. destruct x as [err' st]. bind_inv HS. injection HS as <-.
      simpl in He. subst err'. right.
      unfold solveBody in E0. bind_inv E0.
      destruct (_ <? 0); [discriminate|].
      apply checkLoop_error in E0 as (_ & _ & k & s & _ & -> & _). eauto.
Qed.

(** [Solve] returns [InvalidInputSize] exactly when one of the four vectors
    has the wrong length; it does so before anything else: the vectors are
    handed back as they came, nothing is printed, and neither the assignment
    nor the constraints can make it panic. *)
Theorem Solve_invalid_input_size r1cs assignment a b c wireValues :
  (¬ sizes_match r1cs a b c wireValues →
   Solve r1cs assignment a b c wireValues
   = Ret {| res_err := Some ErrInvalidInputSize;
            res_buffers := {| buf_a := a; buf_b := b; buf_c := c;
                              buf_wireValues := wireValues;
                              buf_wireInstantiated := [] |};
            res_printed := [] |})
  ∧ (∀ res, Solve r1cs assignment a b c wireValues = Ret res →
            res_err res = Some ErrInvalidInputSize →
            ¬ sizes_match r1cs a b c wireValues).
Proof.
  split.
  - intros Hsize. unfold Solve. rewrite <- size_check_spec in Hsize.
    by destruct (_ || _).
  - intros res HS He.
    destruct (Solve_error_kinds _ _ _ _ _ _ _ _ HS He)
      as [[? _]|[_ [(name & ? & _)|(s & ?)]]]; [done | discriminate..].
Qed.

(** ** IsSolved *)

Lemma allocatable_spec elemSize maxAlloc n :
  0 ≤ n < 2 ^ 64 →
  allocatable elemSize maxAlloc n = true
  ↔ n < 2 ^ 63 ∧ elemSize * n < 2 ^ 64 ∧ elemSize * n ≤ maxAlloc.
Proof.
  intros Hn. unfold allocatable, int_of_uint64.
  rewrite !andb_true_iff, Z.leb_le, Z.ltb_lt, Z.leb_le.
  destruct (Z.ltb_spec n (2 ^ 63)); lia.
Qed.

Lemma makeSlice_allocatable {A} elemSize maxAlloc n (zero : A) :
  0 ≤ n < 2 ^ 64 →
  allocatable elemSize maxAlloc n = true →
  makeSlice elemSize maxAlloc n zero = Ret (replicate (Z.to_nat n) zero)
  ∧ int_of_uint64 n = n.
Proof.
  intros Hn Hfits. unfold makeSlice. rewrite Hfits. split; [done|].
  apply allocatable_spec in Hfits as [? _]; [|done].
  unfold int_of_uint64. destruct (Z.ltb_spec n (2 ^ 63)); [done | lia].
Qed.

(** [IsSolved] is [Solve] on zeroed vectors of the sizes [Solve] checks,
    when the runtime serves the four allocations: each count fits an [int]
    and its vector of elements fits [maxAlloc].  When one of the counts does
    not (in particular from 2^63 on, and from [maxAlloc] bytes on), the
    allocation panics.  So [IsSolved] never returns [InvalidInputSize]. *)
Theorem IsSolved_sizes maxAlloc r1cs assignment :
  0 ≤ NbConstraints r1cs < 2 ^ 64 → 0 ≤ NbWires r1cs < 2 ^ 64 →
  let zeros := replicate (Z.to_nat (NbConstraints r1cs)) fr_zero in
  let wires := replicate (Z.to_nat (NbWires r1cs)) fr_zero in
  let served n := n < 2 ^ 63 ∧ elementSize * n < 2 ^ 64 ∧ elementSize * n ≤ maxAlloc in
  (served (NbConstraints r1cs) → served (NbWires r1cs) →
   sizes_match r1cs zeros zeros zeros wires
   ∧ IsSolved maxAlloc r1cs assignment
     = (res ← Solve r1cs assignment zeros zeros zeros wires;
        Ret (res_err res, res_printed res)))
  ∧ (¬ served (NbConstraints r1cs) ∨ ¬ served (NbWires r1cs) →
     IsSolved maxAlloc r1cs assignment
     = Panic "runtime error: makeslice: len out of range")
  ∧ (∀ e printed, IsSolved maxAlloc r1cs assignment = Ret (e, printed) →
       e ≠ Some ErrInvalidInputSize
       ∧ ∃ res, Solve r1cs assignment zeros zeros zeros wires = Ret res
                ∧ e = res_err res ∧ printed = res_printed res).
Proof.
  intros HC HW zeros wires served.
  pose proof (allocatable_spec elementSize maxAlloc _ HC) as HsC.
  pose proof (allocatable_spec elementSize maxAlloc _ HW) as HsW.
  assert (Hrun : served (NbConstraints r1cs) → served (NbWires r1cs) →
            sizes_match r1cs zeros zeros zeros wires
            ∧ IsSolved maxAlloc r1cs assignment
              = (res ← Solve r1cs assignment zeros zeros zeros wires;
                 Ret (res_err res, res_printed res))).
  { intros HfC%HsC HfW%HsW.
    destruct (makeSlice_allocatable elementSize maxAlloc _ fr_zero HC HfC) as [HmC HiC].
    destruct (makeSlice_allocatable elementSize maxAlloc _ fr_zero HW HfW) as [HmW HiW].
    split.
    - unfold sizes_match, zeros, wires. rewrite HiC, HiW, !length_replicate. lia.
    - unfold IsSolved. rewrite HmC, HmW. reflexivity. }
  assert (Hpanic : ¬ served (NbConstraints r1cs) ∨ ¬ served (NbWires r1cs) →
            IsSolved maxAlloc r1cs assignment
            = Panic "runtime error: makeslice: len out of range").
  { intros Hnot. unfold IsSolved, makeSlice.
    destruct (allocatable elementSize maxAlloc (NbConstraints r1cs)) eqn:HfC;
      [|done]. simpl.
    destruct (allocatable elementSize maxAlloc (NbWires r1cs)) eqn:HfW; [|done].
    exfalso. destruct Hnot as [Hnot|Hnot]; apply Hnot; [by apply HsC | by apply HsW]. }
  split_and!; [exact Hrun | exact Hpanic |].
  intros e printed Hret.
  destruct (allocatable elementSize maxAlloc (NbConstraints r1cs)) eqn:HfC.
  2: { rewrite Hpanic in Hret; [discriminate|]. left. intros Hs%HsC. congruence. }
  destruct (allocatable elementSize maxAlloc (NbWires r1cs)) eqn:HfW.
  2: { rewrite Hpanic in Hret; [discriminate|]. right. intros Hs%HsW. congruence. }
  destruct Hrun as [Hsizes Heq]; [by apply HsC | by apply HsW |].
  rewrite Heq in Hret. bind_inv Hret. injection Hret as <- <-.
  split; [|by exists x]. intros He.
  destruct (Solve_error_kinds _ _ _ _ _ _ _ _ E He) as [[? _]|[_ [(? & ? & _)|(? & ?)]]];
    [done | discriminate..].
Qed.

(** ** Logs *)

Lemma resolveWires_Ret w inst : ∀ ids acc out,
  resolveWires ids w inst acc = Ret out
  ↔ ∃ vals,
      Forall2 (λ id v, 0 ≤ id ∧ inst !! Z.to_nat id = Some true
                       ∧ w !! Z.to_nat id = Some v) ids vals
      ∧ out = acc ++ (String <$> vals).
Proof.
  induction ids as [|id ids IH]; intros acc out; simpl.
  - split.
    + intros [= <-]. exists []. split; [constructor | by rewrite app_nil_r].
    + intros (vals & Hall & ->). apply Forall2_nil_inv_l in Hall as ->.
      by rewrite app_nil_r.
  - split.
    + intros Hrun. bind_inv Hrun. apply at_int_Ret in E as [Hpos Hinst].
      destruct x; simpl in Hrun; [|discriminate].
      bind_inv Hrun. apply at_int_Ret in E as [_ Hv].
      apply IH in Hrun as (vals & Hall & ->).
      exists (x :: vals). split; [by constructor|].
      by rewrite <- app_assoc.
    + intros (vals & Hall & ->).
      apply Forall2_cons_inv_l in Hall as (v & vals' & (Hpos & Hinst & Hv) & Hall & ->).
      rewrite (proj2 (at_int_Ret inst id true)) by done. simpl.
      rewrite (proj2 (at_int_Ret w id v)) by done. simpl.
      apply IH. exists vals'. split; [done|]. by rewrite <- app_assoc.
Qed.

(** [logValue] returns exactly when every wire the entry refers to is in
    range and instantiated, and then formats the values of these wires, in
    the order of the entry; an entry that refers to no wire always
    resolves. *)
Theorem logValue_resolves entry w inst s :
  logValue entry w inst = Ret s
  ↔ ∃ vals,
      Forall2 (λ id v, 0 ≤ id ∧ inst !! Z.to_nat id = Some true
                       ∧ w !! Z.to_nat id = Some v) (ToResolve entry) vals
      ∧ s = Sprintf (Format entry) (String <$> vals).
Proof.
  unfold logValue. split.
  - intros Hrun. bind_inv Hrun. injection Hrun as <-.
    apply resolveWires_Ret in E as (vals & Hall & ->). eauto.
  - intros (vals & Hall & ->).
    rewrite (proj2 (resolveWires_Ret w inst (ToResolve entry) [] (String <$> vals)));
      [done|eauto].
Qed.

Lemma printLogsFrom_Ret w inst : ∀ logs acc out,
  printLogsFrom logs w inst acc = Ret out
  ↔ ∃ lines, Forall2 (λ entry s, logValue entry w inst = Ret s) logs lines
             ∧ out = acc ++ lines.
Proof.
  induction logs as [|entry logs IH]; intros acc out; simpl.
  - split.
    + intros [= <-]. exists []. split; [constructor | by rewrite app_nil_r].
    + intros (lines & Hall & ->). apply Forall2_nil_inv_l in Hall as ->.
      by rewrite app_nil_r.
  - split.
    + intros Hrun. bind_inv Hrun. apply IH in Hrun as (lines & Hall & ->).
      exists (x :: lines). split; [by constructor | by rewrite <- app_assoc].
    + intros (lines & Hall & ->).
      apply Forall2_cons_inv_l in Hall as (s & lines' & Hs & Hall & ->).
      rewrite Hs. simpl. apply IH. exists lines'. split; [done|].
      by rewrite <- app_assoc.
Qed.

(** What [Solve] prints: nothing when it returns [InvalidInputSize] or
    [InputNotSet]; otherwise, on success as on [UnsatisfiedConstraint], one
    line per log entry, in declared order, each resolved over the wire values
    and the bitmap [Solve] ends with. *)
Theorem Solve_prints_logs r1cs assignment a b c wireValues res :
  Solve r1cs assignment a b c wireValues = Ret res →
  match res_err res with
  | Some ErrInvalidInputSize | Some (ErrInputNotSet _) => res_printed res = []
  | Some (ErrUnsatisfiedConstraint _) | None =>
      Forall2 (λ entry s,
                 logValue entry (buf_wireValues (res_buffers res))
                   (buf_wireInstantiated (res_buffers res)) = Ret s)
        (Logs r1cs) (res_printed res)
  end.
Proof.
  intros HS. unfold Solve in HS. destruct (_ || _); [by injection HS as <-|].
  bind_inv HS. destruct x as [[e1|] [w1 inst1]].
  - injection HS as <-. simpl.
    apply inputPhase_error in E as (name & -> & _). done.
  - bind_inv HS. destruct x as [err' st]. bind_inv HS. injection HS as <-. simpl.
    apply printLogsFrom_Ret in E1 as (lines & Hall & ->). simpl.
    assert (err' = None ∨ ∃ s, err' = Some (ErrUnsatisfiedConstraint s)) as [->|[s ->]];
      [|done..].
    destruct err' as [e|]; [right|by left].
    unfold solveBody in E0. bind_inv E0. destruct (_ <? 0); [discriminate|].
    apply checkLoop_error in E0 as (_ & _ & k & s & _ & -> & _). eauto.
Qed.

(** ** Linear combinations *)

Lemma reduced_mod x : reduced (x mod modulus).
Proof. unfold reduced. apply Zmod_mod. Qed.

Lemma reduced_zero : reduced fr_zero.
Proof. unfold reduced, fr_zero. apply Zmod_0_l. Qed.

(** [AddTerm] adds the integer product of coefficient and value, and reduces. *)
Lemma AddTerm_coeffZ r1cs res t v :
  reduced res →
  AddTerm r1cs res t v = (k ← coeffZ r1cs t; Ret ((res + k * v) mod modulus)).
Proof.
  intros Hres. unfold AddTerm, coeffZ. cbv zeta.
  destruct (CoeffValue t =? 1); [simpl; unfold Add; do 2 f_equal; lia|].
  destruct (CoeffValue t =? -1); [simpl; unfold Sub; do 2 f_equal; lia|].
  destruct (CoeffValue t =? 0).
  { simpl. f_equal. rewrite <- Hres at 1. f_equal. lia. }
  destruct (CoeffValue t =? 2).
  { simpl. unfold Add, Double. by rewrite Zplus_mod_idemp_r. }
  destruct (at_index (Coefficients r1cs) (CoeffID t)); simpl; [|done].
  unfold Add, Mul. by rewrite Zplus_mod_idemp_r.
Qed.

Lemma sumTerms_linearSum r1cs w : ∀ ts acc,
  reduced acc →
  sumTerms r1cs w ts acc
  = (s ← linearSum r1cs w ts; Ret ((acc + s) mod modulus)).
Proof.
  induction ts as [|t ts IH]; intros acc Hacc; simpl.
  - f_equal. rewrite Z.add_0_r. by rewrite Hacc.
  - unfold termValue. destruct (at_index w (ConstraintID t)) as [v|]; simpl; [|done].
    rewrite AddTerm_coeffZ by done.
    destruct (coeffZ r1cs t) as [k|]; simpl; [|done].
    rewrite IH by apply reduced_mod.
    destruct (linearSum r1cs w ts) as [s|]; simpl; [|done].
    f_equal. rewrite Zplus_mod_idemp_l. f_equal. lia.
Qed.

(** Each side of a constraint evaluates to its linear combination, the sum
    over its terms of coefficient times wire value, reduced modulo the field
    modulus; a term marked with one of the four well-known coefficients
    counts with that coefficient. *)
Theorem instantiateR1C_linear_combinations r r1cs w :
  (∀ ts, sumTerms r1cs w ts fr_zero
         = (s ← linearSum r1cs w ts; Ret (s mod modulus)))
  ∧ instantiateR1C r r1cs w
    = (a ← linearSum r1cs w (L r);
       b ← linearSum r1cs w (R r);
       c ← linearSum r1cs w (O r);
       Ret (a mod modulus, b mod modulus, c mod modulus)).
Proof.
  assert (Hsum : ∀ ts, sumTerms r1cs w ts fr_zero
                       = (s ← linearSum r1cs w ts; Ret (s mod modulus))).
  { intros ts. rewrite sumTerms_linearSum by apply reduced_zero.
    destruct (linearSum r1cs w ts); simpl; [|done]. by unfold fr_zero. }
  split; [exact Hsum|]. unfold instantiateR1C. rewrite !Hsum.
  destruct (linearSum r1cs w (L r)); simpl; [|done].
  destruct (linearSum r1cs w (R r)); simpl; [|done].
  by destruct (linearSum r1cs w (O r)).
Qed.

Lemma termValue_Panic r1cs w t msg :
  termValue r1cs w t = Panic msg → msg = index_out_of_range.
Proof.
  unfold termValue, coeffZ, at_index.
  destruct (w !! ConstraintID t); simpl; [|congruence].
  repeat (destruct (_ =? _); simpl; [discriminate|]).
  destruct (Coefficients r1cs !! CoeffID t); simpl; [discriminate | congruence].
Qed.

Lemma linearSum_Panic r1cs w : ∀ ts msg,
  linearSum r1cs w ts = Panic msg → msg = index_out_of_range.
Proof.
  induction ts as [|t ts IH]; intros msg; simpl; [discriminate|].
  destruct (termValue r1cs w t) eqn:Ht; simpl.
  - destruct (linearSum r1cs w ts); simpl; [discriminate|].
    intros [= <-]. by apply IH.
  - intros [= <-]. by eapply termValue_Panic.
Qed.

Lemma linearSum_perm r1cs w ts ts' :
  ts ≡ₚ ts' → linearSum r1cs w ts = linearSum r1cs w ts'.
Proof.
  induction 1 as [|t ts ts' _ IH|t1 t2 ts|ts1 ts2 ts3 _ IH1 _ IH2]; simpl.
  - done.
  - by rewrite IH.
  - destruct (termValue r1cs w t1) as [x1|m1] eqn:H1,
             (termValue r1cs w t2) as [x2|m2] eqn:H2; simpl.
    + destruct (linearSum r1cs w ts); simpl; [f_equal; lia | done].
    + done.
    + done.
    + apply termValue_Panic in H1, H2. congruence.
  - congruence.
Qed.

(** The order of the terms in a side does not matter: constraints whose
    sides are permutations of each other evaluate alike: to the same
    values, or both panic on an index out of range. *)
Theorem instantiateR1C_permutation r r' r1cs w :
  L r' ≡ₚ L r → R r' ≡ₚ R r → O r' ≡ₚ O r →
  instantiateR1C r' r1cs w = instantiateR1C r r1cs w.
Proof.
  intros HL HR HO. unfold instantiateR1C.
  rewrite !sumTerms_linearSum by apply reduced_zero.
  by rewrite (linearSum_perm _ _ _ _ HL), (linearSum_perm _ _ _ _ HR),
    (linearSum_perm _ _ _ _ HO).
Qed.

(** The fast paths of [AddTerm] and [mulWireByCoeff] compute what the
    table path computes when the table holds the well-known constant: a term
    marked 1, -1, 0 or 2 gives the same result as an unmarked term whose
    table entry is that constant's residue. *)
Theorem fast_path_agrees_with_table r1cs res t t' v k :
  k = 1 ∨ k = -1 ∨ k = 0 ∨ k = 2 →
  CoeffValue t = k →
  CoeffValue t' ≠ 1 → CoeffValue t' ≠ -1 → CoeffValue t' ≠ 0 → CoeffValue t' ≠ 2 →
  Coefficients r1cs !! CoeffID t' = Some (k mod modulus) →
  reduced res →
  AddTerm r1cs res t v = AddTerm r1cs res t' v
  ∧ mulWireByCoeff r1cs res t = mulWireByCoeff r1cs res t'.
Proof.
  intros Hk Ht H1 H2 H3 H4 Htable Hres.
  assert (Hadd : AddTerm r1cs res t' v = Ret ((res + k * v) mod modulus)).
  { unfold AddTerm. cbv zeta.
    rewrite (proj2 (Z.eqb_neq _ _) H1), (proj2 (Z.eqb_neq _ _) H2),
      (proj2 (Z.eqb_neq _ _) H3), (proj2 (Z.eqb_neq _ _) H4).
    rewrite (proj2 (at_index_Ret (Coefficients r1cs) _ _) Htable). simpl. unfold Add, Mul.
    by rewrite Zmult_mod_idemp_l, Zplus_mod_idemp_r. }
  assert (Hmul : mulWireByCoeff r1cs res t' = Ret ((res * k) mod modulus)).
  { unfold mulWireByCoeff. cbv zeta.
    rewrite (proj2 (Z.eqb_neq _ _) H1), (proj2 (Z.eqb_neq _ _) H2),
      (proj2 (Z.eqb_neq _ _) H3), (proj2 (Z.eqb_neq _ _) H4).
    rewrite (proj2 (at_index_Ret (Coefficients r1cs) _ _) Htable). simpl. unfold Mul.
    by rewrite Zmult_mod_idemp_r. }
  rewrite Hadd, Hmul. unfold AddTerm, mulWireByCoeff. cbv zeta. rewrite Ht.
  unfold reduced in Hres.
  destruct Hk as [-> | [-> | [-> | ->]]]; simpl; unfold Add, Sub, Neg, Double, fr_zero.
  - split; do 2 f_equal; [lia|]. rewrite Z.mul_1_r. done.
  - split; do 2 f_equal; lia.
  - split; f_equal; [rewrite Z.add_0_r|rewrite Z.mul_0_r, Zmod_0_l]; done.
  - split; [by rewrite Zplus_mod_idemp_r|do 2 f_equal; lia].
Qed.

(** ** Solving a single-output constraint makes it hold *)

#[local] Existing Instances eqm_setoid Zplus_eqm Zminus_eqm Zmult_eqm Zopp_eqm.

(** Proves [x mod modulus = y mod modulus] when [x] and [y] are equal as
    polynomials once the inner reductions are dropped. *)
Ltac mod_ring :=
  match goal with
  | |- ?x mod ?q = ?y mod ?q =>
      change (eqm q x y); repeat rewrite Zmod_eqm; unfold eqm; f_equal; ring
  end.

Lemma linearSum_app r1cs w ts1 ts2 :
  linearSum r1cs w (ts1 ++ ts2)
  = (x ← linearSum r1cs w ts1; y ← linearSum r1cs w ts2; Ret (x + y)).
Proof.
  induction ts1 as [|t ts1 IH]; simpl.
  - by destruct (linearSum r1cs w ts2).
  - destruct (termValue r1cs w t); simpl; [|done]. rewrite IH.
    destruct (linearSum r1cs w ts1); simpl; [|done].
    destruct (linearSum r1cs w ts2); simpl; [|done]. f_equal. lia.
Qed.

Lemma linearSum_agree r1cs (w w' : list Element) ts :
  Forall (λ t, w' !! ConstraintID t = w !! ConstraintID t) ts →
  linearSum r1cs w' ts = linearSum r1cs w ts.
Proof.
  induction 1 as [|t ts Ht _ IH]; simpl; [done|].
  unfold termValue, at_index. by rewrite Ht, IH.
Qed.

(** Writing an uninstantiated wire does not touch the instantiated ones. *)
Lemma instantiated_untouched inst (w : list Element) u x ts :
  inst !! u = Some false → all_instantiated inst ts →
  Forall (λ t, <[u:=x]> w !! ConstraintID t = w !! ConstraintID t) ts.
Proof.
  intros Hu Hall. eapply Forall_impl; [exact Hall|]. simpl. intros t Ht.
  apply list_lookup_insert_ne. congruence.
Qed.

Lemma sumTerms_Ret_linear r1cs w ts c :
  sumTerms r1cs w ts fr_zero = Ret c →
  ∃ s, linearSum r1cs w ts = Ret s ∧ c = s mod modulus.
Proof.
  rewrite sumTerms_linearSum by apply reduced_zero. intros Hsum.
  bind_inv Hsum. exists x. split; [done|]. injection Hsum as <-. done.
Qed.

(** The side that holds the term to compute, evaluated once the wire has
    the value [x]. *)
Lemma sumTerms_with_unknown r1cs inst w ts1 t ts2 k x s :
  all_instantiated inst ts1 → all_instantiated inst ts2 →
  inst !! ConstraintID t = Some false →
  (ConstraintID t < length w)%nat →
  coeffZ r1cs t = Ret k →
  linearSum r1cs w (ts1 ++ ts2) = Ret s →
  sumTerms r1cs (<[ConstraintID t := x]> w) (ts1 ++ t :: ts2) fr_zero
  = Ret ((s + k * x) mod modulus).
Proof.
  intros H1 H2 Hu Hlt Hk Hs.
  rewrite sumTerms_linearSum by apply reduced_zero.
  rewrite linearSum_app in Hs |- *. simpl.
  rewrite (linearSum_agree _ w _ ts1) by by eapply instantiated_untouched.
  rewrite (linearSum_agree _ w _ ts2) by by eapply instantiated_untouched.
  bind_inv Hs. bind_inv Hs. injection Hs as <-.
  rewrite E. simpl. unfold termValue. rewrite at_index_insert by done. simpl.
  rewrite Hk. simpl. rewrite E0. simpl. unfold fr_zero. do 2 f_equal. lia.
Qed.

(** A term marked 1 or -1: its coefficient, and what [mulWireByCoeff] stores. *)
Lemma unit_coefficient r1cs t y :
  CoeffValue t = 1 ∨ CoeffValue t = -1 →
  ∃ k x, coeffZ r1cs t = Ret k ∧ mulWireByCoeff r1cs y t = Ret x
         ∧ (k * x) mod modulus = y mod modulus.
Proof.
  unfold coeffZ, mulWireByCoeff. cbv zeta. intros [-> | ->]; simpl.
  - exists 1, y. split_and!; [done..|]. f_equal. lia.
  - exists (-1), (Neg y). split_and!; [done..|]. unfold Neg. mod_ring.
Qed.

Lemma solveR1C_unknown_in_R r1cs r inst w ts1 t ts2 a b c :
  Solver r = SingleOutput →
  R r = ts1 ++ t :: ts2 →
  all_instantiated inst (L r) →
  all_instantiated inst ts1 → all_instantiated inst ts2 →
  all_instantiated inst (O r) →
  inst !! ConstraintID t = Some false →
  sumTerms r1cs w (L r) fr_zero = Ret a →
  sumTerms r1cs w (ts1 ++ ts2) fr_zero = Ret b →
  sumTerms r1cs w (O r) fr_zero = Ret c →
  (ConstraintID t < length w)%nat →
  solveR1C r1cs r inst w
  = if IsZero a then Ret (<[ConstraintID t := true]> inst, w)
    else
      x ← mulWireByCoeff r1cs (Sub (Div c a) b) t;
      Ret (<[ConstraintID t := true]> inst, <[ConstraintID t := x]> w).
Proof.
  intros HS HR HL H1 H2 HO Ht Ha Hb Hc Hlen.
  unfold solveR1C, solveSingleOutput. rewrite HS, HR.
  rewrite (processTerms_instantiated _ _ _ _ _ _ _ a) by done. simpl.
  rewrite (processTerms_one_unknown _ _ _ _ _ _ _ _ _ b) by done. simpl.
  rewrite (processTerms_instantiated _ _ _ _ _ _ _ c) by done. simpl.
  apply lookup_lt_Some in Ht as Hlt.
  rewrite (set_index_lt inst) by done.
  destruct (IsZero a); cbn [negb]; [done|].
  rewrite (set_index_lt w) by done. simpl.
  rewrite at_index_insert by done. simpl.
  rewrite set_index_lt by (by rewrite length_insert). simpl.
  rewrite at_index_insert by (by rewrite length_insert). simpl.
  destruct (mulWireByCoeff r1cs (Sub (Div c a) b) t); simpl; [|done].
  rewrite set_index_lt by (by rewrite !length_insert). simpl.
  by rewrite !list_insert_insert_eq.
Qed.

Lemma solveR1C_unknown_in_O r1cs r inst w ts1 t ts2 a b c :
  Solver r = SingleOutput →
  O r = ts1 ++ t :: ts2 →
  all_instantiated inst (L r) → all_instantiated inst (R r) →
  all_instantiated inst ts1 → all_instantiated inst ts2 →
  inst !! ConstraintID t = Some false →
  sumTerms r1cs w (L r) fr_zero = Ret a →
  sumTerms r1cs w (R r) fr_zero = Ret b →
  sumTerms r1cs w (ts1 ++ ts2) fr_zero = Ret c →
  (ConstraintID t < length w)%nat →
  solveR1C r1cs r inst w
  = (x ← mulWireByCoeff r1cs (Sub (Mul a b) c) t;
     Ret (<[ConstraintID t := true]> inst, <[ConstraintID t := x]> w)).
Proof.
  intros HS HO HL HR H1 H2 Ht Ha Hb Hc Hlen.
  unfold solveR1C, solveSingleOutput. rewrite HS, HO.
  rewrite (processTerms_instantiated _ _ _ _ _ _ _ a) by done. simpl.
  rewrite (processTerms_instantiated _ _ _ _ _ _ _ b) by done. simpl.
  rewrite (processTerms_one_unknown _ _ _ _ _ _ _ _ _ c) by done. simpl.
  apply lookup_lt_Some in Ht as Hlt.
  rewrite (set_index_lt inst) by done.
  rewrite (set_index_lt w) by done. simpl.
  rewrite at_index_insert by done. simpl.
  rewrite set_index_lt by (by rewrite length_insert). simpl.
  rewrite at_index_insert by (by rewrite length_insert). simpl.
  destruct (mulWireByCoeff r1cs (Sub (Mul a b) c) t); simpl; [|done].
  rewrite set_index_lt by (by rewrite !length_insert). simpl.
  by rewrite !list_insert_insert_eq.
Qed.

(** The unknown wire in [O], under coefficient 1 or -1: [solveR1C] stores
    the value that makes the constraint hold.  Evaluated again, [L] and [R]
    are unchanged and [O] is their product, so the check [Solve] runs after
    solving passes. *)
Theorem solveR1C_solves_for_output r1cs r inst w ts1 t ts2 a b c :
  Solver r = SingleOutput →
  O r = ts1 ++ t :: ts2 →
  all_instantiated inst (L r) → all_instantiated inst (R r) →
  all_instantiated inst ts1 → all_instantiated inst ts2 →
  inst !! ConstraintID t = Some false →
  CoeffValue t = 1 ∨ CoeffValue t = -1 →
  sumTerms r1cs w (L r) fr_zero = Ret a →
  sumTerms r1cs w (R r) fr_zero = Ret b →
  sumTerms r1cs w (ts1 ++ ts2) fr_zero = Ret c →
  (ConstraintID t < length w)%nat →
  ∃ x,
    solveR1C r1cs r inst w
    = Ret (<[ConstraintID t := true]> inst, <[ConstraintID t := x]> w)
    ∧ instantiateR1C r r1cs (<[ConstraintID t := x]> w) = Ret (a, b, Mul a b).
Proof.
  intros HS HO HL HR H1 H2 Hu Hunit Ha Hb Hc Hlt.
  destruct (unit_coefficient r1cs t (Sub (Mul a b) c) Hunit) as (k & x & Hk & Hx & Hkx).
  exists x. split.
  - rewrite (solveR1C_unknown_in_O _ _ _ _ ts1 t ts2 a b c) by done.
    by rewrite Hx.
  - destruct (sumTerms_Ret_linear _ _ _ _ Hc) as (s & Hs & ->).
    unfold instantiateR1C.
    rewrite (sumTerms_agree _ w _ (L r)) by by eapply instantiated_untouched.
    rewrite (sumTerms_agree _ w _ (R r)) by by eapply instantiated_untouched.
    rewrite Ha, Hb, HO. simpl.
    rewrite (sumTerms_with_unknown _ inst _ _ _ _ k x s) by done. simpl.
    do 2 f_equal. rewrite <- Zplus_mod_idemp_r, Hkx, Zplus_mod_idemp_r.
    unfold Sub, Mul. mod_ring.
Qed.

(** The unknown wire in [L] or in [R], under coefficient 1 or -1, when the
    other of the two sides is not zero and [Inverse] inverts it: [solveR1C]
    stores the value that makes the constraint hold.  Evaluated again, the
    side that was known and [O] are unchanged, and the product of the two
    sides is [O]. *)
Theorem solveR1C_solves_for_factor r1cs r inst w ts1 t ts2 a b c :
  Solver r = SingleOutput →
  all_instantiated inst ts1 → all_instantiated inst ts2 →
  all_instantiated inst (O r) →
  inst !! ConstraintID t = Some false →
  CoeffValue t = 1 ∨ CoeffValue t = -1 →
  sumTerms r1cs w (O r) fr_zero = Ret c →
  (ConstraintID t < length w)%nat →
  (L r = ts1 ++ t :: ts2 → all_instantiated inst (R r) →
   sumTerms r1cs w (ts1 ++ ts2) fr_zero = Ret a →
   sumTerms r1cs w (R r) fr_zero = Ret b →
   b ≠ 0 → Mul b (Inverse b) = 1 →
   ∃ x a',
     solveR1C r1cs r inst w
     = Ret (<[ConstraintID t := true]> inst, <[ConstraintID t := x]> w)
     ∧ instantiateR1C r r1cs (<[ConstraintID t := x]> w) = Ret (a', b, c)
     ∧ Mul a' b = c)
  ∧ (R r = ts1 ++ t :: ts2 → all_instantiated inst (L r) →
     sumTerms r1cs w (L r) fr_zero = Ret a →
     sumTerms r1cs w (ts1 ++ ts2) fr_zero = Ret b →
     a ≠ 0 → Mul a (Inverse a) = 1 →
     ∃ x b',
       solveR1C r1cs r inst w
       = Ret (<[ConstraintID t := true]> inst, <[ConstraintID t := x]> w)
       ∧ instantiateR1C r r1cs (<[ConstraintID t := x]> w) = Ret (a, b', c)
       ∧ Mul a b' = c).
Proof.
  intros HS H1 H2 HO Hu Hunit Hc Hlt.
  destruct (sumTerms_Ret_linear _ _ _ _ Hc) as (sc & _ & Hcs).
  (* the algebra shared by the two cases: [known] is the side that was
     known, [s] the integer sum of the known terms of the other side *)
  assert (Halg : ∀ known s y,
            Mul known (Inverse known) = 1 →
            y = Sub (Div c known) (s mod modulus) →
            ((s + y) mod modulus * known) mod modulus = c).
  { intros known s y Hinv ->. rewrite Hcs.
    assert (Hone : eqm modulus (known * Inverse known) 1).
    { unfold eqm. unfold Mul in Hinv. rewrite Hinv.
      rewrite <- Hinv at 2. by rewrite Zmod_mod. }
    unfold Sub, Div, Mul.
    change (eqm modulus
              ((s + ((sc mod modulus * Inverse known) mod modulus - s mod modulus)
                    mod modulus) mod modulus * known) sc).
    repeat rewrite Zmod_eqm.
    transitivity (sc * (known * Inverse known)); [unfold eqm; f_equal; ring|].
    rewrite Hone. unfold eqm. f_equal. ring. }
  split.
  - intros HL HR Ha Hb Hnz Hinv.
    destruct (unit_coefficient r1cs t (Sub (Div c b) a) Hunit) as (k & x & Hk & Hx & Hkx).
    destruct (sumTerms_Ret_linear _ _ _ _ Ha) as (s & Hs & ->).
    exists x, ((s + k * x) mod modulus). split_and!.
    + rewrite (solveR1C_unknown_in_L _ _ _ _ ts1 t ts2 (s mod modulus) b c) by done.
      unfold IsZero. rewrite (proj2 (Z.eqb_neq _ _) Hnz). by rewrite Hx.
    + unfold instantiateR1C. rewrite HL.
      rewrite (sumTerms_with_unknown _ inst _ _ _ _ k x s) by done. simpl.
      rewrite (sumTerms_agree _ w _ (R r)) by by eapply instantiated_untouched.
      rewrite (sumTerms_agree _ w _ (O r)) by by eapply instantiated_untouched.
      by rewrite Hb, Hc.
    + unfold Mul at 1. rewrite <- Zplus_mod_idemp_r, Hkx, Zplus_mod_idemp_r.
      by apply Halg.
  - intros HR HL Ha Hb Hnz Hinv.
    destruct (unit_coefficient r1cs t (Sub (Div c a) b) Hunit) as (k & x & Hk & Hx & Hkx).
    destruct (sumTerms_Ret_linear _ _ _ _ Hb) as (s & Hs & ->).
    exists x, ((s + k * x) mod modulus). split_and!.
    + rewrite (solveR1C_unknown_in_R _ _ _ _ ts1 t ts2 a (s mod modulus) c) by done.
      unfold IsZero. rewrite (proj2 (Z.eqb_neq _ _) Hnz). by rewrite Hx.
    + unfold instantiateR1C. rewrite HR.
      rewrite (sumTerms_agree _ w _ (L r)) by by eapply instantiated_untouched.
      rewrite Ha. simpl.
      rewrite (sumTerms_with_unknown _ inst _ _ _ _ k x s) by done. simpl.
      rewrite (sumTerms_agree _ w _ (O r)) by by eapply instantiated_untouched.
      by rewrite Hc.
    + unfold Mul at 1. rewrite Z.mul_comm.
      rewrite <- Zplus_mod_idemp_r, Hkx, Zplus_mod_idemp_r.
      by apply Halg.
Qed.

(** ** The binary decomposition rebuilds the value *)

Lemma low_bits_step n m :
  0 ≤ m → n mod 2 ^ (m + 1) = n mod 2 ^ m + 2 ^ m * Z.b2z (Z.testbit n m).
Proof.
  intros Hm. rewrite Z.pow_add_r, Z.pow_1_r by lia.
  rewrite Z.testbit_spec' by lia. rewrite Z.rem_mul_r; lia.
Qed.

(** Terms that carry, in order, the bits [i], [i + 1], ... of [n] under the
    matching powers of two sum up to that slice of [n]. *)
Lemma linearSum_bits r1cs w n : ∀ ts i,
  (∀ j t, ts !! j = Some t →
     termValue r1cs w t = Ret (2 ^ Z.of_nat (i + j) * bitOf n (i + j))) →
  linearSum r1cs w ts
  = Ret (n mod 2 ^ Z.of_nat (i + length ts) - n mod 2 ^ Z.of_nat i).
Proof.
  induction ts as [|t ts IH]; intros i Hts; simpl.
  - f_equal. rewrite Nat.add_0_r. lia.
  - rewrite (Hts 0%nat t eq_refl). simpl.
    rewrite (IH (S i)).
    2: { intros j t' Hj. rewrite (Hts (S j) t' Hj). do 3 f_equal; lia. }
    simpl. f_equal. rewrite Nat.add_0_r.
    replace (Z.of_nat (S i)) with (Z.of_nat i + 1) by lia.
    replace (S (i + length ts)) with (i + S (length ts))%nat by lia.
    rewrite (low_bits_step n (Z.of_nat i)) by lia. unfold bitOf. lia.
Qed.

Lemma bit_position_of_power (k : nat) :
  (N.size_nat (Z.to_N (2 ^ Z.of_nat k)) - 1)%nat = k.
Proof.
  pose proof (quickLog_bit_length (Z.to_N (2 ^ Z.of_nat k))) as Hlen.
  rewrite Z2N.inj_pow in Hlen by lia.
  replace (Z.to_N (Z.of_nat k)) with (N.of_nat k) in Hlen by lia.
  change (Z.to_N 2) with 2%N in Hlen. rewrite quickLog_pow2 in Hlen.
  rewrite Z2N.inj_pow by lia.
  replace (Z.to_N (Z.of_nat k)) with (N.of_nat k) by lia.
  change (Z.to_N 2) with 2%N. lia.
Qed.

(** When the terms of [L], in some order, carry the coefficients
    [1, 2, 4, ...] on distinct wires, the wires the binary decomposition
    writes rebuild the value of [O]: [L] then evaluates to the low
    [len(L)] bits of that value (to the value itself when it fits). *)
Theorem binaryDec_rebuilds_value r1cs r inst w inst' w' sorted :
  1 < modulus →
  Solver r = BinaryDec →
  NoDup (ConstraintID <$> L r) →
  L r ≡ₚ sorted →
  (∀ k t, sorted !! k = Some t →
     Coefficients r1cs !! CoeffID t = Some (2 ^ Z.of_nat k)
     ∧ coeffZ r1cs t = Ret (2 ^ Z.of_nat k)) →
  solveR1C r1cs r inst w = Ret (inst', w') →
  ∃ n, sumTerms r1cs w (O r) fr_zero = Ret n
    ∧ sumTerms r1cs w' (L r) fr_zero
      = Ret ((n mod 2 ^ Z.of_nat (length (L r))) mod modulus)
    ∧ (0 ≤ n < 2 ^ Z.of_nat (length (L r)) →
       sumTerms r1cs w' (L r) fr_zero = Ret n).
Proof.
  intros Hq HS Hnd Hperm Hsorted Hrun.
  unfold solveR1C in Hrun. rewrite HS in Hrun.
  destruct (solveBinaryDec_Ret _ _ _ _ _ _ Hnd Hrun) as (n & Hn & Hterms & _).
  exists n. split; [done|].
  assert (Hsum : sumTerms r1cs w' (L r) fr_zero
                 = Ret ((n mod 2 ^ Z.of_nat (length (L r))) mod modulus)).
  { rewrite sumTerms_linearSum by apply reduced_zero.
    rewrite (linearSum_perm _ _ _ _ Hperm), (linearSum_bits r1cs w' n sorted 0).
    - simpl. rewrite Hperm. do 2 f_equal. change (2 ^ Z.of_nat 0) with 1.
      rewrite Z.mod_1_r. unfold fr_zero. lia.
    - intros j t Hj. simpl. destruct (Hsorted j t Hj) as [Htable Hcoeff].
      destruct (Hterms t) as (coef & Hc & _ & Hw & _).
      { rewrite Hperm. by eapply list_elem_of_lookup_2. }
      assert (Heq : Some coef = Some (2 ^ Z.of_nat j))
        by (rewrite <- Hc; exact Htable).
      injection Heq as ->.
      unfold ToBigIntRegular in Hw. rewrite bit_position_of_power in Hw.
      unfold termValue. rewrite (proj2 (at_index_Ret w' _ _) Hw). simpl.
      rewrite Hcoeff. simpl. do 2 f_equal. unfold SetUint64.
      apply Z.mod_small. unfold bitOf. destruct (Z.testbit n (Z.of_nat j)); simpl; lia. }
  split; [done|]. intros Hfits. rewrite Hsum. f_equal.
  rewrite (Z.mod_small n) by done.
  destruct (sumTerms_Ret_linear _ _ _ _ Hn) as (s & _ & ->). apply Zmod_mod.
Qed.

(** ** The input phase *)

Lemma instantiateInputsFrom_lengths assignment offset : ∀ names i w inst err w' inst',
  instantiateInputsFrom assignment offset i names w inst = Ret (err, (w', inst')) →
  length w' = length w ∧ length inst' = length inst.
Proof.
  induction names as [|name rest IH]; intros i w inst err w' inst' Hrun; simpl in Hrun.
  - by injection Hrun as _ <- <-.
  - assert (Hstep : ∀ v,
      (wireValues' ← set_int w (Z.of_nat i + offset) v;
       wireInstantiated' ← set_int inst (Z.of_nat i + offset) true;
       instantiateInputsFrom assignment offset (S i) rest wireValues' wireInstantiated')
      = Ret (err, (w', inst')) →
      length w' = length w ∧ length inst' = length inst).
    { intros v Hv. bind_inv Hv. bind_inv Hv.
      apply set_int_Ret in E as [_ ->], E0 as [_ ->].
      destruct (IH _ _ _ _ _ _ Hv) as [-> ->]. by rewrite !length_insert. }
    case_bool_decide; [by eapply Hstep|].
    destruct (assignment !! name); [by eapply Hstep|].
    by injection Hrun as _ <- <-.
Qed.

Lemma instantiateInputsFrom_provided assignment offset : ∀ names i w inst st,
  instantiateInputsFrom assignment offset i names w inst = Ret (None, st) →
  Forall (provided assignment) names.
Proof.
  induction names as [|name rest IH]; intros i w inst st Hrun; simpl in Hrun;
    [apply Forall_nil_2|].
  case_bool_decide as Hone.
  - bind_inv Hrun. bind_inv Hrun. apply Forall_cons_2; [by left | by eapply IH].
  - destruct (assignment !! name) as [v|] eqn:Hname; [|discriminate].
    bind_inv Hrun. bind_inv Hrun.
    apply Forall_cons_2; [right; by rewrite Hname | by eapply IH].
Qed.

Lemma instantiateInputsFrom_returns assignment offset : ∀ names i w inst,
  Forall (provided assignment) names →
  0 ≤ Z.of_nat i + offset →
  Z.of_nat i + offset + Z.of_nat (length names) ≤ Z.of_nat (length w) →
  length inst = length w →
  ∃ w' inst',
    instantiateInputsFrom assignment offset i names w inst = Ret (None, (w', inst')).
Proof.
  induction names as [|name rest IH]; intros i w inst Hall Hlo Hhi Hlen; simpl;
    [eauto|].
  apply Forall_cons in Hall as [Hname Hall]. simpl in Hhi.
  assert (Hstep : ∀ v,
    ∃ w' inst',
      (wireValues' ← set_int w (Z.of_nat i + offset) v;
       wireInstantiated' ← set_int inst (Z.of_nat i + offset) true;
       instantiateInputsFrom assignment offset (S i) rest wireValues' wireInstantiated')
      = Ret (None, (w', inst'))).
  { intros v. rewrite !set_int_in_range by lia. simpl.
    apply IH; try done; rewrite ?length_insert; lia. }
  case_bool_decide as Hone; [apply Hstep|].
  destruct Hname as [?|[v ->]]; [done | apply Hstep].
Qed.

(** With well-formed counts and a wire vector of the declared size, the
    input phase reports no error exactly when every declared name, secret or
    public, is the constant wire's or has a value in the assignment; it does
    not panic then. *)
Theorem inputPhase_succeeds_iff_provided r1cs assignment w inst :
  well_formed_inputs r1cs →
  Z.of_nat (length w) = NbWires r1cs →
  length inst = length w →
  (∃ w' inst', inputPhase r1cs assignment w inst = Ret (None, (w', inst')))
  ↔ Forall (provided assignment) (SecretWires r1cs ++ PublicWires r1cs).
Proof.
  intros Hwf Hw Hinst. rewrite inputPhase_concat by done. unfold instantiateInputs.
  destruct Hwf as (HS & HP & Hfit). split.
  - intros (w' & inst' & Hrun). by eapply instantiateInputsFrom_provided.
  - intros Hall. apply instantiateInputsFrom_returns; try done; try lia.
    rewrite length_app. lia.
Qed.

(** After an input phase without error, on well-formed counts: the [k]-th
    name of the secret names followed by the public names has its wire, at
    the start of the input range plus [k], marked instantiated and holding
    1 for the constant wire's name and the assigned value, reduced, for any
    other; the wires below the input range are untouched and the two
    vectors keep their lengths. *)
Theorem inputPhase_sets_input_wires r1cs assignment w inst w' inst' :
  well_formed_inputs r1cs →
  inputPhase r1cs assignment w inst = Ret (None, (w', inst')) →
  let offset := NbWires r1cs - NbPublicWires r1cs - NbSecretWires r1cs in
  (∀ k name, (SecretWires r1cs ++ PublicWires r1cs) !! k = Some name →
     inst' !! Z.to_nat (offset + Z.of_nat k) = Some true
     ∧ ((name = OneWire ∧ w' !! Z.to_nat (offset + Z.of_nat k) = Some 1)
        ∨ (name ≠ OneWire
           ∧ ∃ v, assignment !! name = Some v
                  ∧ w' !! Z.to_nat (offset + Z.of_nat k) = Some (SetInterface v))))
  ∧ (∀ idx, Z.of_nat idx < offset →
       w' !! idx = w !! idx ∧ inst' !! idx = inst !! idx)
  ∧ length w' = length w ∧ length inst' = length inst.
Proof.
  intros Hwf Hrun offset. rewrite inputPhase_concat in Hrun by done.
  fold offset in Hrun. unfold instantiateInputs in Hrun.
  destruct (instantiateInputsFrom_values _ _ _ _ _ _ _ _ Hrun) as [Hin Hout].
  pose proof (instantiateInputsFrom_provided _ _ _ _ _ _ _ Hrun) as Hall.
  destruct (instantiateInputsFrom_lengths _ _ _ _ _ _ _ _ _ Hrun) as [Hlw Hli].
  split_and!; [|intros idx Hidx; apply Hout; lia|done..].
  intros k name Hk. destruct (Hin k name Hk) as (_ & Hi & Hv). simpl in Hi, Hv.
  replace (Z.of_nat k + offset) with (offset + Z.of_nat k) in Hi, Hv by lia.
  split; [done|].
  rewrite Forall_forall in Hall.
  destruct (decide (name = OneWire)) as [Hone|Hone].
  - left. rewrite bool_decide_eq_true_2 in Hv by done. done.
  - right. rewrite bool_decide_eq_false_2 in Hv by done. split; [done|].
    destruct (Hall name) as [?|[v Hname]]; [by eapply list_elem_of_lookup_2 | done |].
    exists v. rewrite Hname in Hv. done.
Qed.

(** ** What solving writes *)

(** The three writes to [wireValues[cID]] of a branch of [solveR1C] amount
    to one. *)
Lemma compute_wire_Ret r1cs (w w' : list Element) u v d t :
  (w1 ← set_index w u v;
   x1 ← at_index w1 u;
   w2 ← set_index w1 u (Sub x1 d);
   x2 ← at_index w2 u;
   x3 ← mulWireByCoeff r1cs x2 t;
   set_index w2 u x3) = Ret w' →
  ∃ x, w' = <[u:=x]> w.
Proof.
  intros Hc. bind_inv Hc. bind_inv Hc. bind_inv Hc. bind_inv Hc. bind_inv Hc.
  apply set_index_Ret in E as [_ ->], E1 as [_ ->], Hc as [_ ->].
  exists x3. by rewrite !list_insert_insert_eq.
Qed.

(** A single-output constraint on which [solveR1C] returns either had all
    its wires instantiated, and nothing changed; or had exactly one wire
    not instantiated, and this wire alone is marked and, at most, written:
    no instantiated wire ever changes value. *)
Theorem solveR1C_single_output_writes_one_wire r1cs r inst w inst' w' :
  Solver r = SingleOutput →
  solveR1C r1cs r inst w = Ret (inst', w') →
  (all_instantiated inst (L r ++ R r ++ O r) ∧ inst' = inst ∧ w' = w)
  ∨ ∃ u, inst !! u = Some false
      ∧ Forall (λ t, inst !! ConstraintID t = Some true ∨ ConstraintID t = u)
          (L r ++ R r ++ O r)
      ∧ inst' = <[u:=true]> inst
      ∧ (w' = w ∨ ∃ x, w' = <[u:=x]> w).
Proof.
  intros HS Hrun. unfold solveR1C in Hrun. rewrite HS in Hrun.
  unfold solveSingleOutput in Hrun.
  bind_inv Hrun. destruct x as [f1 a].
  bind_inv Hrun. destruct x as [f2 b].
  bind_inv Hrun. destruct x as [f3 c].
  apply processTerms_found in E as [_ HL]; [|done].
  apply processTerms_found in E0 as [HR1 HR0]; [|done].
  apply processTerms_found in E1 as [HO1 HO0]; [|done].
  specialize (HL eq_refl). simpl in HL.
  assert (Hleft : ∀ ts u, all_instantiated inst ts →
            Forall (λ t, inst !! ConstraintID t = Some true
                         ∨ ConstraintID t = u) ts).
  { intros ts u Hall. eapply Forall_impl; [exact Hall|]. simpl. auto. }
  assert (Hwires : (loc f3 = 0 ∧ all_instantiated inst (L r ++ R r ++ O r))
            ∨ (loc f3 ≠ 0
               ∧ inst !! ConstraintID (termToCompute f3) = Some false
               ∧ Forall (λ t, inst !! ConstraintID t = Some true
                              ∨ ConstraintID t = ConstraintID (termToCompute f3))
                   (L r ++ R r ++ O r))).
  { destruct HL as [[-> HL]|(Hl1 & Hu1 & HL)].
    - destruct (HR0 eq_refl) as [[-> HR]|(Hl2 & Hu2 & HR)].
      + destruct (HO0 eq_refl) as [[-> HO]|(Hl3 & Hu3 & HO)].
        * left. split; [done|]. by repeat apply Forall_app_2.
        * right. split_and!; [done..|]. repeat apply Forall_app_2; auto.
      + destruct (HO1 Hl2) as [-> HO]. right. split_and!; [done..|].
        repeat apply Forall_app_2; auto.
    - destruct (HR1 Hl1) as [-> HR]. destruct (HO1 Hl1) as [-> HO].
      right. split_and!; [done..|]. repeat apply Forall_app_2; auto. }
  destruct Hwires as [[Hz Hall]|(Hnz & Hu & Hall)].
  - left. rewrite Hz in Hrun. simpl in Hrun. by injection Hrun as <- <-.
  - right. exists (ConstraintID (termToCompute f3)).
    destruct (Z.eqb_spec (loc f3) 0) as [|_]; [done|]. simpl in Hrun.
    bind_inv Hrun. bind_inv Hrun. injection Hrun as <- <-.
    apply set_index_Ret in E0 as [_ ->]. split_and!; [done..|].
    destruct (loc f3 =? 1).
    { destruct (negb (IsZero b)); [right; by eapply compute_wire_Ret|].
      left. by injection E as <-. }
    destruct (loc f3 =? 2).
    { destruct (negb (IsZero a)); [right; by eapply compute_wire_Ret|].
      left. by injection E as <-. }
    destruct (loc f3 =? 3); [right; by eapply compute_wire_Ret|].
    left. by injection E as <-.
Qed.

Lemma solveStep_keeps_instantiated r1cs i st st' r :
  solveStep r1cs i st = Ret st' →
  Constraints r1cs !! i = Some r → Solver r = SingleOutput →
  ∀ k, buf_wireInstantiated st !! k = Some true →
       buf_wireInstantiated st' !! k = Some true
       ∧ buf_wireValues st' !! k = buf_wireValues st !! k.
Proof.
  intros Hstep Hr HS. unfold solveStep in Hstep.
  apply at_index_Ret in Hr as Hr'. rewrite Hr' in Hstep. simpl in Hstep.
  bind_inv Hstep. destruct x as [inst' w'].
  bind_inv Hstep. destruct x as [[ai bi] ci].
  bind_inv Hstep. bind_inv Hstep. bind_inv Hstep.
  destruct (Equal (Mul ai bi) ci); simpl in Hstep; [|discriminate].
  injection Hstep as <-. simpl.
  unfold solveR1C in E. rewrite HS in E.
  by apply solveSingleOutput_preserves in E as [Hkeep _].
Qed.

Lemma solveLoop_keeps_instantiated r1cs count : ∀ i st st',
  (∀ j r, (i ≤ j < i + count)%nat → Constraints r1cs !! j = Some r →
          Solver r = SingleOutput) →
  solveLoop r1cs count i st = Ret st' →
  ∀ k, buf_wireInstantiated st !! k = Some true →
       buf_wireInstantiated st' !! k = Some true
       ∧ buf_wireValues st' !! k = buf_wireValues st !! k.
Proof.
  induction count as [|count IH]; intros i st st' Hsingle Hl k Hk; simpl in Hl.
  - by injection Hl as <-.
  - bind_inv Hl.
    assert (∃ r, Constraints r1cs !! i = Some r) as [r Hr].
    { unfold solveStep in E. bind_inv E. apply at_index_Ret in E0. eauto. }
    destruct (solveStep_keeps_instantiated _ _ _ _ _ E Hr) with (k := k) as [Hi Hv];
      [apply (Hsingle i); [lia | done] | done |].
    destruct (IH (S i) x st') with (k := k) as [Hi' Hv']; try done.
    { intros j r' Hj. apply Hsingle. lia. }
    split; [done | congruence].
Qed.

Lemma checkLoop_keeps_wires r1cs count : ∀ i st st',
  checkLoop r1cs count i st = Ret (None, st') →
  buf_wireValues st' = buf_wireValues st
  ∧ buf_wireInstantiated st' = buf_wireInstantiated st.
Proof.
  induction count as [|count IH]; intros i st st' Hl; simpl in Hl.
  - by injection Hl as <-.
  - bind_inv Hl. destruct x as [[e|] st1]; [discriminate|].
    apply checkStep_spec in E as (Hw & Hi & _).
    apply IH in Hl as [-> ->]. done.
Qed.

(** What [Solve] went through when it returns past the input phase. *)
Lemma Solve_after_inputs r1cs assignment a b c wireValues w1 inst1 res :
  sizes_match r1cs a b c wireValues →
  inputPhase r1cs assignment wireValues
    (replicate (Z.to_nat (NbWires r1cs)) false) = Ret (None, (w1, inst1)) →
  Solve r1cs assignment a b c wireValues = Ret res →
  let nbCO := int_of_uint64 (NbCOConstraints r1cs) in
  ∃ st1,
    0 ≤ nbCO
    ∧ solveLoop r1cs (Z.to_nat nbCO) 0
        {| buf_a := a; buf_b := b; buf_c := c;
           buf_wireValues := w1; buf_wireInstantiated := inst1 |} = Ret st1
    ∧ checkLoop r1cs (length (Constraints r1cs) - Z.to_nat nbCO) (Z.to_nat nbCO) st1
      = Ret (res_err res, res_buffers res)
    ∧ buf_wireValues (res_buffers res) = buf_wireValues st1
    ∧ buf_wireInstantiated (res_buffers res) = buf_wireInstantiated st1
    ∧ printLogs r1cs (buf_wireValues st1) (buf_wireInstantiated st1)
      = Ret (res_printed res).
Proof.
  intros Hsizes Hin HS nbCO. unfold Solve in HS.
  rewrite (proj2 (size_check_spec _ _ _ _ _) Hsizes), Hin in HS. simpl in HS.
  bind_inv HS. destruct x as [err' st]. bind_inv HS. injection HS as <-. simpl.
  unfold solveBody in E. bind_inv E. fold nbCO in E, E1.
  destruct (Z.ltb_spec nbCO 0); [discriminate|].
  assert (buf_wireValues st = buf_wireValues x0
          ∧ buf_wireInstantiated st = buf_wireInstantiated x0) as [Hw Hi].
  { destruct err' as [e|].
    - by apply checkLoop_error in E as (? & ? & _).
    - by apply checkLoop_keeps_wires in E. }
  exists x0. rewrite Hw, Hi in E0. split_and!; done.
Qed.

(** When the computational constraints are all single-output, a wire the
    input phase instantiated still holds its value when [Solve] returns, on
    success as on [UnsatisfiedConstraint]: solving never overwrites an
    input. *)
Theorem Solve_keeps_inputs r1cs assignment a b c wireValues w1 inst1 res :
  sizes_match r1cs a b c wireValues →
  inputPhase r1cs assignment wireValues
    (replicate (Z.to_nat (NbWires r1cs)) false) = Ret (None, (w1, inst1)) →
  (∀ j r, (j < Z.to_nat (int_of_uint64 (NbCOConstraints r1cs)))%nat →
          Constraints r1cs !! j = Some r → Solver r = SingleOutput) →
  Solve r1cs assignment a b c wireValues = Ret res →
  ∀ k, inst1 !! k = Some true →
       buf_wireInstantiated (res_buffers res) !! k = Some true
       ∧ buf_wireValues (res_buffers res) !! k = w1 !! k.
Proof.
  intros Hsizes Hin Hsingle HS k Hk.
  destruct (Solve_after_inputs _ _ _ _ _ _ _ _ _ Hsizes Hin HS)
    as (st1 & _ & Hloop & _ & -> & -> & _).
  eapply solveLoop_keeps_instantiated in Hloop; [exact Hloop | | exact Hk].
  intros j r Hj. apply Hsingle. lia.
Qed.


(** ** The assertion phase *)

(** Once the inputs are read, a [Solve] that returns has checked the
    assertions against the wire values it returns: it returns no error
    exactly when every constraint from index [NbCOConstraints] on holds over
    them. *)
Theorem Solve_nil_iff_assertions_hold r1cs assignment a b c wireValues w1 inst1 res :
  sizes_match r1cs a b c wireValues →
  inputPhase r1cs assignment wireValues
    (replicate (Z.to_nat (NbWires r1cs)) false) = Ret (None, (w1, inst1)) →
  Solve r1cs assignment a b c wireValues = Ret res →
  res_err res = None
  ↔ ∀ k, (Z.to_nat (int_of_uint64 (NbCOConstraints r1cs)) ≤ k
          < length (Constraints r1cs))%nat →
         holds_at r1cs (buf_wireValues (res_buffers res)) k.
Proof.
  intros Hsizes Hin HS.
  destruct (Solve_after_inputs _ _ _ _ _ _ _ _ _ Hsizes Hin HS)
    as (st1 & _ & _ & Hcheck & Hw & _ & _).
  split.
  - intros Herr k Hk. rewrite Herr in Hcheck.
    apply checkLoop_spec in Hcheck as (_ & _ & Hall).
    destruct (Hall k) as (r & x & y & z & Hr & Hi & _ & _ & _ & Hm); [lia|].
    by exists r, x, y, z.
  - intros Hall. destruct (res_err res) as [e|]; [|done].
    apply checkLoop_error in Hcheck as (_ & _ & k & s & Hk & _ & Hviol & _).
    destruct Hviol as (r & x & y & z & Hr & Hi & Hm).
    destruct (Hall k) as (r' & x' & y' & z' & Hr' & Hi' & Hm'); [lia|].
    rewrite Hw in Hi'. congruence.
Qed.

(** [quickLog] is the integer part of the base-2 logarithm: it returns the
    [q] with [2^q ≤ bi < 2^(q+1)], and -1 on zero. *)
Theorem quickLog_floor_log2 (bi : N) :
  (bi = 0%N → quickLog bi = -1)
  ∧ (bi ≠ 0%N →
     0 ≤ quickLog bi
     ∧ 2 ^ quickLog bi ≤ Z.of_N bi < 2 ^ (quickLog bi + 1)).
Proof.
  split; [by intros ->|]. intros Hne.
  rewrite quickLog_log2 by done.
  destruct (N.log2_spec bi) as [Hlo Hhi]; [lia|].
  split; [lia|].
  replace (Z.of_N (N.log2 bi) + 1) with (Z.of_N (N.succ (N.log2 bi))) by lia.
  change 2 with (Z.of_N 2). rewrite <- !N2Z.inj_pow. lia.
Qed.


(** ** When evaluation panics *)

Lemma AddTerm_returns r1cs res t v :
  ((∃ x, AddTerm r1cs res t v = Ret x)
   ↔ (CoeffValue t = 1 ∨ CoeffValue t = -1 ∨ CoeffValue t = 0 ∨ CoeffValue t = 2
      ∨ (CoeffID t < length (Coefficients r1cs))%nat))
  ∧ (∀ msg, AddTerm r1cs res t v = Panic msg → msg = index_out_of_range).
Proof.
  unfold AddTerm. cbv zeta.
  destruct (Z.eqb_spec (CoeffValue t) 1); [split; [split; eauto | discriminate]|].
  destruct (Z.eqb_spec (CoeffValue t) (-1)); [split; [split; eauto | discriminate]|].
  destruct (Z.eqb_spec (CoeffValue t) 0); [split; [split; eauto | discriminate]|].
  destruct (Z.eqb_spec (CoeffValue t) 2); [split; [split; eauto 6 | discriminate]|].
  unfold at_index.
  destruct (Coefficients r1cs !! CoeffID t) as [k|] eqn:Hk; simpl.
  - apply lookup_lt_Some in Hk. split; [split; eauto 8 | discriminate].
  - apply lookup_ge_None in Hk. split; [|congruence].
    split; [by intros [? ?] | intros [?|[?|[?|[?|?]]]]; lia].
Qed.

Lemma sumTerms_returns r1cs w : ∀ ts acc,
  ((∃ x, sumTerms r1cs w ts acc = Ret x) ↔ Forall (term_in_range r1cs w) ts)
  ∧ (∀ msg, sumTerms r1cs w ts acc = Panic msg → msg = index_out_of_range).
Proof.
  induction ts as [|t ts IH]; intros acc; simpl.
  - split; [split; [by constructor | eauto] | discriminate].
  - unfold at_index.
    destruct (w !! ConstraintID t) as [v|] eqn:Hv; simpl.
    + apply lookup_lt_Some in Hv.
      destruct (AddTerm_returns r1cs acc t v) as [Hret Hpanic].
      destruct (AddTerm r1cs acc t v) as [acc'|msg'] eqn:Hadd; simpl.
      * destruct (IH acc') as [IHret IHpanic]. split; [|done].
        rewrite IHret, Forall_cons. unfold term_in_range at 1.
        split; [|by intros [_ ?]].
        intros Hts. split; [|done]. split; [done|]. apply Hret. eauto.
      * split; [|intros msg [= <-]; by apply Hpanic].
        split; [by intros [? ?]|].
        intros [[_ Hc] _]%Forall_cons. apply Hret in Hc as [? ?]. discriminate.
    + apply lookup_ge_None in Hv. split; [|congruence].
      split; [by intros [? ?]|].
      intros [[Hlt _] _]%Forall_cons. lia.
Qed.

(** [instantiateR1C] returns exactly when every term of the constraint can
    be evaluated: its wire is within [wireValues], and its coefficient is
    one of the four well-known ones or its [CoeffID] is within the
    coefficient table.  Otherwise it panics on an index out of range. *)
Theorem instantiateR1C_returns_iff r r1cs w :
  ((∃ abc, instantiateR1C r r1cs w = Ret abc)
   ↔ Forall (term_in_range r1cs w) (L r ++ R r ++ O r))
  ∧ (∀ msg, instantiateR1C r r1cs w = Panic msg → msg = index_out_of_range).
Proof.
  unfold instantiateR1C. rewrite !Forall_app.
  destruct (sumTerms_returns r1cs w (L r) fr_zero) as [HL HLp].
  destruct (sumTerms_returns r1cs w (R r) fr_zero) as [HR HRp].
  destruct (sumTerms_returns r1cs w (O r) fr_zero) as [HO HOp].
  rewrite <- HL, <- HR, <- HO.
  destruct (sumTerms r1cs w (L r) fr_zero) as [a|ma]; simpl;
    [|split; [split; [by intros [? ?] | by intros [[? ?] _]]
             | intros msg [= <-]; by apply HLp]].
  destruct (sumTerms r1cs w (R r) fr_zero) as [b|mb]; simpl;
    [|split; [split; [by intros [? ?] | by intros (_ & [? ?] & _)]
             | intros msg [= <-]; by apply HRp]].
  destruct (sumTerms r1cs w (O r) fr_zero) as [c|mc]; simpl;
    [|split; [split; [by intros [? ?] | by intros (_ & _ & [? ?])]
             | intros msg [= <-]; by apply HOp]].
  split; [split; eauto 7 | discriminate].
Qed.

(** ** What a binary decomposition writes *)

Lemma assignBits_frame r1cs bits : ∀ ts inst w inst' w',
  assignBits r1cs bits ts inst w = Ret (inst', w') →
  (∀ t, t ∈ ts →
     inst' !! ConstraintID t = Some true
     ∧ ∃ bit, bit ∈ bits ∧ w' !! ConstraintID t = Some (SetUint64 bit))
  ∧ (∀ k, k ∉ ConstraintID <$> ts → w' !! k = w !! k ∧ inst' !! k = inst !! k).
Proof.
  induction ts as [|t ts IH]; intros inst w inst' w' Hrun; simpl in Hrun.
  - injection Hrun as <- <-. split; [|done]. intros t Ht. by apply elem_of_nil in Ht.
  - bind_inv Hrun. bind_inv Hrun. bind_inv Hrun. bind_inv Hrun.
    apply at_int_Ret in E0 as [_ Hbit].
    apply set_index_Ret in E1 as [Hw ->], E2 as [Hi ->].
    destruct (IH _ _ _ _ Hrun) as [Hin Hout]. split.
    + intros t' [->|Ht']%elem_of_cons; [|by apply Hin].
      destruct (decide (ConstraintID t ∈ ConstraintID <$> ts)) as [Hdup|Hfresh].
      * apply list_elem_of_fmap in Hdup as (t'' & Heq & Ht'').
        rewrite Heq. by apply Hin.
      * destruct (Hout _ Hfresh) as [-> ->].
        rewrite !list_lookup_insert_eq by done. split; [done|].
        exists x0. split; [|done]. by eapply list_elem_of_lookup_2.
    + intros k Hk. rewrite fmap_cons in Hk.
      apply not_elem_of_cons in Hk as [Hne Hk].
      destruct (Hout _ Hk) as [-> ->].
      by rewrite !list_lookup_insert_ne.
Qed.

(** A binary decomposition that returns has written a 0 or a 1 to every
    wire of [L] and marked it instantiated, whether or not the wire was
    instantiated before; every other wire is as it was. *)
Theorem binaryDec_writes_bits_of_L r1cs r inst w inst' w' :
  1 < modulus →
  Solver r = BinaryDec →
  solveR1C r1cs r inst w = Ret (inst', w') →
  (∀ t, t ∈ L r →
     inst' !! ConstraintID t = Some true
     ∧ (w' !! ConstraintID t = Some 0 ∨ w' !! ConstraintID t = Some 1))
  ∧ (∀ k, k ∉ ConstraintID <$> L r → w' !! k = w !! k ∧ inst' !! k = inst !! k)
  ∧ length w' = length w ∧ length inst' = length inst.
Proof.
  intros Hq HS Hrun. unfold solveR1C in Hrun. rewrite HS in Hrun.
  unfold solveBinaryDec in Hrun. bind_inv Hrun. bind_inv Hrun.
  destruct (binaryDecomposition_spec x (length (L r))) as [Hok Hpanic].
  destruct (decide (length (L r) ≤ 64 * Limbs)%nat) as [Hfit|Hbig];
    [|rewrite Hpanic in E0 by lia; discriminate].
  destruct (Hok Hfit) as (bits & Hbits & Hlen & Hk).
  assert (x0 = bits) as -> by congruence.
  destruct (assignBits_frame _ _ _ _ _ _ _ Hrun) as [Hin Hout].
  destruct (assignBits_lengths _ _ _ _ _ _ _ Hrun) as [Hlw Hli].
  split_and!; [|done..].
  intros t Ht. destruct (Hin t Ht) as (Hi & bit & Hbit & Hw). split; [done|].
  apply list_elem_of_lookup_1 in Hbit as [k Hbit].
  apply lookup_lt_Some in Hbit as Hlt. rewrite Hk in Hbit by lia.
  injection Hbit as <-.
  assert (Hv : SetUint64 (bitOf x k) = 0 ∨ SetUint64 (bitOf x k) = 1).
  { unfold SetUint64, bitOf. destruct (Z.testbit x (Z.of_nat k)); simpl;
      [right; by rewrite Z.mod_small by lia | left; by rewrite Z.mod_0_l by lia]. }
  destruct Hv as [Hv|Hv]; rewrite Hv in Hw; [left | right]; exact Hw.
Qed.
(** ** The constant wire *)

(** C9: an input whose name is the constant wire's gets the value 1 and is
    marked instantiated, and the assignment is not read for it.  The round
    of the loop on that name writes 1 and [true] at its wire whatever the
    assignment holds; [instantiateInputs], and with well-formed counts the
    whole input phase over the secret names followed by the public names,
    returns without error when the other names have a value, with every
    wire of that name at 1 and marked.  Binding the name in the assignment
    or leaving it out changes neither [instantiateInputs] nor [Solve], and
    [InputNotSet] never names it. *)
Theorem OneWire_needs_no_assignment :
  (∀ assignment offset i rest w inst,
     0 ≤ Z.of_nat i + offset < Z.of_nat (length w) →
     Z.of_nat i + offset < Z.of_nat (length inst) →
     let wire := Z.to_nat (Z.of_nat i + offset) in
     instantiateInputsFrom assignment offset i (OneWire :: rest) w inst
     = instantiateInputsFrom assignment offset (S i) rest
         (<[wire := 1]> w) (<[wire := true]> inst))
  ∧ (∀ assignment offset names w inst,
       Forall (λ name, name ≠ OneWire → is_Some (assignment !! name)) names →
       0 ≤ offset →
       offset + Z.of_nat (length names) ≤ Z.of_nat (length w) →
       length inst = length w →
       ∃ w' inst',
         instantiateInputs assignment offset names w inst = Ret (None, (w', inst'))
         ∧ ∀ k, names !! k = Some OneWire →
             w' !! Z.to_nat (Z.of_nat k + offset) = Some 1
             ∧ inst' !! Z.to_nat (Z.of_nat k + offset) = Some true)
  ∧ (∀ r1cs assignment w inst,
       well_formed_inputs r1cs →
       Z.of_nat (length w) = NbWires r1cs →
       length inst = length w →
       Forall (λ name, name ≠ OneWire → is_Some (assignment !! name))
         (SecretWires r1cs ++ PublicWires r1cs) →
       ∃ w' inst',
         inputPhase r1cs assignment w inst = Ret (None, (w', inst'))
         ∧ ∀ k, (SecretWires r1cs ++ PublicWires r1cs) !! k = Some OneWire →
             let wire := Z.to_nat (Z.of_nat k + (NbWires r1cs - NbPublicWires r1cs
                                                 - NbSecretWires r1cs)) in
             w' !! wire = Some 1 ∧ inst' !! wire = Some true)
  ∧ (∀ assignment offset names w inst w' inst' k,
       instantiateInputs assignment offset names w inst = Ret (None, (w', inst')) →
       names !! k = Some OneWire →
       0 ≤ Z.of_nat k + offset
       ∧ w' !! Z.to_nat (Z.of_nat k + offset) = Some 1
       ∧ inst' !! Z.to_nat (Z.of_nat k + offset) = Some true)
  ∧ (∀ r1cs assignment w inst w' inst' k,
       well_formed_inputs r1cs →
       inputPhase r1cs assignment w inst = Ret (None, (w', inst')) →
       (SecretWires r1cs ++ PublicWires r1cs) !! k = Some OneWire →
       let wire := Z.to_nat (Z.of_nat k + (NbWires r1cs - NbPublicWires r1cs
                                           - NbSecretWires r1cs)) in
       w' !! wire = Some 1 ∧ inst' !! wire = Some true)
  ∧ (∀ (assignment : gmap string Z) v offset names w inst,
       instantiateInputs (<[OneWire := v]> assignment) offset names w inst
       = instantiateInputs assignment offset names w inst
       ∧ instantiateInputs (delete OneWire assignment) offset names w inst
         = instantiateInputs assignment offset names w inst)
  ∧ (∀ assignment offset names w inst e st,
       instantiateInputs assignment offset names w inst = Ret (Some e, st) →
       e ≠ ErrInputNotSet OneWire)
  ∧ (∀ r1cs (assignment : gmap string Z) v a b c w,
       Solve r1cs (<[OneWire := v]> assignment) a b c w = Solve r1cs assignment a b c w
       ∧ Solve r1cs (delete OneWire assignment) a b c w = Solve r1cs assignment a b c w)
  ∧ (∀ r1cs assignment a b c w res,
       Solve r1cs assignment a b c w = Ret res →
       res_err res ≠ Some (ErrInputNotSet OneWire)).
Proof.
  assert (Hprovided : ∀ (assignment : gmap string Z) names,
            Forall (λ name, name ≠ OneWire → is_Some (assignment !! name)) names →
            Forall (provided assignment) names).
  { intros assignment names Hall. eapply Forall_impl; [exact Hall|]. simpl.
    intros name Hname. unfold provided.
    destruct (decide (name = OneWire)); [by left | right; by apply Hname]. }
  assert (Htotal : ∀ assignment offset names w inst,
            Forall (λ name, name ≠ OneWire → is_Some (assignment !! name)) names →
            0 ≤ offset →
            offset + Z.of_nat (length names) ≤ Z.of_nat (length w) →
            length inst = length w →
            ∃ w' inst',
              instantiateInputs assignment offset names w inst = Ret (None, (w', inst'))
              ∧ ∀ k, names !! k = Some OneWire →
                  w' !! Z.to_nat (Z.of_nat k + offset) = Some 1
                  ∧ inst' !! Z.to_nat (Z.of_nat k + offset) = Some true).
  { intros assignment offset names w inst Hall Hlo Hhi Hlen.
    destruct (instantiateInputsFrom_returns assignment offset names 0%nat w inst)
      as (w' & inst' & Hret); [by apply Hprovided | lia | lia | done |].
    exists w', inst'. split; [exact Hret|]. intros k Hk.
    destruct (instantiateInputsFrom_values _ _ _ _ _ _ _ _ Hret) as [Hin _].
    destruct (Hin k OneWire Hk) as (? & ? & Hv).
    rewrite bool_decide_eq_true_2 in Hv by done. done. }
  split_and!.
  - intros assignment offset i rest w inst Hw Hi wire. simpl.
    rewrite bool_decide_eq_true_2 by done.
    rewrite !set_int_in_range by lia. reflexivity.
  - exact Htotal.
  - intros r1cs assignment w inst Hwf Hw Hlen Hall.
    rewrite inputPhase_concat by done.
    destruct Hwf as (HS & HP & Hfit).
    apply Htotal; [done | lia | | done].
    rewrite length_app. lia.
  - intros assignment offset names w inst w' inst' k Hrun Hk.
    destruct (instantiateInputsFrom_values _ _ _ _ _ _ _ _ Hrun) as [Hin _].
    destruct (Hin k OneWire Hk) as (? & ? & Hv).
    rewrite bool_decide_eq_true_2 in Hv by done. done.
  - intros r1cs assignment w inst w' inst' k Hwf Hrun Hk wire.
    rewrite inputPhase_concat in Hrun by done.
    destruct (instantiateInputsFrom_values _ _ _ _ _ _ _ _ Hrun) as [Hin _].
    destruct (Hin k OneWire Hk) as (? & ? & Hv).
    rewrite bool_decide_eq_true_2 in Hv by done. done.
  - intros assignment v offset names w inst. unfold instantiateInputs.
    split; apply instantiateInputsFrom_ext; intros name Hne.
    + by apply lookup_insert_ne.
    + by apply lookup_delete_ne.
  - intros assignment offset names w inst e st Hrun.
    destruct (instantiateInputsFrom_error _ _ _ _ _ _ _ _ Hrun) as (n & -> & _ & Hne & _).
    congruence.
  - intros r1cs assignment v a b c w.
    split; apply Solve_ext; intros name Hne.
    + by apply lookup_insert_ne.
    + by apply lookup_delete_ne.
  - intros r1cs assignment a b c w res HS He.
    destruct (Solve_error_kinds _ _ _ _ _ _ _ _ HS He)
      as [[_ ?]|[_ [(name & Hname & _ & Hne & _)|(s & ?)]]]; [discriminate | | discriminate].
    congruence.
Qed.
(** ** The core contract *)

(** What a round of the computational loop records: the sides of the
    constraint over the wire values the round leaves. *)
Lemma solveStep_evaluated r1cs i st st' :
  solveStep r1cs i st = Ret st' →
  ∃ r x y z, Constraints r1cs !! i = Some r
    ∧ instantiateR1C r r1cs (buf_wireValues st') = Ret (x, y, z)
    ∧ buf_a st' !! i = Some x ∧ buf_b st' !! i = Some y ∧ buf_c st' !! i = Some z
    ∧ Mul x y = z.
Proof.
  unfold solveStep. intros Hs.
  bind_inv Hs. bind_inv Hs. destruct x0 as [inst' w'].
  bind_inv Hs. destruct x0 as [[ai bi] ci].
  bind_inv Hs. bind_inv Hs. bind_inv Hs.
  apply at_index_Ret in E.
  apply set_index_Ret in E2 as [? ->], E3 as [? ->], E4 as [? ->].
  destruct (Equal (Mul ai bi) ci) eqn:Heq; simpl in Hs; [|discriminate].
  injection Hs as <-. apply Z.eqb_eq in Heq.
  exists x, ai, bi, ci. simpl. rewrite !list_lookup_insert_eq by done. done.
Qed.

(** The entries of index [i] the loop returns are those round [i] recorded,
    over the wire values that round left. *)
Lemma solveLoop_evaluated r1cs count st0 st1 i :
  solveLoop r1cs count 0 st0 = Ret st1 →
  (i < count)%nat →
  ∃ st r x y z,
    solveLoop r1cs (S i) 0 st0 = Ret st
    ∧ Constraints r1cs !! i = Some r
    ∧ instantiateR1C r r1cs (buf_wireValues st) = Ret (x, y, z)
    ∧ buf_a st1 !! i = Some x ∧ buf_b st1 !! i = Some y ∧ buf_c st1 !! i = Some z
    ∧ Mul x y = z.
Proof.
  intros Hloop Hi.
  replace count with (i + S (count - S i))%nat in Hloop by lia.
  rewrite solveLoop_app in Hloop. bind_inv Hloop. bind_inv Hloop.
  destruct (solveStep_evaluated _ _ _ _ E0) as (r & vx & vy & vz & Hr & He & Ha & Hb & Hc & Hm).
  apply solveLoop_spec in Hloop as [_ Hout].
  destruct (Hout i) as (Ha' & Hb' & Hc'); [lia|].
  exists x0, r, vx, vy, vz. split_and!; try done; try congruence.
  replace (S i) with (i + 1)%nat by lia.
  rewrite solveLoop_app, E. simpl. by rewrite E0.
Qed.

(** A binary decomposition that computes settles its constraint and
    leaves the settled ones settled. *)
Lemma solveStep_settled_decomposition r1cs i st st' r :
  solveStep r1cs i st = Ret st' →
  Constraints r1cs !! i = Some r → Solver r = BinaryDec →
  decomposes_fresh (buf_wireInstantiated st) r →
  settled r1cs st' i ∧ ∀ j, j ≠ i → settled r1cs st j → settled r1cs st' j.
Proof.
  intros Hstep Hr HS [Hread Hfresh]. unfold solveStep in Hstep.
  apply at_index_Ret in Hr as Hr'. rewrite Hr' in Hstep. simpl in Hstep.
  bind_inv Hstep. destruct x as [inst' w'].
  bind_inv Hstep. destruct x as [[ai bi] ci].
  bind_inv Hstep. bind_inv Hstep. bind_inv Hstep.
  apply set_index_Ret in E1 as [? ->], E2 as [? ->], E3 as [? ->].
  destruct (Equal (Mul ai bi) ci); simpl in Hstep; [|discriminate].
  injection Hstep as <-.
  unfold solveR1C in E. rewrite HS in E. unfold solveBinaryDec in E.
  bind_inv E. bind_inv E.
  destruct (assignBits_frame _ _ _ _ _ _ _ E) as [Hin Hout].
  assert (Hkeep : ∀ k, buf_wireInstantiated st !! k = Some true →
            inst' !! k = Some true ∧ w' !! k = buf_wireValues st !! k).
  { intros k Hk. destruct (Hout k) as [-> ->]; [|done].
    intros (t & -> & Ht)%list_elem_of_fmap.
    rewrite Forall_forall in Hfresh. specialize (Hfresh t Ht). congruence. }
  split.
  - exists r, ai, bi, ci. simpl. rewrite !list_lookup_insert_eq by done.
    split_and!; try done. apply Forall_app_2.
    + apply Forall_forall. intros t Ht. by apply Hin.
    + eapply Forall_impl; [exact Hread|]. simpl. intros t Ht. by apply Hkeep.
  - intros j Hj (rj & x' & y & z & Hrj & Hinst & Heval & Ha & Hb & Hc).
    exists rj, x', y, z. simpl. rewrite !list_lookup_insert_ne by done.
    split_and!; try done.
    + eapply Forall_impl; [exact Hinst|]. simpl. intros t Ht. by apply Hkeep.
    + rewrite <- Heval. apply instantiateR1C_agree.
      eapply Forall_impl; [exact Hinst|]. simpl. intros t Ht. by apply Hkeep.
Qed.

Lemma solveLoop_settled_ordered r1cs count : ∀ i st st',
  (∀ n r stn, (n < count)%nat → Constraints r1cs !! (i + n)%nat = Some r →
     Solver r = BinaryDec → solveLoop r1cs n i st = Ret stn →
     decomposes_fresh (buf_wireInstantiated stn) r) →
  solveLoop r1cs count i st = Ret st' →
  (∀ j, (j < i)%nat → settled r1cs st j) →
  ∀ j, (j < i + count)%nat → settled r1cs st' j.
Proof.
  induction count as [|count IH]; intros i st st' Hord Hl Hbefore; simpl in Hl.
  - injection Hl as <-. intros j Hj. apply Hbefore. lia.
  - bind_inv Hl.
    assert (∃ r, Constraints r1cs !! i = Some r) as [r Hr].
    { unfold solveStep in E. bind_inv E. apply at_index_Ret in E0. eauto. }
    assert (settled r1cs x i ∧ ∀ j, j ≠ i → settled r1cs st j → settled r1cs x j)
      as [Hi Hkeep].
    { destruct (Solver r) eqn:HS.
      - by eapply solveStep_settled.
      - eapply solveStep_settled_decomposition; [done..|].
        apply (Hord 0%nat r st); [lia | by rewrite Nat.add_0_r | done | done].
      - exfalso. unfold solveStep in E. apply at_index_Ret in Hr.
        rewrite Hr in E. simpl in E. unfold solveR1C in E. rewrite HS in E.
        discriminate. }
    intros j Hj. apply (IH (S i) x); try done; try lia.
    + intros n r' stn Hn Hr' HS' Hln.
      apply (Hord (S n) r' stn); [lia | | done |].
      * by replace (i + S n)%nat with (S i + n)%nat by lia.
      * simpl. by rewrite E.
    + intros j' Hj'. destruct (decide (j' = i)) as [->|]; [done|].
      apply Hkeep; [done|]. apply Hbefore. lia.
Qed.

(** What a [Solve] that returns [nil] went through, the input phase
    included. *)
Lemma Solve_nil_run r1cs assignment a b c wireValues res :
  Solve r1cs assignment a b c wireValues = Ret res →
  res_err res = None →
  let nbCO := int_of_uint64 (NbCOConstraints r1cs) in
  ∃ w1 inst1 st1,
    inputPhase r1cs assignment wireValues
      (replicate (Z.to_nat (NbWires r1cs)) false) = Ret (None, (w1, inst1))
    ∧ 0 ≤ nbCO
    ∧ solveLoop r1cs (Z.to_nat nbCO) 0
        {| buf_a := a; buf_b := b; buf_c := c;
           buf_wireValues := w1; buf_wireInstantiated := inst1 |} = Ret st1
    ∧ checkLoop r1cs (length (Constraints r1cs) - Z.to_nat nbCO) (Z.to_nat nbCO) st1
      = Ret (None, res_buffers res).
Proof.
  intros HS Herr nbCO. unfold Solve in HS.
  destruct (_ || _); [injection HS as <-; discriminate|].
  bind_inv HS. destruct x as [err [w1 inst1]].
  destruct err as [e|]; [injection HS as <-; discriminate|].
  bind_inv HS. destruct x as [err' st]. bind_inv HS.
  injection HS as <-. simpl in *. subst err'.
  unfold solveBody in E0. bind_inv E0. fold nbCO in E0, E2.
  destruct (Z.ltb_spec nbCO 0); [discriminate|].
  exists w1, inst1, x0. done.
Qed.

(** C1, as the code has it.  When [Solve] returns [nil], the returned
    vectors satisfy [a[i] * b[i] = c[i]] at every constraint index, the
    three entries being the sides of constraint [i] over the wire values at
    the time it was processed: those the round of the loop left for a
    computational constraint, the final ones for an assertion.  Every
    constraint holds over the final wire values when each binary
    decomposition of the computational prefix, at the time it is processed,
    finds the wires of its [R] and [O] instantiated and those of its [L] not
    yet instantiated; in particular when the prefix has only single-output
    constraints. *)
Theorem Solve_nil_products r1cs assignment a b c wireValues res :
  Solve r1cs assignment a b c wireValues = Ret res →
  res_err res = None →
  let nbCO := Z.to_nat (int_of_uint64 (NbCOConstraints r1cs)) in
  ∃ w1 inst1,
    inputPhase r1cs assignment wireValues
      (replicate (Z.to_nat (NbWires r1cs)) false) = Ret (None, (w1, inst1))
    ∧ let st0 := {| buf_a := a; buf_b := b; buf_c := c;
                    buf_wireValues := w1; buf_wireInstantiated := inst1 |} in
      (∀ i r, Constraints r1cs !! i = Some r →
         ∃ x y z,
           buf_a (res_buffers res) !! i = Some x
           ∧ buf_b (res_buffers res) !! i = Some y
           ∧ buf_c (res_buffers res) !! i = Some z
           ∧ Mul x y = z
           ∧ ((i < nbCO)%nat →
              ∃ st, solveLoop r1cs (S i) 0 st0 = Ret st
                    ∧ instantiateR1C r r1cs (buf_wireValues st) = Ret (x, y, z))
           ∧ ((nbCO ≤ i)%nat →
              instantiateR1C r r1cs (buf_wireValues (res_buffers res)) = Ret (x, y, z)))
      ∧ ((∀ j r st, (j < nbCO)%nat → Constraints r1cs !! j = Some r →
            Solver r = BinaryDec → solveLoop r1cs j 0 st0 = Ret st →
            decomposes_fresh (buf_wireInstantiated st) r) →
         holds_over r1cs (buf_wireValues (res_buffers res)))
      ∧ ((∀ j r, (j < nbCO)%nat → Constraints r1cs !! j = Some r →
                 Solver r = SingleOutput) →
         holds_over r1cs (buf_wireValues (res_buffers res))).
Proof.
  intros HS Herr nbCO.
  destruct (Solve_nil_run _ _ _ _ _ _ _ HS Herr)
    as (w1 & inst1 & st1 & Hin & Hpos & Hloop & Hcheck).
  fold nbCO in Hloop, Hcheck.
  exists w1, inst1. split; [exact Hin|]. intros st0. fold st0 in Hloop.
  pose proof (Solve_nil_returned _ _ _ _ _ _ _ HS Herr) as Hret.
  apply checkLoop_spec in Hcheck as (Hw & Hout & _).
  assert (Hordered :
    (∀ j r st, (j < nbCO)%nat → Constraints r1cs !! j = Some r →
       Solver r = BinaryDec → solveLoop r1cs j 0 st0 = Ret st →
       decomposes_fresh (buf_wireInstantiated st) r) →
    holds_over r1cs (buf_wireValues (res_buffers res))).
  { intros Hord i r Hr.
    destruct (Hret i r Hr) as (x & y & z & Ha & Hb & Hc & Hm & Hsuffix).
    exists x, y, z. split; [|done].
    destruct (decide (nbCO ≤ i)%nat) as [Hi|Hi]; [by apply Hsuffix|].
    destruct (solveLoop_settled_ordered r1cs nbCO 0 st0 st1) with (j := i)
      as (r' & x' & y' & z' & Hr' & _ & Heval & Ha' & Hb' & Hc');
      [| done | intros; lia | lia |].
    { intros n rn stn Hn Hrn. by apply Hord. }
    destruct (Hout i) as (Hsa & Hsb & Hsc); [lia|].
    rewrite Hw. congruence. }
  split_and!.
  - intros i r Hr.
    destruct (Hret i r Hr) as (x & y & z & Ha & Hb & Hc & Hm & Hsuffix).
    exists x, y, z. split_and!; try done.
    intros Hi.
    destruct (solveLoop_evaluated _ _ _ _ i Hloop Hi)
      as (st & r' & x' & y' & z' & Hst & Hr' & He & Ha' & Hb' & Hc' & _).
    destruct (Hout i) as (Hsa & Hsb & Hsc); [lia|].
    exists st. split; [done|]. congruence.
  - exact Hordered.
  - intros Hsingle. apply Hordered. intros j r st Hj Hr HSr.
    rewrite (Hsingle j r Hj Hr) in HSr. discriminate.
Qed.
End Properties.

(** * The sample systems, evaluated *)

Lemma Solve_nil_products_witness :
  Solve bits_r1cs bits_assignment [0] [0] [0] [0; 0; 0; 0; 0; 0] = Ret bits_result
  ∧ (∃ x y z,
       buf_a (res_buffers bits_result) !! 0%nat = Some x
       ∧ buf_b (res_buffers bits_result) !! 0%nat = Some y
       ∧ buf_c (res_buffers bits_result) !! 0%nat = Some z
       ∧ Mul x y = z)
  ∧ holds_over bits_r1cs (buf_wireValues (res_buffers bits_result)).
Proof.
  assert (Hrun : Solve bits_r1cs bits_assignment [0] [0] [0] [0; 0; 0; 0; 0; 0]
                 = Ret bits_result) by (vm_compute; reflexivity).
  destruct (Solve_nil_products bits_r1cs bits_assignment [0] [0] [0]
              [0; 0; 0; 0; 0; 0] bits_result Hrun eq_refl)
    as (w1 & inst1 & Hin & Hreturned & Hordered & _).
  assert (Hinputs : inputPhase bits_r1cs bits_assignment [0; 0; 0; 0; 0; 0]
                      (replicate (Z.to_nat (NbWires bits_r1cs)) false)
                    = Ret (None, ([0; 0; 0; 0; 13; 1],
                                  [false; false; false; false; true; true])))
    by (vm_compute; reflexivity).
  rewrite Hinputs in Hin. injection Hin as <- <-.
  split; [exact Hrun|]. split.
  - destruct (Hreturned 0%nat bits_r1c eq_refl) as (x & y & z & ? & ? & ? & ? & _).
    exists x, y, z. auto.
  - apply Hordered. intros [|j] r st Hj Hr HS Hloop; [|vm_compute in Hj; lia].
    injection Hr as <-. injection Hloop as <-.
    split; repeat constructor.
Defined.

(** [Solve] returns [nil] on [early_read_r1cs], where no instantiated wire
    is overwritten, and the first constraint does not hold over the wire
    values it leaves: the decomposition read wire 1 at 0, before the second
    constraint set it to 1. *)
Lemma Solve_nil_decomposition_read_early :
  Solve early_read_r1cs ∅ [0; 0] [0; 0] [0; 0] [0; 0; 0] = Ret early_read_result
  ∧ res_err early_read_result = None
  ∧ ¬ holds_over early_read_r1cs (buf_wireValues (res_buffers early_read_result)).
Proof.
  split; [vm_compute; reflexivity|]. split; [reflexivity|].
  intros Hall. destruct (Hall 0%nat _ eq_refl) as (x & y & z & Hi & Hm).
  vm_compute in Hi. injection Hi as <- <- <-. vm_compute in Hm. discriminate.
Qed.

(** [Solve] returns [nil] on [overwriting_r1cs], and the first constraint
    does not hold over the wire values it leaves: wire 0 was 1 when the
    constraint was processed and is 0 at the end. *)
Lemma Solve_nil_not_over_final_wires :
  Solve overwriting_r1cs ∅ [0; 0] [0; 0] [0; 0] [0; 0] = Ret overwriting_result
  ∧ res_err overwriting_result = None
  ∧ ¬ holds_over overwriting_r1cs (buf_wireValues (res_buffers overwriting_result)).
Proof.
  split; [vm_compute; reflexivity|]. split; [reflexivity|].
  intros Hall. destruct (Hall 0%nat _ eq_refl) as (x & y & z & Hi & Hm).
  vm_compute in Hi. injection Hi as <- <- <-. vm_compute in Hm. discriminate.
Qed.

Lemma solveR1C_zero_R_marks_wire_witness :
  ∃ inst',
    solveR1C product_r1cs product_r1c [false; true; true] [0; 0; 5]
    = Ret (inst', [0; 0; 5])
    ∧ inst' !! 0%nat = Some true
    ∧ ∀ k, k ≠ 0%nat → inst' !! k = [false; true; true] !! k.
Proof.
  apply (solveR1C_zero_R_marks_wire product_r1cs product_r1c
           [false; true; true] [0; 0; 5] [] (term 0 0 1) [] 0 5);
    try reflexivity; repeat constructor.
Defined.

(** With [wireB = 0] and [wireC = 5], [solveR1C] marks [wireA] instantiated
    although it computes no value for it. *)
Lemma zero_R_wire_not_left_uninstantiated :
  ∃ inst' w',
    solveR1C product_r1cs product_r1c [false; true; true] [0; 0; 5] = Ret (inst', w')
    ∧ ¬ left_uninstantiated inst' 0.
Proof.
  exists [true; true; true], [0; 0; 5]. split; [vm_compute; reflexivity|].
  unfold left_uninstantiated. simpl. discriminate.
Qed.

(** C3: the code stores [(c / b) − a] multiplied by the coefficient of the
    term, not divided by it.  On [(2 * w0) * 1 = C] with [C = 6] the
    isolated quantity is 6; [solveR1C] stores [6 * 2 = 12] in wire 0 where
    [6 / 2 = 3] would satisfy the constraint, and [Solve] then panics on
    its own check of [a * b = c]. *)
Theorem solveR1C_multiplies_by_coefficient :
  solveR1C doubled_r1cs doubled_r1c [false; true; true; true] [0; 1; 6; 1]
  = Ret ([true; true; true; true], [12; 1; 6; 1])
  ∧ Sub (Div 6 1) 0 = 6
  ∧ mulWireByCoeff doubled_r1cs 6 (term 0 0 2) = Ret 12
  ∧ Div 6 2 = 3
  ∧ instantiateR1C doubled_r1c doubled_r1cs [12; 1; 6; 1] = Ret (24, 1, 6)
  ∧ instantiateR1C doubled_r1c doubled_r1cs [3; 1; 6; 1] = Ret (6, 1, 6)
  ∧ Solve doubled_r1cs doubled_assignment [0] [0] [0] [0; 0; 0; 0]
    = Panic "error solving r1c: 24*1=6".
Proof. repeat split; vm_compute; reflexivity. Qed.

Lemma binaryDec_bit_from_coefficient_witness :
  ∃ inst' w',
    solveR1C bits_r1cs bits_r1c
      [false; false; false; false; true; true] [0; 0; 0; 0; 13; 1] = Ret (inst', w')
    ∧ w' !! 0%nat = Some 1 ∧ w' !! 1%nat = Some 0
    ∧ w' !! 2%nat = Some 1 ∧ w' !! 3%nat = Some 1
    ∧ Forall (λ t, inst' !! ConstraintID t = Some true) (L bits_r1c).
Proof.
  apply (proj2 (proj2 binaryDec_bit_from_coefficient) bits_r1cs bits_r1c
           [false; false; false; false; true; true] [0; 0; 0; 0; 13; 1]
           (term 0 0 1) (term 1 1 2) (term 2 2 notSpecial) (term 3 3 notSpecial));
    try reflexivity.
  - simpl. lia.
  - apply (bool_decide_unpack _). vm_compute. exact I.
  - repeat constructor; simpl; lia.
Defined.

Lemma binaryDec_limb_precondition_witness :
  (∃ msg, solveR1C product_r1cs wide_r1c [false] [0] = Panic msg)
  ∧ ∀ n, sumTerms product_r1cs [0] (O wide_r1c) fr_zero = Ret n →
         solveR1C product_r1cs wide_r1c [false] [0] = Panic index_out_of_range.
Proof.
  apply (proj2 binaryDec_limb_precondition product_r1cs wide_r1c [false] [0]).
  - reflexivity.
  - vm_compute. lia.
Defined.

Lemma Solve_unsatisfied_constraint_witness :
  ∃ res, Solve assert_equal_r1cs bad_assignment [0] [0] [0] [0; 0; 0] = Ret res
    ∧ res_err res = Some (ErrUnsatisfiedConstraint "42 == 43")
    ∧ res_printed res = [].
Proof.
  assert (Hsized : sized assert_equal_r1cs [0] [0] [0] [0; 0; 0])
    by (repeat split; reflexivity).
  assert (Hin : inputPhase assert_equal_r1cs bad_assignment [0; 0; 0]
                  (replicate (Z.to_nat (NbWires assert_equal_r1cs)) false)
                = Ret (None, ([43; 1; 42], [true; true; true])))
    by (vm_compute; reflexivity).
  apply (proj1 (Solve_unsatisfied_constraint assert_equal_r1cs bad_assignment
                  [0] [0] [0] [0; 0; 0] [43; 1; 42] [true; true; true]
                  Hsized eq_refl Hin) bad_buffers 0%nat).
  - vm_compute. discriminate.
  - reflexivity.
  - vm_compute. lia.
  - intros j Hj. lia.
  - exists assert_equal_r1c, 42, 1, 43. split; [reflexivity|].
    split; [vm_compute; reflexivity | vm_compute; discriminate].
  - exists {| Format := "%s == %s"; ToResolve := [2; 0] |}.
    split; vm_compute; reflexivity.
  - reflexivity.
Defined.

Lemma Solve_input_not_set_witness :
  ∃ pre name post res,
    SecretWires doubled_r1cs ++ PublicWires doubled_r1cs = pre ++ name :: post
    ∧ Forall (provided (<["B" := 1]> ∅)) pre
    ∧ ¬ provided (<["B" := 1]> ∅) name
    ∧ Solve doubled_r1cs (<["B" := 1]> ∅) [0] [0] [0] [0; 0; 0; 0] = Ret res
    ∧ res_err res = Some (ErrInputNotSet name)
    ∧ buf_a (res_buffers res) = [0]
    ∧ buf_b (res_buffers res) = [0]
    ∧ buf_c (res_buffers res) = [0]
    ∧ res_printed res = [].
Proof.
  apply (Solve_input_not_set doubled_r1cs (<["B" := 1]> ∅) [0] [0] [0] [0; 0; 0; 0]).
  - repeat split; try reflexivity. vm_compute. discriminate.
  - repeat split; reflexivity.
  - exists "C". split.
    + simpl. apply elem_of_cons. right. apply elem_of_cons. by left.
    + apply not_provided. split; [discriminate | reflexivity].
Defined.

Lemma OneWire_needs_no_assignment_witness :
  doubled_assignment !! OneWire = None
  ∧ ∃ w' inst',
      inputPhase doubled_r1cs doubled_assignment [0; 0; 0; 0]
        [false; false; false; false] = Ret (None, (w', inst'))
      ∧ w' !! 3%nat = Some 1 ∧ inst' !! 3%nat = Some true.
Proof.
  split; [reflexivity|].
  destruct (proj1 (proj2 (proj2 OneWire_needs_no_assignment))
              doubled_r1cs doubled_assignment [0; 0; 0; 0]
              [false; false; false; false]) as (w' & inst' & Hrun & Hone).
  - repeat split; try reflexivity. vm_compute. discriminate.
  - reflexivity.
  - reflexivity.
  - apply Forall_cons_2; [intros _; eexists; reflexivity|].
    apply Forall_cons_2; [intros _; eexists; reflexivity|].
    apply Forall_cons_2; [intros Hne; by destruct Hne | apply Forall_nil_2].
  - exists w', inst'. split; [exact Hrun|]. apply (Hone 2%nat). reflexivity.
Defined.

Lemma invariant_violations_panic_witness :
  (∃ msg, solveR1C product_r1cs product_r1c [false; false; true] [0; 0; 5] = Panic msg)
  ∧ (∃ msg, solveStep doubled_r1cs 0 doubled_buffers = Panic msg)
  ∧ (∃ msg, logValue {| Format := "%s"; ToResolve := [0] |} [0] [false] = Panic msg)
  ∧ Solve doubled_r1cs doubled_assignment [0] [0] [0] [0; 0; 0; 0]
    = Panic "error solving r1c: 24*1=6".
Proof.
  destruct invariant_violations_panic as (Hmany & Hcheck & Hlog & Hsolve).
  split_and!.
  - apply Hmany; [reflexivity | vm_compute; lia].
  - apply (Hcheck doubled_r1cs 0%nat doubled_buffers doubled_r1c
             [true; true; true; true] [12; 1; 6; 1] 24 1 6);
      [reflexivity | vm_compute; reflexivity | vm_compute; reflexivity
      | vm_compute; discriminate].
  - apply (Hlog product_r1cs _ [0] [false] 0); [|reflexivity].
    simpl. apply elem_of_cons. by left.
  - assert (Hsized : sized doubled_r1cs [0] [0] [0] [0; 0; 0; 0])
      by (repeat split; reflexivity).
    assert (Hin : inputPhase doubled_r1cs doubled_assignment [0; 0; 0; 0]
                    (replicate (Z.to_nat (NbWires doubled_r1cs)) false)
                  = Ret (None, ([0; 1; 6; 1], [false; true; true; true])))
      by (vm_compute; reflexivity).
    apply (proj1 (Hsolve doubled_r1cs doubled_assignment [0] [0] [0] [0; 0; 0; 0]
                    [0; 1; 6; 1] [false; true; true; true] Hsized Hin)
             0%nat doubled_buffers).
    + vm_compute. lia.
    + reflexivity.
    + vm_compute. reflexivity.
Defined.

(** ** The further properties, on the sample systems *)

Lemma Solve_invalid_input_size_witness :
  Solve product_r1cs product_assignment [] [0] [0] [0; 0; 0]
  = Ret {| res_err := Some ErrInvalidInputSize;
           res_buffers := {| buf_a := []; buf_b := [0]; buf_c := [0];
                             buf_wireValues := [0; 0; 0];
                             buf_wireInstantiated := [] |};
           res_printed := [] |}.
Proof.
  apply (proj1 (Solve_invalid_input_size product_r1cs product_assignment
                  [] [0] [0] [0; 0; 0])).
  intros [Ha _]. vm_compute in Ha. discriminate.
Defined.

Lemma IsSolved_sizes_witness :
  sizes_match assert_equal_r1cs [0] [0] [0] [0; 0; 0]
  ∧ IsSolved (2 ^ 48) assert_equal_r1cs good_assignment
    = (res ← Solve assert_equal_r1cs good_assignment [0] [0] [0] [0; 0; 0];
       Ret (res_err res, res_printed res)).
Proof.
  apply (proj1 (IsSolved_sizes (2 ^ 48) assert_equal_r1cs good_assignment
                  ltac:(simpl; lia) ltac:(simpl; lia)));
    vm_compute; repeat split; discriminate.
Defined.

Lemma Solve_prints_logs_witness :
  Solve logged_r1cs product_assignment [0] [0] [0] [0; 0; 0] = Ret logged_result
  ∧ Forall2 (λ entry s, logValue entry [3; 2; 6] [true; true; true] = Ret s)
      (Logs logged_r1cs) ["a = 3"].
Proof.
  assert (Hrun : Solve logged_r1cs product_assignment [0] [0] [0] [0; 0; 0]
                 = Ret logged_result) by (vm_compute; reflexivity).
  split; [exact Hrun|].
  exact (Solve_prints_logs logged_r1cs product_assignment [0] [0] [0] [0; 0; 0]
           logged_result Hrun).
Defined.

Lemma instantiateR1C_permutation_witness :
  instantiateR1C swapped_bits_r1c bits_r1cs [1; 0; 1; 1; 13; 1]
  = instantiateR1C bits_r1c bits_r1cs [1; 0; 1; 1; 13; 1].
Proof.
  apply (instantiateR1C_permutation bits_r1c swapped_bits_r1c);
    [apply perm_swap | reflexivity | reflexivity].
Defined.

Lemma fast_path_agrees_with_table_witness :
  AddTerm bits_r1cs 5 (term 0 0 2) 7 = AddTerm bits_r1cs 5 (term 0 1 notSpecial) 7
  ∧ mulWireByCoeff bits_r1cs 5 (term 0 0 2)
    = mulWireByCoeff bits_r1cs 5 (term 0 1 notSpecial).
Proof.
  apply (fast_path_agrees_with_table bits_r1cs 5 (term 0 0 2)
           (term 0 1 notSpecial) 7 2);
    [right; right; right; reflexivity | reflexivity | vm_compute; discriminate ..
    | reflexivity | reflexivity].
Defined.

Lemma solveR1C_solves_for_output_witness :
  ∃ x,
    solveR1C product_r1cs output_r1c [false; true; true] [0; 6; 7]
    = Ret (<[0%nat := true]> [false; true; true], <[0%nat := x]> [0; 6; 7])
    ∧ instantiateR1C output_r1c product_r1cs (<[0%nat := x]> [0; 6; 7])
      = Ret (6, 7, Mul 6 7).
Proof.
  apply (solveR1C_solves_for_output product_r1cs output_r1c [false; true; true]
           [0; 6; 7] [] (term 0 0 1) [] 6 7 0);
    try reflexivity; repeat constructor.
Defined.

Lemma solveR1C_solves_for_factor_witness :
  ∃ x a',
    solveR1C product_r1cs product_r1c [false; true; true] [0; 2; 6]
    = Ret (<[0%nat := true]> [false; true; true], <[0%nat := x]> [0; 2; 6])
    ∧ instantiateR1C product_r1c product_r1cs (<[0%nat := x]> [0; 2; 6])
      = Ret (a', 2, 6)
    ∧ Mul a' 2 = 6.
Proof.
  apply (proj1 (solveR1C_solves_for_factor product_r1cs product_r1c
                  [false; true; true] [0; 2; 6] [] (term 0 0 1) [] 0 2 6
                  eq_refl (Forall_nil_2 _) (Forall_nil_2 _)
                  ltac:(repeat constructor) eq_refl (or_introl eq_refl)
                  eq_refl ltac:(simpl; lia)));
    try reflexivity; try (repeat constructor).
  vm_compute. discriminate.
Defined.

Lemma binaryDec_rebuilds_value_witness :
  ∃ n, sumTerms bits_r1cs [0; 0; 0; 0; 13; 1] (O bits_r1c) fr_zero = Ret n
    ∧ sumTerms bits_r1cs [1; 0; 1; 1; 13; 1] (L bits_r1c) fr_zero
      = Ret ((n mod 2 ^ Z.of_nat (length (L bits_r1c))) mod modulus)
    ∧ (0 ≤ n < 2 ^ Z.of_nat (length (L bits_r1c)) →
       sumTerms bits_r1cs [1; 0; 1; 1; 13; 1] (L bits_r1c) fr_zero = Ret n).
Proof.
  apply (binaryDec_rebuilds_value bits_r1cs bits_r1c
           [false; false; false; false; true; true] [0; 0; 0; 0; 13; 1]
           [true; true; true; true; true; true] [1; 0; 1; 1; 13; 1]
           (L bits_r1c)); try reflexivity.
  - apply (bool_decide_unpack _). vm_compute. exact I.
  - intros [|[|[|[|k]]]] t Ht; try discriminate;
      injection Ht as <-; split; vm_compute; reflexivity.
Defined.

Lemma inputPhase_succeeds_iff_provided_witness :
  (∃ w' inst',
     inputPhase doubled_r1cs doubled_assignment [0; 0; 0; 0]
       [false; false; false; false] = Ret (None, (w', inst')))
  ↔ Forall (provided doubled_assignment)
      (SecretWires doubled_r1cs ++ PublicWires doubled_r1cs).
Proof.
  apply (inputPhase_succeeds_iff_provided doubled_r1cs doubled_assignment
           [0; 0; 0; 0] [false; false; false; false]); try reflexivity.
  repeat split; try reflexivity. vm_compute. discriminate.
Defined.

Lemma inputPhase_sets_input_wires_witness :
  (∀ k name, (SecretWires doubled_r1cs ++ PublicWires doubled_r1cs) !! k = Some name →
     [false; true; true; true] !! Z.to_nat (1 + Z.of_nat k) = Some true
     ∧ ((name = OneWire ∧ [0; 1; 6; 1] !! Z.to_nat (1 + Z.of_nat k) = Some 1)
        ∨ (name ≠ OneWire
           ∧ ∃ v, doubled_assignment !! name = Some v
                  ∧ [0; 1; 6; 1] !! Z.to_nat (1 + Z.of_nat k) = Some (SetInterface v))))
  ∧ (∀ idx, Z.of_nat idx < 1 →
       [0; 1; 6; 1] !! idx = [0; 0; 0; 0] !! idx
       ∧ [false; true; true; true] !! idx = [false; false; false; false] !! idx)
  ∧ length [0; 1; 6; 1] = length [0; 0; 0; 0]
  ∧ length [false; true; true; true] = length [false; false; false; false].
Proof.
  apply (inputPhase_sets_input_wires doubled_r1cs doubled_assignment
           [0; 0; 0; 0] [false; false; false; false]
           [0; 1; 6; 1] [false; true; true; true]).
  - repeat split; try reflexivity. vm_compute. discriminate.
  - vm_compute. reflexivity.
Defined.

Lemma solveR1C_single_output_writes_one_wire_witness :
  (all_instantiated [false; true; true] (L product_r1c ++ R product_r1c ++ O product_r1c)
   ∧ [true; true; true] = [false; true; true] ∧ [3; 2; 6] = [0; 2; 6])
  ∨ ∃ u, [false; true; true] !! u = Some false
      ∧ Forall (λ t, [false; true; true] !! ConstraintID t = Some true
                     ∨ ConstraintID t = u)
          (L product_r1c ++ R product_r1c ++ O product_r1c)
      ∧ [true; true; true] = <[u:=true]> [false; true; true]
      ∧ ([3; 2; 6] = [0; 2; 6] ∨ ∃ x, [3; 2; 6] = <[u:=x]> [0; 2; 6]).
Proof.
  apply (solveR1C_single_output_writes_one_wire product_r1cs product_r1c
           [false; true; true] [0; 2; 6] [true; true; true] [3; 2; 6]).
  - reflexivity.
  - vm_compute. reflexivity.
Defined.

Lemma Solve_keeps_inputs_witness :
  buf_wireInstantiated (res_buffers product_result) !! 1%nat = Some true
  ∧ buf_wireValues (res_buffers product_result) !! 1%nat = [0; 2; 6] !! 1%nat.
Proof.
  apply (Solve_keeps_inputs product_r1cs product_assignment [0] [0] [0] [0; 0; 0]
           [0; 2; 6] [false; true; true] product_result).
  - repeat split; reflexivity.
  - vm_compute. reflexivity.
  - intros [|j] r _ Hr; [|discriminate]. injection Hr as <-. reflexivity.
  - vm_compute. reflexivity.
  - reflexivity.
Defined.

Lemma Solve_nil_iff_assertions_hold_witness :
  res_err good_result = None
  ↔ ∀ k, (Z.to_nat (int_of_uint64 (NbCOConstraints assert_equal_r1cs)) ≤ k
          < length (Constraints assert_equal_r1cs))%nat →
         holds_at assert_equal_r1cs (buf_wireValues (res_buffers good_result)) k.
Proof.
  apply (Solve_nil_iff_assertions_hold assert_equal_r1cs good_assignment
           [0] [0] [0] [0; 0; 0] [42; 1; 42] [true; true; true] good_result).
  - repeat split; reflexivity.
  - vm_compute. reflexivity.
  - vm_compute. reflexivity.
Defined.

Lemma quickLog_floor_log2_witness :
  0 ≤ quickLog 13 ∧ 2 ^ quickLog 13 ≤ Z.of_N 13 < 2 ^ (quickLog 13 + 1).
Proof. apply (proj2 (quickLog_floor_log2 13)). discriminate. Defined.

Lemma instantiateR1C_returns_iff_witness :
  ∃ abc, instantiateR1C bits_r1c bits_r1cs [1; 0; 1; 1; 13; 1] = Ret abc.
Proof.
  apply (proj1 (instantiateR1C_returns_iff bits_r1c bits_r1cs [1; 0; 1; 1; 13; 1])).
  repeat constructor; simpl; lia.
Defined.

Lemma binaryDec_writes_bits_of_L_witness :
  (∀ t, t ∈ L bits_r1c →
     [true; true; true; true; true; true] !! ConstraintID t = Some true
     ∧ ([1; 0; 1; 1; 13; 1] !! ConstraintID t = Some 0
        ∨ [1; 0; 1; 1; 13; 1] !! ConstraintID t = Some 1))
  ∧ (∀ k, k ∉ ConstraintID <$> L bits_r1c →
       [1; 0; 1; 1; 13; 1] !! k = [0; 0; 0; 0; 13; 1] !! k
       ∧ [true; true; true; true; true; true] !! k
         = [false; false; false; false; true; true] !! k)
  ∧ length [1; 0; 1; 1; 13; 1] = length [0; 0; 0; 0; 13; 1]
  ∧ length [true; true; true; true; true; true]
    = length [false; false; false; false; true; true].
Proof.
  apply (binaryDec_writes_bits_of_L bits_r1cs bits_r1c
           [false; false; false; false; true; true] [0; 0; 0; 0; 13; 1]);
    reflexivity.
Defined.
